(** * json-tools/scripts-node/common.mjs: path resolution, record-set
      resolution, flattening and value normalisation

    A shallow embedding of the shared helper module of the json-tools
    scripts (parsePath, extractValues, resolveArray, flattenJson, typeName,
    stableSortKeys, frequency) together with the properties the
    specification states about them.

    Conventions of the embedding.
    - A JavaScript string is a Rocq [string]; the code units are the
      characters of the string (exact for ASCII paths and keys).
    - A parsed JSON document is a [value].  An object is the list of its
      own properties in enumeration order (the order of [Object.keys]).
    - A function that can raise returns an [outcome]. *)

From Stdlib Require Import ZArith List String Ascii Bool Lia Permutation.
From Stdlib Require Import Numbers.DecimalString Numbers.DecimalPos Numbers.DecimalN.
From Stdlib Require Import Sorting.Sorted.
Import ListNotations.

Open Scope string_scope.
Open Scope list_scope.

(** ** JSON values *)

(** A JavaScript number as the code observes it: [Number.isInteger] and
    its decimal text.  [NInt z] is an integral number (printed in plain
    decimal, which is what [String] and [JSON.stringify] do below 1e21);
    [NFrac text] is a non-integral number given by its canonical text. *)
Inductive number : Type :=
| NInt (z : Z)
| NFrac (text : string).

#[warnings="-register-all"] Inductive value : Type :=
| VNull
| VBool (b : bool)
| VNum (n : number)
| VStr (s : string)
| VArr (items : list value)
| VObj (props : list (string * value)).

(** The own properties of a plain object, in enumeration order: keys that
    are array indices first, in ascending order, then the other keys in
    the order of their creation.  Keys are pairwise different. *)
Definition object : Type := list (string * value).

(** Induction over documents, with the hypothesis available for every
    element of an array and every property value of an object. *)
Section ValueInduction.
Variable P : value -> Prop.
Hypothesis Hnull : P VNull.
Hypothesis Hbool : forall b, P (VBool b).
Hypothesis Hnum : forall n, P (VNum n).
Hypothesis Hstr : forall s, P (VStr s).
Hypothesis Harr : forall items, Forall P items -> P (VArr items).
Hypothesis Hobj : forall props, Forall (fun kv => P (snd kv)) props -> P (VObj props).

Fixpoint value_nested_ind (v : value) : P v :=
  match v with
  | VNull => Hnull
  | VBool b => Hbool b
  | VNum n => Hnum n
  | VStr s => Hstr s
  | VArr items =>
      Harr items
        ((fix all (l : list value) : Forall P l :=
            match l with
            | [] => Forall_nil P
            | x :: rest => Forall_cons x (value_nested_ind x) (all rest)
            end) items)
  | VObj props =>
      Hobj props
        ((fix all (l : list (string * value)) : Forall (fun kv => P (snd kv)) l :=
            match l with
            | [] => Forall_nil _
            | kv :: rest => Forall_cons kv (value_nested_ind (snd kv)) (all rest)
            end) props)
  end.
End ValueInduction.

(** [item && typeof item === "object"]: arrays and objects, not null. *)
Definition isComposite (v : value) : bool :=
  match v with
  | VArr _ | VObj _ => true
  | _ => false
  end.

(** ** Exceptions *)

(** The class of a raised error.  The message text is chosen by the
    engine and is not modelled. *)
Inductive js_error : Type :=
| TypeError.

Inductive outcome (A : Type) : Type :=
| Ok (a : A)
| Throw (e : js_error).

Arguments Ok {A} a.
Arguments Throw {A} e.

Definition bind {A B : Type} (m : outcome A) (k : A -> outcome B) : outcome B :=
  match m with
  | Ok a => k a
  | Throw e => Throw e
  end.

Notation "x <- m ;; k" := (bind m (fun x => k))
  (at level 61, m at next level, right associativity).

(** ** String helpers *)

Definition isEmpty (s : string) : bool :=
  match s with
  | EmptyString => true
  | String _ _ => false
  end.

(** JavaScript truthiness of a string: [if (s)]. *)
Definition truthy (s : string) : bool := negb (isEmpty s).

Fixpoint takeWhile (p : ascii -> bool) (s : string) : string :=
  match s with
  | EmptyString => EmptyString
  | String c rest => if p c then String c (takeWhile p rest) else EmptyString
  end.

Fixpoint dropChars (n : nat) (s : string) : string :=
  match n, s with
  | O, _ => s
  | S k, EmptyString => EmptyString
  | S k, String _ rest => dropChars k rest
  end.

Definition isDigit (c : ascii) : bool :=
  let n := nat_of_ascii c in (48 <=? n)%nat && (n <=? 57)%nat.

(** [Number.parseInt(digits, 10)] on a string of decimal digits, as the
    exact natural number the digits denote.  [Number.parseInt] returns
    that number for numerals up to 2^53.  Above, it returns the nearest
    double, which still lies above every array length (below 2^32), and
    from about 309 digits on it returns [Infinity], which is no integer
    and is then looked up as the key ["Infinity"]: statements about index
    tokens written out in a path are made for indices below 2^53. *)
Definition parseInt10 (digits : string) : N :=
  (fix go (s : string) (acc : N) : N :=
     match s with
     | EmptyString => acc
     | String c rest => go rest (10 * acc + (N_of_ascii c - 48))%N
     end) digits 0%N.

(** Decimal text of an integer: [String(n)] and [`${n}`]. *)
Definition decimal (z : Z) : string := NilZero.string_of_int (Z.to_int z).

(** ** The path token regular expression

    [PATH_TOKEN_RE = /([^.\[\]]+)|(\[(\*|\d+)\])/g] *)

(** One match: the matched text and capture groups 1 and 3. *)
Record re_match : Type := {
  matched : string;
  group1 : option string;
  group3 : option string
}.

(** [[^.\[\]]]. *)
Definition keyChar (c : ascii) : bool :=
  negb (Ascii.eqb c "." || Ascii.eqb c "[" || Ascii.eqb c "]")%char.

(** First alternative [([^.\[\]]+)]: the longest non-empty run of key
    characters. *)
Definition matchKey (s : string) : option re_match :=
  let run := takeWhile keyChar s in
  if isEmpty run then None
  else Some {| matched := run; group1 := Some run; group3 := None |}.

(** Second alternative [(\[(\*|\d+)\])]. *)
Definition matchBracket (s : string) : option re_match :=
  match s with
  | String "["%char rest =>
      match rest with
      | String "*"%char (String "]"%char _) =>
          Some {| matched := "[*]"; group1 := None; group3 := Some "*" |}
      | _ =>
          let digits := takeWhile isDigit rest in
          if isEmpty digits then None
          else
            match dropChars (String.length digits) rest with
            | String "]"%char _ =>
                Some {| matched := "[" ++ digits ++ "]";
                        group1 := None; group3 := Some digits |}
            | _ => None
            end
      end
  | _ => None
  end.

(** The expression tried at the start of [s]. *)
Definition matchAt (s : string) : option re_match :=
  match matchKey s with
  | Some m => Some m
  | None => matchBracket s
  end.

(** The global scan: the expression is tried at every position from left
    to right; after a match the scan resumes behind the matched text,
    otherwise one character is passed over.  [skip] counts the characters
    of the last match that are still to be passed. *)
Fixpoint scanFrom (skip : nat) (s : string) : list re_match :=
  match s with
  | EmptyString => []
  | String _ rest =>
      match skip with
      | S k => scanFrom k rest
      | O =>
          match matchAt s with
          | Some m => m :: scanFrom (String.length (matched m) - 1) rest
          | None => scanFrom 0 rest
          end
      end
  end.

(** [path.matchAll(PATH_TOKEN_RE)]. *)
Definition matchAll (s : string) : list re_match := scanFrom 0 s.

(** ** Path tokens *)

(** A token is a JavaScript string (a key, or ["*"] for the wildcard) or
    the number produced by [Number.parseInt] on a run of digits. *)
Inductive token : Type :=
| TStr (s : string)
| TNum (n : N).

(** The [path] argument as a caller can pass it: absent ([null] or
    [undefined]), a string, or an array of tokens. *)
Inductive path_arg : Type :=
| PathAbsent
| PathString (s : string)
| PathTokens (tokens : list token).

(** The body of the [for (const match of ...)] loop of [parsePath]. *)
Definition tokenOfMatch (m : re_match) : list token :=
  match group1 m with
  | Some key => [TStr key]
  | None =>
      match group3 m with
      | Some bracketToken =>
          if bracketToken =? "*" then [TStr "*"]
          else [TNum (parseInt10 bracketToken)]
      | None => []
      end
  end.

(** The index tokens that [Number.parseInt] reads exactly: those below
    2^53. *)
Definition exactIndex (n : N) : bool := (n <? 2 ^ 53)%N.

Definition exactToken (tok : token) : bool :=
  match tok with
  | TStr _ => true
  | TNum n => exactIndex n
  end.

Definition parsePath (path : path_arg) : outcome (list token) :=
  match path with
  | PathAbsent => Ok []
  | PathString s =>
      if isEmpty s then Ok []
      else Ok (flat_map tokenOfMatch (matchAll s))
  | PathTokens _ =>
      (* an array is truthy and has no matchAll method *)
      Throw TypeError
  end.

(** ** Property access *)

(** [Object.hasOwn(o, k) ? o[k] : undefined] on a plain object. *)
Fixpoint objGet (k : string) (o : object) : option value :=
  match o with
  | [] => None
  | (k', v) :: rest => if k =? k' then Some v else objGet k rest
  end.

Definition allDigits (s : string) : bool :=
  isEmpty (dropChars (String.length (takeWhile isDigit s)) s).

(** The array index a property key denotes, if any: a canonical decimal
    numeral below 2^32 - 1. *)
Definition arrayIndex (k : string) : option N :=
  match k with
  | EmptyString => None
  | String c rest =>
      if allDigits k && (isEmpty rest || negb (Ascii.eqb c "0"%char))
      then
        let n := parseInt10 k in
        if (n <? 4294967295)%N then Some n else None
      else None
  end.

(** The own properties of an array: its elements under their indices and
    [length]. *)
Definition arrayGet (k : string) (items : list value) : option value :=
  match arrayIndex k with
  | Some i => nth_error items (N.to_nat i)
  | None =>
      if k =? "length" then Some (VNum (NInt (Z.of_nat (List.length items))))
      else None
  end.

(** ** extractValues *)

(** What one [item] of the working set pushes for one [token]. *)
Definition emit (tok : token) (item : value) : list value :=
  match tok with
  | TStr key =>
      if key =? "*" then
        match item with
        | VArr items => items
        | VObj props => map snd props
        | _ => []
        end
      else
        (* item && typeof item === "object" && Object.hasOwn(item, token) *)
        match item with
        | VArr items =>
            match arrayGet key items with
            | Some v => [v]
            | None => []
            end
        | VObj props =>
            match objGet key props with
            | Some v => [v]
            | None => []
            end
        | _ => []
        end
  | TNum n =>
      match item with
      | VArr items =>
          let len := Z.of_nat (List.length items) in
          if (Z.of_N n >=? - len)%Z && (Z.of_N n <? len)%Z then
            match nth_error items (N.to_nat n) with
            | Some v => [v]
            | None => []
            end
          else []
      | _ => []
      end
  end.

(** The outer loop over the tokens; [values] is the working set. *)
Definition evalTokens (tokens : list token) (values : list value) : list value :=
  fold_left (fun values tok => flat_map (emit tok) values) tokens values.

Definition extractValues (data : value) (path : path_arg) : outcome (list value) :=
  tokens <- parsePath path ;;
  match tokens with
  | [] => Ok [data]
  | _ => Ok (evalTokens tokens [data])
  end.

Definition existsPath (data : value) (path : path_arg) : outcome bool :=
  values <- extractValues data path ;;
  Ok (negb (Nat.eqb (List.length values) 0)).

Definition firstValue (data : value) (path : path_arg) (defaultValue : value)
  : outcome value :=
  values <- extractValues data path ;;
  Ok (match values with
      | v :: _ => v
      | [] => defaultValue
      end).

(** ** resolveArray *)

(** [if (arrayPath)]. *)
Definition pathTruthy (path : path_arg) : bool :=
  match path with
  | PathAbsent => false
  | PathString s => truthy s
  | PathTokens _ => true
  end.

(** First loop: the first result that is an array. *)
Fixpoint firstArray (values : list value) : option (list value) :=
  match values with
  | [] => None
  | VArr items :: _ => Some items
  | _ :: rest => firstArray rest
  end.

(** Second loop: the first result that is an object and not an array. *)
Fixpoint firstObject (values : list value) : option object :=
  match values with
  | [] => None
  | VObj props :: _ => Some props
  | _ :: rest => firstObject rest
  end.

Definition resolveArray (data : value) (arrayPath : path_arg) : outcome (list value) :=
  if pathTruthy arrayPath then
    values <- extractValues data arrayPath ;;
    match firstArray values with
    | Some items => Ok items
    | None =>
        match firstObject values with
        | Some props => Ok (map snd props)
        | None => Ok []
        end
    end
  else
    match data with
    | VArr items => Ok items
    | _ => Ok []
    end.

(** ** Assignment to a property of a plain object *)

(** [o[k] = v] on a plain object.  An existing property keeps its place.
    A new property whose key is an array index is enumerated before the
    other keys, in ascending numeric order; any other new key is
    enumerated last.  Assigning to ["__proto__"] reaches the accessor
    inherited from [Object.prototype] and creates no own property; this
    holds for an object whose prototype is still [Object.prototype], that
    is, until [null] or an object has been assigned to ["__proto__"]:
    such an assignment replaces the prototype, which is not modelled. *)
Fixpoint insertProp (k : string) (v : value) (o : object) : object :=
  match o with
  | [] => [(k, v)]
  | (k', v') :: rest =>
      if k =? k' then (k, v) :: rest
      else
        match arrayIndex k, arrayIndex k' with
        | Some i, Some i' =>
            if (i <? i')%N then (k, v) :: (k', v') :: rest
            else (k', v') :: insertProp k v rest
        | Some _, None => (k, v) :: (k', v') :: rest
        | None, _ => (k', v') :: insertProp k v rest
        end
  end.

Definition objSet (k : string) (v : value) (o : object) : object :=
  if k =? "__proto__" then o else insertProp k v o.

(** ** flattenJson *)

(** [items.forEach((inner, idx) => ...)] over a state that the callback
    updates; [idx] is the index of the first element of [items]. *)
Section ForEach.
Context {A St : Type}.
Variable callback : A -> nat -> St -> St.

Fixpoint forEachFrom (items : list A) (idx : nat) (state : St) : St :=
  match items with
  | [] => state
  | inner :: rest => forEachFrom rest (S idx) (callback inner idx state)
  end.
End ForEach.

Definition forEach {A St : Type} (callback : A -> nat -> St -> St)
    (items : list A) (state : St) : St :=
  forEachFrom callback items 0%nat state.

(** [prefix ? `${prefix}${separator}${key}` : key] *)
Definition keyPrefix (separator prefix key : string) : string :=
  if truthy prefix then (prefix ++ separator ++ key)%string else key.

(** [prefix ? `${prefix}[${idx}]` : `[${idx}]`] *)
Definition indexPrefix (prefix : string) (idx : nat) : string :=
  if truthy prefix then (prefix ++ "[" ++ decimal (Z.of_nat idx) ++ "]")%string
  else ("[" ++ decimal (Z.of_nat idx) ++ "]")%string.

(** [value.every((item) => !(item && typeof item === "object"))] *)
Definition allScalars (items : list value) : bool :=
  forallb (fun item => negb (isComposite item)) items.

(** The inner function [walk(value, prefix)]; the shared [output] object
    it assigns into is passed through. *)
Fixpoint walk (separator arrayMode : string) (v : value) (prefix : string)
    (output : object) {struct v} : object :=
  match v with
  | VObj props =>
      if Nat.eqb (List.length props) 0 && truthy prefix
      then objSet prefix (VObj []) output
      else
        fold_left
          (fun out entry =>
             let nextPrefix := keyPrefix separator prefix (fst entry) in
             walk separator arrayMode (snd entry) nextPrefix out)
          props output
  | VArr items =>
      if arrayMode =? "ignore" then objSet prefix v output
      else if (arrayMode =? "expand") && allScalars items
      then objSet prefix v output
      else
        let out :=
          forEach
            (fun inner idx out =>
               let nextPrefix :=
                 if arrayMode =? "expand" then prefix
                 else indexPrefix prefix idx in
               walk separator arrayMode inner nextPrefix out)
            items output in
        if Nat.eqb (List.length items) 0 && truthy prefix
        then objSet prefix (VArr []) out
        else out
  | _ => objSet prefix v output
  end.

Definition flattenJson (data : value) (separator arrayMode : string) : object :=
  walk separator arrayMode data "" [].

(** ** typeName *)

Definition typeName (v : value) : string :=
  match v with
  | VNull => "null"
  | VBool _ => "bool"
  | VNum (NInt _) => "int"
  | VNum (NFrac _) => "float"
  | VStr _ => "string"
  | VArr _ => "array"
  | VObj _ => "object"
  end.

(** ** stableSortKeys *)

(** [Object.keys(value).sort()]: ascending by code units. *)
Fixpoint insertKey (k : string) (sorted : list string) : list string :=
  match sorted with
  | [] => [k]
  | h :: rest =>
      if (k <=? h)%string then k :: sorted else h :: insertKey k rest
  end.

Definition sortKeys (keys : list string) : list string :=
  fold_right insertKey [] keys.

(** The loop [for (const key of keys) out[key] = sorted[key]] starting
    from the empty object. *)
Definition rebuild (keys : list string) (sorted : object) : object :=
  fold_left
    (fun out key =>
       match objGet key sorted with
       | Some x => objSet key x out
       | None => out
       end)
    keys [].

(** The property values are normalised first and then looked up by key
    in the loop, which is the same as normalising [value[key]] inside
    the loop. *)
Fixpoint stableSortKeys (v : value) : value :=
  match v with
  | VArr items => VArr (map stableSortKeys items)
  | VObj props =>
      VObj (rebuild (sortKeys (map fst props))
              (map (fun kv => (fst kv, stableSortKeys (snd kv))) props))
  | _ => v
  end.

(** ** JSON.stringify (compact form) *)

Definition dquote : ascii := ascii_of_nat 34.
Definition backslash : ascii := ascii_of_nat 92.

Definition hexDigit (n : nat) : ascii :=
  match String.get n "0123456789abcdef" with
  | Some c => c
  | None => "0"%char
  end.

Definition escapeChar (c : ascii) : string :=
  let n := nat_of_ascii c in
  if Nat.eqb n 34 then String backslash (String dquote "")
  else if Nat.eqb n 92 then String backslash (String backslash "")
  else if Nat.eqb n 8 then String backslash "b"
  else if Nat.eqb n 12 then String backslash "f"
  else if Nat.eqb n 10 then String backslash "n"
  else if Nat.eqb n 13 then String backslash "r"
  else if Nat.eqb n 9 then String backslash "t"
  else if (n <? 32)%nat then
    String backslash
      ("u00" ++ String (hexDigit (n / 16)) (String (hexDigit (n mod 16)) ""))%string
  else String c "".

Fixpoint escapeChars (s : string) : string :=
  match s with
  | EmptyString => EmptyString
  | String c rest => (escapeChar c ++ escapeChars rest)%string
  end.

Definition quote (s : string) : string :=
  String dquote (escapeChars s ++ String dquote "")%string.

(** [String(n)] and [JSON.stringify(n)] of a number: the decimal text of
    an integer, which is what JavaScript prints for integers of magnitude
    below 10^21 (larger ones are printed in exponent form), and the text
    carried by a number with a fraction. *)
Definition numberText (n : number) : string :=
  match n with
  | NInt z => decimal z
  | NFrac text => text
  end.

Fixpoint stringify (v : value) : string :=
  match v with
  | VNull => "null"
  | VBool true => "true"
  | VBool false => "false"
  | VNum n => numberText n
  | VStr s => quote s
  | VArr items =>
      ("[" ++ String.concat "," (map stringify items) ++ "]")%string
  | VObj props =>
      ("{" ++ String.concat ","
                (map (fun kv => (quote (fst kv) ++ ":" ++ stringify (snd kv))%string)
                     props)
           ++ "}")%string
  end.

(** ** pyScalarString and frequency *)

(** [String(value)]. *)
Fixpoint jsString (v : value) : string :=
  match v with
  | VNull => "null"
  | VBool true => "true"
  | VBool false => "false"
  | VNum n => numberText n
  | VStr s => s
  | VArr items =>
      String.concat ","
        (map (fun item => match item with
                          | VNull => ""
                          | _ => jsString item
                          end) items)
  | VObj _ => "[object Object]"
  end.

Definition pyScalarString (v : value) : string :=
  match v with
  | VNull => "None"
  | VBool true => "True"
  | VBool false => "False"
  | _ => jsString v
  end.

(** The key under which [frequency] counts a value; the specification
    calls it the stable key of the value. *)
Definition stableKey (v : value) : string :=
  if isComposite v then stringify (stableSortKeys v) else pyScalarString v.

(** A [Map] from strings to counts, in insertion order. *)
Definition counter : Type := list (string * nat).

Fixpoint mapGet (k : string) (m : counter) : option nat :=
  match m with
  | [] => None
  | (k', n) :: rest => if k =? k' then Some n else mapGet k rest
  end.

Fixpoint mapSet (k : string) (n : nat) (m : counter) : counter :=
  match m with
  | [] => [(k, n)]
  | (k', n') :: rest =>
      if k =? k' then (k, n) :: rest else (k', n') :: mapSet k n rest
  end.

Definition frequency (values : list value) : counter :=
  fold_left
    (fun counts v =>
       let normalized := stableKey v in
       let seen := match mapGet normalized counts with
                   | Some n => n
                   | None => 0%nat
                   end in
       mapSet normalized (seen + 1)%nat counts)
    values [].

(** ** Auxiliary notions used by the statements *)

(** The characters of [s] that satisfy [p], in order. *)
Fixpoint keepChars (p : ascii -> bool) (s : string) : string :=
  match s with
  | EmptyString => EmptyString
  | String c rest => if p c then String c (keepChars p rest) else keepChars p rest
  end.

(** The matched texts of a scan, one after the other. *)
Definition matchedText (ms : list re_match) : string :=
  fold_right (fun m acc => (matched m ++ acc)%string) EmptyString ms.

(** [output[k] = v] for each entry in turn. *)
Definition assignAll (entries : list (string * value)) (output : object) : object :=
  fold_left (fun out entry => objSet (fst entry) (snd entry) out) entries output.

Section FlatMapIndexed.
Context {A B : Type}.
Variable f : A -> nat -> list B.

Fixpoint flatMapFrom (items : list A) (idx : nat) : list B :=
  match items with
  | [] => []
  | x :: rest => f x idx ++ flatMapFrom rest (S idx)
  end.
End FlatMapIndexed.

(** The terminal nodes [walk] reaches, each with the prefix it is reached
    under, in visiting order: scalars, empty mappings and empty arrays
    below the top level, and the arrays that the array mode records
    whole.  This is the flattener as a pure function from a value to a
    sequence of (key, value) pairs. *)
Fixpoint terminalNodes (separator arrayMode : string) (v : value)
    (prefix : string) {struct v} : list (string * value) :=
  match v with
  | VObj props =>
      if Nat.eqb (List.length props) 0 && truthy prefix
      then [(prefix, VObj [])]
      else
        flat_map
          (fun entry =>
             terminalNodes separator arrayMode (snd entry)
               (keyPrefix separator prefix (fst entry)))
          props
  | VArr items =>
      if arrayMode =? "ignore" then [(prefix, v)]
      else if (arrayMode =? "expand") && allScalars items then [(prefix, v)]
      else
        flatMapFrom
          (fun inner idx =>
             terminalNodes separator arrayMode inner
               (if arrayMode =? "expand" then prefix else indexPrefix prefix idx))
          items 0%nat
        ++ (if Nat.eqb (List.length items) 0 && truthy prefix
            then [(prefix, VArr [])]
            else [])
  | _ => [(prefix, v)]
  end.

(** Per-index expansion as the specification words it for mode index:
    element [i] is walked under the prefix extended by ["[i]"]. *)
Definition perIndexExpansion (separator arrayMode : string) (items : list value)
    (prefix : string) (output : object) : object :=
  forEach
    (fun inner idx out =>
       walk separator arrayMode inner (indexPrefix prefix idx) out)
    items output.

(** Structural equality of documents up to the order of mapping keys:
    the same type tree, equal scalars, arrays equal element by element,
    mappings with as many keys and structurally equal values under each
    key. *)
Definition number_eqb (a b : number) : bool :=
  match a, b with
  | NInt x, NInt y => Z.eqb x y
  | NFrac x, NFrac y => x =? y
  | _, _ => false
  end.

Fixpoint structEq (a b : value) {struct a} : bool :=
  match a, b with
  | VNull, VNull => true
  | VBool x, VBool y => Bool.eqb x y
  | VNum x, VNum y => number_eqb x y
  | VStr x, VStr y => x =? y
  | VArr xs, VArr ys =>
      (fix all (xs ys : list value) {struct xs} : bool :=
         match xs, ys with
         | [], [] => true
         | x :: xs', y :: ys' => structEq x y && all xs' ys'
         | _, _ => false
         end) xs ys
  | VObj ps, VObj qs =>
      Nat.eqb (List.length ps) (List.length qs)
      && forallb
           (fun entry =>
              match objGet (fst entry) qs with
              | Some y => structEq (snd entry) y
              | None => false
              end)
           ps
  | _, _ => false
  end.

(** The keys of every mapping of a document are pairwise different, as
    they are in every JavaScript object. *)
Fixpoint distinctKeys (keys : list string) : bool :=
  match keys with
  | [] => true
  | k :: rest => negb (existsb (String.eqb k) rest) && distinctKeys rest
  end.

Fixpoint wellFormed (v : value) : bool :=
  match v with
  | VArr items => forallb wellFormed items
  | VObj props =>
      distinctKeys (map fst props)
      && forallb (fun entry => wellFormed (snd entry)) props
  | _ => true
  end.

(** ** Example documents *)

Definition vint (z : Z) : value := VNum (NInt z).

(** [[10,20,30]] *)
Definition doc_10_20_30 : value := VArr [vint 10; vint 20; vint 30].

(** [[10,20]] *)
Definition doc_10_20 : value := VArr [vint 10; vint 20].

(** [{"a":{"x":1},"b":{"y":2}}] *)
Definition doc_a_b : value :=
  VObj [("a", VObj [("x", vint 1)]); ("b", VObj [("y", vint 2)])].

(** [{"a":[{"x":1}]}] *)
Definition doc_a_rows : value := VObj [("a", VArr [VObj [("x", vint 1)]])].

(** [{"b":2,"a":1}] and [{"a":1,"b":2}] *)
Definition doc_b_a : value := VObj [("b", vint 2); ("a", vint 1)].
Definition doc_a_b_sorted : value := VObj [("a", vint 1); ("b", vint 2)].

(** ** Notions used by the further properties *)

(** The tokens [parsePath] produces for a path string. *)
Definition pathTokens (s : string) : list token :=
  flat_map tokenOfMatch (matchAll s).

(** A key that the path syntax can name: not empty, free of dots and
    brackets, and different from the wildcard. *)
Definition plainKey (k : string) : bool :=
  truthy k && isEmpty (dropChars (String.length (takeWhile keyChar k)) k)
  && negb (k =? "*").

(** A document all of whose mapping keys are distinct plain keys. *)
Fixpoint addressable (v : value) : bool :=
  match v with
  | VArr items => forallb addressable items
  | VObj props =>
      distinctKeys (map fst props)
      && forallb (fun entry => plainKey (fst entry) && addressable (snd entry))
           props
  | _ => true
  end.

(** The bracket alternative after the digits have been read. *)
Definition closeBracket (rest : string) : option re_match :=
  let digits := takeWhile isDigit rest in
  if isEmpty digits then None
  else
    match dropChars (String.length digits) rest with
    | EmptyString => None
    | String c _ =>
        if Ascii.eqb c "]"%char
        then Some {| matched := "[" ++ digits ++ "]";
                     group1 := None; group3 := Some digits |}
        else None
    end.

(** A character at which no token continues: a dot or an opening
    bracket. *)
Definition tokenBoundary (c : ascii) : bool :=
  Ascii.eqb c "."%char || Ascii.eqb c "["%char.

(** [k] is enumerated before [k'] in an object that holds both: the keys
    differ, array indices come in ascending order and before every other
    key. *)
Definition keyBefore (k k' : string) : bool :=
  negb (k =? k')
  && match arrayIndex k, arrayIndex k' with
     | Some i, Some j => (i <? j)%N
     | Some _, None => true
     | None, Some _ => false
     | None, None => true
     end.

(** The enumeration order of the own properties of a JavaScript object. *)
Fixpoint enumerationOrder (o : object) : bool :=
  match o with
  | [] => true
  | (k, _) :: rest =>
      forallb (fun entry => keyBefore k (fst entry)) rest
      && enumerationOrder rest
  end.

Definition noProtoKey (o : object) : bool :=
  forallb (fun entry => negb (fst entry =? "__proto__")) o.

(** What [walk] can record under a key: a scalar, an empty mapping or
    empty array under a non-empty key, or an array that the array mode
    keeps whole. *)
Definition leafEntry (arrayMode : string) (entry : string * value) : bool :=
  match snd entry with
  | VObj props => Nat.eqb (List.length props) 0 && truthy (fst entry)
  | VArr items =>
      (arrayMode =? "ignore")
      || ((arrayMode =? "expand") && allScalars items)
      || (Nat.eqb (List.length items) 0 && truthy (fst entry))
  | _ => true
  end.

(** No mapping of the document has a key "__proto__". *)
Fixpoint noProtoDeep (v : value) : bool :=
  match v with
  | VArr items => forallb noProtoDeep items
  | VObj props =>
      noProtoKey props && forallb (fun entry => noProtoDeep (snd entry)) props
  | _ => true
  end.

(** The own properties of a document value that is a mapping. *)
Definition propsOf (v : value) : object :=
  match v with
  | VObj props => props
  | _ => []
  end.

(** ** uniqueTypes *)

(** [[...new Set(xs)]]: the distinct elements of [xs] in the order of
    their first occurrence. *)
Definition setOf (xs : list string) : list string :=
  fold_left
    (fun seen x => if existsb (String.eqb x) seen then seen else seen ++ [x])
    xs [].

Definition uniqueTypes (values : list value) : list string :=
  sortKeys (setOf (map typeName values)).

(** The body of the loop of [frequency]. *)
Definition frequencyStep (counts : counter) (v : value) : counter :=
  let normalized := stableKey v in
  let seen := match mapGet normalized counts with
              | Some n => n
              | None => 0%nat
              end in
  mapSet normalized (seen + 1)%nat counts.

(** ** The commands: record selection (reverse.mjs, extract.mjs) *)

(** The fallback that reverse, sort, group and stats apply to the result
    of [resolveArray]:
    [if (!rows.length) rows = Array.isArray(data) ? data : [data]]. *)
Definition recordsOrDocument (data : value) (arrayPath : path_arg)
  : outcome (list value) :=
  rows <- resolveArray data arrayPath ;;
  Ok (if Nat.eqb (List.length rows) 0
      then match data with
           | VArr items => items
           | _ => [data]
           end
      else rows).

(** [rows.slice(start, end)]; [None] is an omitted [end].  A negative
    bound counts from the end, and both bounds are clamped to the array. *)
Definition sliceBound (len : nat) (bound : Z) : nat :=
  if (bound <? 0)%Z then Z.to_nat (Z.max (Z.of_nat len + bound) 0)
  else Nat.min (Z.to_nat bound) len.

Definition slice (start : Z) (stop : option Z) (rows : list value) : list value :=
  let len := List.length rows in
  let from := sliceBound len start in
  let to := match stop with
            | Some e => sliceBound len e
            | None => len
            end in
  firstn (to - from) (skipn from rows).

(** A [--first] or [--last] argument: [null] when the option is absent,
    otherwise the result of [Number.parseInt], which is [NaN] for text
    that does not start with a numeral. *)
Inductive count_arg : Type :=
| CountNull
| CountNaN
| CountInt (z : Z).

(** [Math.max(count, 0)] as [slice] reads it: [NaN] stays [NaN], which
    [slice] takes as 0. *)
Definition maxZero (z : Z) : Z := Z.max z 0.

Definition selectRows (data : value) (arrayPath : path_arg)
    (first last : count_arg) : outcome (list value) :=
  rows <- resolveArray data arrayPath ;;
  let rows :=
    match first with
    | CountNull => rows
    | CountNaN => slice 0 (Some 0%Z) rows
    | CountInt n => slice 0 (Some (maxZero n)) rows
    end in
  let rows :=
    match last with
    | CountNull => rows
    | CountNaN => slice 0 None rows
    | CountInt n => slice (- maxZero n) None rows
    end in
  Ok rows.

(** ** The merge command (merge.mjs) *)

(** [typeof v]. *)
Definition typeOf (v : value) : string :=
  match v with
  | VBool _ => "boolean"
  | VNum _ => "number"
  | VStr _ => "string"
  | VNull | VArr _ | VObj _ => "object"
  end.

(** [o[k] = v] on a plain object that may own a property "__proto__"
    (one copied from a parsed document): an own property is updated in
    place; without one, the assignment to "__proto__" reaches the
    inherited accessor and creates nothing.  As for [objSet], the
    replacement of the prototype by such an assignment is not modelled;
    it bears on later assignments to "__proto__" only, never on another
    key. *)
Definition objAssign (k : string) (v : value) (o : object) : object :=
  if (k =? "__proto__")
     && match objGet k o with
        | Some _ => false
        | None => true
        end
  then o
  else insertProp k v o.

(** [Object.assign(out, obj)]. *)
Definition objectAssign (out obj : object) : object :=
  fold_left (fun out entry => objAssign (fst entry) (snd entry) out) obj out.

Definition shallowMerge (objects : list object) : object :=
  fold_left objectAssign objects [].

(** [JSON.parse(JSON.stringify(value))]: a copy of the document.  Values
    have no identity in the embedding, so the copy is the value. *)
Definition deepClone (v : value) : value := v.

Fixpoint deepMergeValues (left right : value) {struct right} : value :=
  match left, right with
  | VObj leftProps, VObj rightProps =>
      VObj
        (fold_left
           (fun merged entry =>
              match objGet (fst entry) merged with
              | Some current =>
                  objAssign (fst entry)
                    (deepMergeValues current (snd entry)) merged
              | None => objAssign (fst entry) (deepClone (snd entry)) merged
              end)
           rightProps leftProps)
  | VArr leftItems, VArr rightItems => VArr (leftItems ++ rightItems)
  | _, _ => deepClone right
  end.

(** The token under which [mergeArrays] remembers a key value:
    [`${typeof key}:${JSON.stringify(key)}`]. *)
Definition uniqueToken (key : value) : string :=
  (typeOf key ++ ":" ++ stringify key)%string.

(** One round of the loop of [mergeArrays]; the state is the set [seen]
    and the array [deduped]. *)
Definition dedupeStep (uniqueBy : string)
    (state : outcome (list string * list value)) (item : value)
  : outcome (list string * list value) :=
  st <- state ;;
  key <- firstValue item (PathString uniqueBy) VNull ;;
  let token := uniqueToken key in
  if existsb (String.eqb token) (fst st) then Ok st
  else Ok (fst st ++ [token], snd st ++ [item]).

(** [uniqueBy] is [None] when the option is not given. *)
Definition mergeArrays (arrays : list (list value)) (uniqueBy : option string)
  : outcome (list value) :=
  let combined := List.concat arrays in
  match uniqueBy with
  | None => Ok combined
  | Some path =>
      if isEmpty path then Ok combined
      else
        st <- fold_left (dedupeStep path) combined (Ok ([], [])) ;;
        Ok (snd st)
  end.

(** [xs] is [ys] with some elements left out. *)
Inductive subsequence {A : Type} : list A -> list A -> Prop :=
| subsequence_nil : subsequence [] []
| subsequence_skip (x : A) (xs ys : list A) :
    subsequence xs ys -> subsequence xs (x :: ys)
| subsequence_keep (x : A) (xs ys : list A) :
    subsequence xs ys -> subsequence (x :: xs) (x :: ys).

(** The token [mergeArrays] computes for an item. *)
Definition itemToken (uniqueBy : string) (item : value) : string :=
  match firstValue item (PathString uniqueBy) VNull with
  | Ok key => uniqueToken key
  | Throw _ => EmptyString
  end.

(** ** The diff command (diff.mjs) *)

(** The entries of the [changes] array. *)
Inductive change : Type :=
| TypeChange (path left_type right_type : string) (left right : value)
| Removed (path : string) (left : value)
| Added (path : string) (right : value)
| ArraySetChange (path : string) (left right : value)
| Changed (path : string) (left right : value).

(** [path || "$"] *)
Definition orRoot (path : string) : string :=
  if truthy path then path else "$".

Definition isNull (v : value) : bool :=
  match v with
  | VNull => true
  | _ => false
  end.

Definition isArrayValue (v : value) : bool :=
  match v with
  | VArr _ => true
  | _ => false
  end.

(** The first test of [diffValues]:
    [typeof left !== typeof right || Array.isArray(left) !==
     Array.isArray(right) || (left === null) !== (right === null)]. *)
Definition kindDiffers (left right : value) : bool :=
  negb (typeOf left =? typeOf right)
  || negb (Bool.eqb (isArrayValue left) (isArrayValue right))
  || negb (Bool.eqb (isNull left) (isNull right)).

(** [left === right] on values that are not objects. *)
Definition strictEqual (left right : value) : bool :=
  match left, right with
  | VNull, VNull => true
  | VBool a, VBool b => Bool.eqb a b
  | VNum a, VNum b => number_eqb a b
  | VStr a, VStr b => a =? b
  | _, _ => false
  end.

Definition itemsOf (v : value) : list value :=
  match v with
  | VArr items => items
  | _ => []
  end.

Fixpoint assocGet {A : Type} (k : string) (l : list (string * A)) : option A :=
  match l with
  | [] => None
  | (k', a) :: rest => if k =? k' then Some a else assocGet k rest
  end.

(** [set.has(k)] *)
Definition setHas (set : list string) (k : string) : bool :=
  existsb (String.eqb k) set.

Section Diff.
(** [JSON.stringify(normalizeForSet(item))], which orders keys with
    [localeCompare]; it only matters when [ignoreOrder] is set. *)
Variable normalizedText : value -> string.
Variable ignoreOrder : bool.

Fixpoint diffValues (left right : value) (path : string) (changes : list change)
  {struct left} : list change :=
  if kindDiffers left right then
    changes ++ [TypeChange (orRoot path) (typeName left) (typeName right) left right]
  else
    match left with
    | VObj leftProps =>
        let rightProps := propsOf right in
        let leftKeys := setOf (map fst leftProps) in
        let rightKeys := setOf (map fst rightProps) in
        let changes :=
          fold_left
            (fun changes key =>
               match objGet key leftProps with
               | Some x => changes ++ [Removed (keyPrefix "." path key) x]
               | None => changes
               end)
            (sortKeys (filter (fun k => negb (setHas rightKeys k)) leftKeys))
            changes in
        let changes :=
          fold_left
            (fun changes key =>
               match objGet key rightProps with
               | Some y => changes ++ [Added (keyPrefix "." path key) y]
               | None => changes
               end)
            (sortKeys (filter (fun k => negb (setHas leftKeys k)) rightKeys))
            changes in
        let children :=
          map (fun entry => (fst entry, diffValues (snd entry))) leftProps in
        fold_left
          (fun changes key =>
             match assocGet key children, objGet key rightProps with
             | Some diffChild, Some y =>
                 diffChild y (keyPrefix "." path key) changes
             | _, _ => changes
             end)
          (sortKeys (filter (setHas rightKeys) leftKeys))
          changes
    | VArr leftItems =>
        let rightItems := itemsOf right in
        if ignoreOrder then
          let leftSet := setOf (map normalizedText leftItems) in
          let rightSet := setOf (map normalizedText rightItems) in
          let sameSize := Nat.eqb (List.length leftSet) (List.length rightSet) in
          let sameValues := forallb (setHas rightSet) leftSet in
          if negb sameSize || negb sameValues
          then changes ++ [ArraySetChange (orRoot path) left right]
          else changes
        else
          let minLen := Nat.min (List.length leftItems) (List.length rightItems) in
          let changes :=
            (fix pairs (ls rs : list value) (idx : nat) (changes : list change)
                 {struct ls} : list change :=
               match ls, rs with
               | l :: ls', r :: rs' =>
                   pairs ls' rs' (S idx)
                     (diffValues l r (indexPrefix path idx) changes)
               | _, _ => changes
               end) leftItems rightItems 0%nat changes in
          if (List.length rightItems <? List.length leftItems)%nat then
            forEachFrom
              (fun item idx changes =>
                 changes ++ [Removed (indexPrefix path idx) item])
              (skipn minLen leftItems) minLen changes
          else if (List.length leftItems <? List.length rightItems)%nat then
            forEachFrom
              (fun item idx changes =>
                 changes ++ [Added (indexPrefix path idx) item])
              (skipn minLen rightItems) minLen changes
          else changes
    | _ =>
        if negb (strictEqual left right)
        then changes ++ [Changed (orRoot path) left right]
        else changes
    end.
End Diff.

(** A step of the diff only adds entries at the end of [changes]. *)
Definition appending (f : list change -> list change) : Prop :=
  forall changes, f changes = changes ++ f [].

(** ** writeJsonStable *)

Definition newline : string := String (ascii_of_nat 10) EmptyString.

(** [JSON.stringify(value, null, 2)]; [indent] is the indentation of the
    line on which the value starts. *)
Fixpoint stringifyIndented (indent : string) (v : value) : string :=
  match v with
  | VArr items =>
      match items with
      | [] => "[]"
      | _ =>
          let inner := (indent ++ "  ")%string in
          ("[" ++ newline ++ inner
           ++ String.concat ("," ++ newline ++ inner)
                (map (stringifyIndented inner) items)
           ++ newline ++ indent ++ "]")%string
      end
  | VObj props =>
      match props with
      | [] => "{}"
      | _ =>
          let inner := (indent ++ "  ")%string in
          ("{" ++ newline ++ inner
           ++ String.concat ("," ++ newline ++ inner)
                (map (fun kv =>
                        (quote (fst kv) ++ ": "
                         ++ stringifyIndented inner (snd kv))%string)
                     props)
           ++ newline ++ indent ++ "}")%string
      end
  | _ => stringify v
  end.

(** The text [writeJsonStable] writes to the standard output. *)
Definition writeJsonStable (data : value) (compact : bool) : string :=
  let prepared := stableSortKeys data in
  if compact then (stringify prepared ++ newline)%string
  else (stringifyIndented "" prepared ++ newline)%string.

Definition writeJson (data : value) (compact : bool) : string :=
  writeJsonStable data compact.

(** ** The extract command (extract.mjs) *)

(** The loop over [fields] for one mapping [row]; [item] is the object
    under construction. *)
Definition extractFieldStep (row : value) (includeMissing : bool)
    (state : outcome object) (field : string) : outcome object :=
  item <- state ;;
  values <- extractValues row (PathString field) ;;
  match values with
  | [] => if includeMissing then Ok (objSet field VNull item) else Ok item
  | [v] => Ok (objSet field v item)
  | _ => Ok (objSet field (VArr values) item)
  end.

Definition extractFieldsRow (fields : list string) (includeMissing : bool)
    (row : value) : outcome value :=
  match row with
  | VObj _ =>
      item <- fold_left (extractFieldStep row includeMissing) fields
                (@Ok object []) ;;
      Ok (VObj item)
  | _ => Ok (VObj [("_value", row)])
  end.

Definition extractFields (rows : list value) (fields : list string)
    (includeMissing : bool) : outcome (list value) :=
  fold_left
    (fun state row =>
       output <- state ;;
       item <- extractFieldsRow fields includeMissing row ;;
       Ok (output ++ [item]))
    rows (Ok []).

(** The value [extractFields] stores for a field of a mapping row. *)
Definition fieldValue (includeMissing : bool) (values : list value) : option value :=
  match values with
  | [] => if includeMissing then Some VNull else None
  | [v] => Some v
  | _ => Some (VArr values)
  end.

(** ** The operations of extractValues that can raise

    The loop body of [extractValues] applies four operations that raise
    a [TypeError] on some value: reading a property ([item.length],
    [item[token]]), [Object.values] and [Object.hasOwn] raise on [null],
    and the spread [...item] raises on every value that is not iterable
    (arrays and strings are).  The tests [Array.isArray(item)],
    [typeof item], [token === "*"], [Number.isInteger(token)] and the
    comparisons raise on no value. *)
Inductive operation : Type :=
| ReadProperty
| ObjectValues
| ObjectHasOwn
| Spread.

Definition raises (op : operation) (item : value) : bool :=
  match op with
  | Spread =>
      match item with
      | VArr _ | VStr _ => false
      | _ => true
      end
  | ReadProperty | ObjectValues | ObjectHasOwn => isNull item
  end.

(** The loop body for one [token] and one [item], operation by
    operation: what [emit] pushes, unless an operation that is reached
    raises. *)
Definition emitChecked (tok : token) (item : value) : outcome (list value) :=
  match tok with
  | TStr key =>
      if key =? "*" then
        if isArrayValue item then
          (* nextValues.push(...item) *)
          if raises Spread item then Throw TypeError else Ok (emit tok item)
        else if isComposite item then
          (* nextValues.push(...Object.values(item)) *)
          if raises ObjectValues item then Throw TypeError
          else Ok (emit tok item)
        else Ok []
      else if isComposite item then
        (* Object.hasOwn(item, token), then item[token] *)
        if raises ObjectHasOwn item || raises ReadProperty item
        then Throw TypeError
        else Ok (emit tok item)
      else Ok []
  | TNum n =>
      if isArrayValue item then
        (* item.length, then item[token] *)
        if raises ReadProperty item then Throw TypeError
        else Ok (emit tok item)
      else Ok []
  end.

(** The inner loop over the working set. *)
Definition emitAllChecked (tok : token) (values : list value)
  : outcome (list value) :=
  fold_left
    (fun state item =>
       nextValues <- state ;;
       pushed <- emitChecked tok item ;;
       Ok (nextValues ++ pushed))
    values (Ok []).

Definition evalTokensChecked (tokens : list token) (values : list value)
  : outcome (list value) :=
  fold_left
    (fun state tok => values <- state ;; emitAllChecked tok values)
    tokens (Ok values).

(** [extractValues] with every operation of the loop body checked. *)
Definition extractValuesChecked (data : value) (path : path_arg)
  : outcome (list value) :=
  tokens <- parsePath path ;;
  match tokens with
  | [] => Ok [data]
  | _ => evalTokensChecked tokens [data]
  end.

(** * Properties *)

(** ** The working set *)

Lemma evalTokens_nil_values (tokens : list token) : evalTokens tokens [] = [].
Proof.
  induction tokens as [|tok rest IH]; [reflexivity | exact IH].
Qed.

Lemma evalTokens_cons (tok : token) (rest : list token) (values : list value) :
  evalTokens (tok :: rest) values = evalTokens rest (flat_map (emit tok) values).
Proof. reflexivity. Qed.

Lemma emit_scalar (tok : token) (v : value) :
  isComposite v = false -> emit tok v = [].
Proof.
  intros Hv. destruct tok as [key|n]; cbn.
  - destruct (key =? "*"); destruct v; try reflexivity; discriminate.
  - destruct v; try reflexivity; discriminate.
Qed.

Lemma parsePath_string_ok (s : string) :
  exists tokens, parsePath (PathString s) = Ok tokens.
Proof.
  unfold parsePath. destruct (isEmpty s); eauto.
Qed.

(** ** Negative indices (C1) *)

Lemma matchAll_bracket_minus (rest : string) :
  matchAll (String "[" (String "-" rest))
  = {| matched := String "-" (takeWhile keyChar rest);
       group1 := Some (String "-" (takeWhile keyChar rest));
       group3 := None |}
    :: scanFrom (String.length (takeWhile keyChar rest)) rest.
Proof.
  unfold matchAll. cbn [scanFrom].
  replace (matchAt (String "[" (String "-" rest))) with (@None re_match)
    by reflexivity.
  replace (matchAt (String "-" rest))
    with (Some {| matched := String "-" (takeWhile keyChar rest);
                  group1 := Some (String "-" (takeWhile keyChar rest));
                  group3 := None |})
    by reflexivity.
  cbn [matched String.length Nat.sub]. rewrite Nat.sub_0_r. reflexivity.
Qed.

Lemma emit_signed_key_on_array (run : string) (items : list value) :
  emit (TStr (String "-" run)) (VArr items) = [].
Proof. reflexivity. Qed.

(** C1 (the code departs from the claim): a bracket holding a minus sign
    is not an index token; the scan passes over the bracket and reads the
    signed numeral as a key, which no array owns.  Every path that starts
    with "[-" therefore selects nothing from an array, and in particular
    [extractValues([10,20,30], "[-1]")] is empty, not [[30]]. *)
Theorem extractValues_negative_index_selects_nothing :
  (forall items rest,
      extractValues (VArr items) (PathString (String "[" (String "-" rest))) = Ok [])
  /\ parsePath (PathString "[-1]") = Ok [TStr "-1"]
  /\ extractValues doc_10_20_30 (PathString "[-1]") = Ok []
  /\ extractValues doc_10_20_30 (PathString "[-4]") = Ok [].
Proof.
  split; [| repeat split; reflexivity].
  intros items rest.
  unfold extractValues, parsePath.
  rewrite matchAll_bracket_minus. cbn [isEmpty flat_map tokenOfMatch group1 bind app].
  rewrite evalTokens_cons. cbn [flat_map app].
  rewrite emit_signed_key_on_array. apply f_equal, evalTokens_nil_values.
Qed.

(** ** Key tokens on arrays (C2) *)

(** C2 (the code departs from the claim): the key branch tests
    [typeof item === "object"], which holds for arrays, so a key token
    that names an own property of an array (an index or [length]) selects
    it: [extractValues([10,20], "0")] is [[10]], not empty. *)
Theorem extractValues_key_token_reads_array :
  extractValues doc_10_20 (PathString "0") = Ok [vint 10]
  /\ extractValues doc_10_20 (PathString "length") = Ok [vint 2]
  /\ (forall first rest,
        extractValues (VArr (first :: rest)) (PathString "0") = Ok [first]).
Proof.
  repeat split; reflexivity.
Qed.

(** ** resolveArray (C4, C10) *)

(** C4 (counterexample): the result is not the empty sequence. *)
Lemma resolveArray_mapping_result_not_empty :
  resolveArray doc_a_b (PathString "a") <> Ok [].
Proof. vm_compute. discriminate. Qed.

(** C4 (amended): [resolveArray({"a":{"x":1},"b":{"y":2}}, "a")] returns
    [[1]]: the path resolves only to the mapping [{"x":1}], no result is
    an array, and the object fallback returns that mapping's values. *)
Theorem resolveArray_mapping_result_falls_back_to_values :
  extractValues doc_a_b (PathString "a") = Ok [VObj [("x", vint 1)]]
  /\ resolveArray doc_a_b (PathString "a") = Ok [vint 1].
Proof. split; reflexivity. Qed.

(** C10: an empty-string path is falsy, so [resolveArray] takes the
    branch of an absent path: the document itself when it is an array and
    the empty sequence otherwise, although the empty path expression
    resolves to the whole document. *)
Theorem resolveArray_empty_string_path (data : value) :
  resolveArray data (PathString "") = resolveArray data PathAbsent
  /\ resolveArray data (PathString "")
     = Ok (match data with
           | VArr items => items
           | _ => []
           end)
  /\ extractValues data (PathString "") = Ok [data]
  /\ (forall props, resolveArray (VObj props) (PathString "") = Ok []).
Proof.
  repeat split; try reflexivity.
  destruct data; reflexivity.
Qed.

(** ** Scalar normalisation (C9) *)

(** C9: values of different type tags can share a normalised key, and
    [frequency] then counts them in one bucket. *)
Theorem frequency_merges_values_across_type_tags :
  (typeName (VBool true) <> typeName (VStr "True")
   /\ stableKey (VBool true) = stableKey (VStr "True")
   /\ frequency [VBool true; VStr "True"] = [("True", 2%nat)])
  /\ (typeName (vint 1) <> typeName (VStr "1")
      /\ stableKey (vint 1) = stableKey (VStr "1")
      /\ frequency [vint 1; VStr "1"] = [("1", 2%nat)])
  /\ (typeName VNull <> typeName (VStr "None")
      /\ stableKey VNull = stableKey (VStr "None")
      /\ frequency [VNull; VStr "None"] = [("None", 2%nat)]).
Proof.
  repeat split; try reflexivity; vm_compute; discriminate.
Qed.

(** ** parsePath never fails (C3) *)

Lemma string_app_assoc (a b c : string) :
  ((a ++ b) ++ c = a ++ (b ++ c))%string.
Proof.
  induction a as [|x a IH]; cbn; [reflexivity | now rewrite IH].
Qed.

Lemma string_app_length (a b : string) :
  String.length (a ++ b) = (String.length a + String.length b)%nat.
Proof.
  induction a as [|x a IH]; cbn; [reflexivity | now rewrite IH].
Qed.

Lemma keepChars_app (p : ascii -> bool) (a b : string) :
  keepChars p (a ++ b) = (keepChars p a ++ keepChars p b)%string.
Proof.
  induction a as [|c a IH]; cbn; [reflexivity|].
  destruct (p c); cbn; now rewrite IH.
Qed.

Lemma takeWhile_dropChars (p : ascii -> bool) (s : string) :
  s = (takeWhile p s ++ dropChars (String.length (takeWhile p s)) s)%string.
Proof.
  induction s as [|c s IH]; cbn; [reflexivity|].
  destruct (p c); cbn; [now rewrite <- IH | reflexivity].
Qed.

Lemma scanFrom_skip (m rest : string) :
  scanFrom (String.length m) (m ++ rest) = scanFrom 0 rest.
Proof.
  induction m as [|c m IH]; cbn; [reflexivity | exact IH].
Qed.

Lemma matchKey_prefix (s : string) (m : re_match) :
  matchKey s = Some m ->
  exists c run rest, matched m = String c run /\ s = (matched m ++ rest)%string.
Proof.
  unfold matchKey. destruct (takeWhile keyChar s) as [|c run] eqn:Hrun; cbn.
  - discriminate.
  - intros [= <-]. exists c, run, (dropChars (String.length (String c run)) s).
    split; [reflexivity|]. cbn [matched]. rewrite <- Hrun.
    apply takeWhile_dropChars.
Qed.

Lemma matchBracket_prefix (s : string) (m : re_match) :
  matchBracket s = Some m ->
  exists c run rest, matched m = String c run /\ s = (matched m ++ rest)%string.
Proof.
  unfold matchBracket.
  destruct s as [|c0 s]; [discriminate|].
  destruct (Ascii.eqb_spec c0 "["%char) as [->|Hc];
    [| destruct c0 as [[] [] [] [] [] [] [] []]; try discriminate; congruence].
  assert (Hdigits :
    (let digits := takeWhile isDigit s in
     if isEmpty digits then None
     else match dropChars (String.length digits) s with
          | String "]"%char _ =>
              Some {| matched := "[" ++ digits ++ "]";
                      group1 := None; group3 := Some digits |}
          | _ => None
          end) = Some m ->
    exists c run rest,
      matched m = String c run /\ String "[" s = (matched m ++ rest)%string).
  { cbn zeta. destruct (isEmpty (takeWhile isDigit s)); [discriminate|].
    destruct (dropChars (String.length (takeWhile isDigit s)) s)
      as [|c1 tail] eqn:Hdrop; [discriminate|].
    destruct (Ascii.eqb_spec c1 "]"%char) as [->|Hc1];
      [| destruct c1 as [[] [] [] [] [] [] [] []]; try discriminate; congruence].
    intros [= <-]. cbn [matched].
    exists "["%char, (takeWhile isDigit s ++ "]")%string, tail.
    split; [reflexivity|]. cbn. f_equal.
    rewrite string_app_assoc. cbn. rewrite <- Hdrop.
    apply takeWhile_dropChars. }
  destruct s as [|c1 s1]; [exact Hdigits|].
  destruct (Ascii.eqb_spec c1 "*"%char) as [->|Hc1].
  - destruct s1 as [|c2 s2]; [exact Hdigits|].
    destruct (Ascii.eqb_spec c2 "]"%char) as [->|Hc2].
    + intros [= <-]. cbn. exists "["%char, "*]", s2. split; reflexivity.
    + destruct c2 as [[] [] [] [] [] [] [] []]; try exact Hdigits; congruence.
  - destruct c1 as [[] [] [] [] [] [] [] []]; try exact Hdigits; congruence.
Qed.

Lemma matchAt_prefix (s : string) (m : re_match) :
  matchAt s = Some m ->
  exists c run rest, matched m = String c run /\ s = (matched m ++ rest)%string.
Proof.
  unfold matchAt. destruct (matchKey s) as [m'|] eqn:Hkey.
  - intros [= <-]. now apply matchKey_prefix.
  - apply matchBracket_prefix.
Qed.

Lemma matchAt_none_head (c : ascii) (rest : string) :
  matchAt (String c rest) = None -> keyChar c = false.
Proof.
  unfold matchAt, matchKey. cbn [takeWhile].
  destruct (keyChar c); [discriminate | reflexivity].
Qed.

Lemma scan_keeps_key_chars (s : string) :
  keepChars keyChar (matchedText (matchAll s)) = keepChars keyChar s.
Proof.
  unfold matchAll.
  remember (String.length s) as n eqn:Hn.
  revert s Hn. induction n as [n IH] using lt_wf_ind. intros s Hn.
  destruct s as [|c s]; [reflexivity|].
  cbn [scanFrom].
  destruct (matchAt (String c s)) as [m|] eqn:Hm.
  - destruct (matchAt_prefix _ _ Hm) as (c' & run & rest & Hmatched & Hs).
    rewrite Hmatched in Hs. cbn in Hs. injection Hs as <- ->.
    rewrite Hmatched. cbn [String.length Nat.sub]. rewrite Nat.sub_0_r.
    rewrite scanFrom_skip. cbn [matchedText fold_right].
    rewrite Hmatched.
    change (String c run ++ fold_right (fun m0 acc => matched m0 ++ acc) "" (scanFrom 0 rest))%string
      with (String c run ++ matchedText (scanFrom 0 rest))%string.
    change (String c (run ++ rest)) with (String c run ++ rest)%string.
    rewrite !keepChars_app. f_equal.
    apply (IH (String.length rest)); [| reflexivity].
    subst n. cbn. rewrite string_app_length. lia.
  - cbn [keepChars]. rewrite (matchAt_none_head _ _ Hm).
    apply (IH (String.length s)); [subst n; cbn; lia | reflexivity].
Qed.

(** C3 (counterexample): the unterminated bracket of ["a[1"] raises no
    parse failure; the bracket is passed over and two key tokens remain. *)
Lemma parsePath_unterminated_bracket_is_not_reported :
  parsePath (PathString "a[1") = Ok [TStr "a"; TStr "1"]
  /\ ~ (exists e, parsePath (PathString "a[1") = Throw e).
Proof.
  split; [reflexivity|]. intros [e He]. discriminate He.
Qed.

(** C3 (amended): [parsePath] is total and never reports a parse failure:
    every input string yields a token sequence.  The scan keeps every
    character other than a dot or a bracket inside some match and passes
    silently over dots and brackets that belong to no bracket token, so a
    malformed token such as the unterminated bracket of ["a[1"] degrades
    to the key tokens ["a"] and ["1"]. *)
Theorem parsePath_total_and_lenient (s : string) :
  (exists tokens, parsePath (PathString s) = Ok tokens)
  /\ keepChars keyChar (matchedText (matchAll s)) = keepChars keyChar s
  /\ parsePath (PathString "a[1") = Ok [TStr "a"; TStr "1"].
Proof.
  split; [apply parsePath_string_ok|].
  split; [apply scan_keeps_key_chars | reflexivity].
Qed.

(** ** extractValues does not raise on string paths (C6) *)

Lemma flat_map_nothing {A B : Type} (f : A -> list B) (l : list A) :
  (forall x, In x l -> f x = []) -> flat_map f l = [].
Proof.
  induction l as [|x rest IH]; intros H; cbn; [reflexivity|].
  rewrite (H x (or_introl eq_refl)). cbn. apply IH.
  intros y Hy. apply H. now right.
Qed.

Lemma evalTokens_split (before after : list token) (tok : token)
    (values : list value) :
  evalTokens (before ++ tok :: after) values
  = evalTokens after (flat_map (emit tok) (evalTokens before values)).
Proof.
  unfold evalTokens. rewrite fold_left_app. reflexivity.
Qed.

Lemma extractValues_no_match (data : value) (s : string)
    (before after : list token) (tok : token) :
  parsePath (PathString s) = Ok (before ++ tok :: after) ->
  (forall v, In v (evalTokens before [data]) -> emit tok v = []) ->
  extractValues data (PathString s) = Ok [].
Proof.
  intros Hpath Hnone. unfold extractValues. rewrite Hpath. cbn [bind].
  rewrite evalTokens_split, (flat_map_nothing _ _ Hnone), evalTokens_nil_values.
  destruct before; reflexivity.
Qed.

Lemma flat_map_nothing_inv {A B : Type} (f : A -> list B) (l : list A) :
  flat_map f l = [] -> forall x, In x l -> f x = [].
Proof.
  induction l as [|y rest IH]; cbn; intros H x Hx; [contradiction|].
  apply app_eq_nil in H. destruct H as [Hy Hrest].
  destruct Hx as [<-|Hx]; [exact Hy | now apply IH].
Qed.

Lemma evalTokens_empty_split (tokens : list token) (values : list value) :
  values <> [] -> evalTokens tokens values = [] ->
  exists before tok after,
    tokens = before ++ tok :: after
    /\ forall v, In v (evalTokens before values) -> emit tok v = [].
Proof.
  revert values. induction tokens as [|t rest IH]; intros values Hne Hempty.
  - cbn in Hempty. contradiction.
  - rewrite evalTokens_cons in Hempty.
    destruct (flat_map (emit t) values) as [|x next] eqn:Hnext.
    + exists [], t, rest. split; [reflexivity|].
      cbn. now apply flat_map_nothing_inv.
    + destruct (IH (x :: next)) as (before & tok & after & -> & Hnone);
        [discriminate | exact Hempty |].
      exists (t :: before), tok, after. split; [reflexivity|].
      intros v Hv. apply Hnone.
      rewrite evalTokens_cons, Hnext in Hv. exact Hv.
Qed.

Lemma extractValues_empty_split (data : value) (s : string) :
  extractValues data (PathString s) = Ok [] ->
  exists before tok after,
    parsePath (PathString s) = Ok (before ++ tok :: after)
    /\ forall v, In v (evalTokens before [data]) -> emit tok v = [].
Proof.
  unfold extractValues. destruct (parsePath_string_ok s) as [tokens ->].
  cbn [bind]. intros H.
  destruct tokens as [|t rest]; [discriminate|].
  injection H as H.
  destruct (evalTokens_empty_split (t :: rest) [data]) as
    (before & tok & after & Heq & Hnone); [discriminate | exact H |].
  exists before, tok, after. now rewrite Heq.
Qed.

Lemma emit_missing_key (key : string) (props : object) :
  (key =? "*") = false -> objGet key props = None ->
  emit (TStr key) (VObj props) = [].
Proof.
  intros Hkey Hget. cbn. now rewrite Hkey, Hget.
Qed.

Lemma emit_index_out_of_range (n : N) (items : list value) :
  (List.length items <= N.to_nat n)%nat -> emit (TNum n) (VArr items) = [].
Proof.
  intros Hlen. cbn.
  replace (Z.of_N n <? Z.of_nat (List.length items))%Z with false
    by (symmetry; apply Z.ltb_ge; lia).
  now rewrite andb_false_r.
Qed.

Lemma emitChecked_emit (tok : token) (item : value) :
  emitChecked tok item = Ok (emit tok item).
Proof.
  destruct tok as [key | n]; cbn [emitChecked].
  - destruct (key =? "*") eqn:Hstar;
      destruct item; cbn; rewrite ?Hstar; reflexivity.
  - destruct item; reflexivity.
Qed.

Lemma emitAllChecked_flat_map (tok : token) (values : list value) :
  emitAllChecked tok values = Ok (flat_map (emit tok) values).
Proof.
  unfold emitAllChecked.
  assert (H : forall nextValues,
            fold_left
              (fun state item =>
                 nextValues <- state ;;
                 pushed <- emitChecked tok item ;;
                 Ok (nextValues ++ pushed))
              values (Ok nextValues)
            = Ok (nextValues ++ flat_map (emit tok) values)).
  { induction values as [|item rest IH]; intros nextValues; cbn [fold_left flat_map].
    - now rewrite app_nil_r.
    - cbn [bind]. rewrite emitChecked_emit. cbn [bind].
      rewrite IH. now rewrite <- app_assoc. }
  apply (H []).
Qed.

Lemma evalTokensChecked_evalTokens (tokens : list token) (values : list value) :
  evalTokensChecked tokens values = Ok (evalTokens tokens values).
Proof.
  unfold evalTokensChecked, evalTokens. revert values.
  induction tokens as [|tok rest IH]; intros values; [reflexivity|].
  cbn [fold_left bind]. rewrite emitAllChecked_flat_map. apply IH.
Qed.

Lemma extractValuesChecked_extractValues (data : value) (path : path_arg) :
  extractValuesChecked data path = extractValues data path.
Proof.
  unfold extractValuesChecked, extractValues.
  destruct (parsePath path) as [tokens | e]; [| reflexivity]. cbn [bind].
  destruct tokens as [|tok rest]; [reflexivity|].
  apply evalTokensChecked_evalTokens.
Qed.

(** C6 (counterexample): an already-parsed token sequence is an array,
    which has no [matchAll] method; [parsePath] raises on it and
    [extractValues] returns nothing. *)
Lemma extractValues_token_sequence_throws :
  (exists e, extractValues doc_a_b (PathTokens [TStr "a"]) = Throw e)
  /\ ~ (exists values, extractValues doc_a_b (PathTokens [TStr "a"]) = Ok values).
Proof.
  split; [now exists TypeError|]. intros [values H]. discriminate H.
Qed.

(** C6 (amended): for every document and every path argument that is a
    raw path string or absent, [extractValues] completes normally (an
    absent path yields the document itself): no operation of the loop
    body that is reached raises, because each is applied behind a test
    that excludes the values on which it raises.  Absence of a match
    yields the empty result, not an error: for a path whose bracket
    indices are below 2^53, the result is empty exactly when, at some
    token of the path, no value of the working set reached so far matches
    the token.  A value matches nothing when the token is a key missing
    from a mapping, an index at or above the length of an array, an index
    below 2^53 applied to a mapping, or any token, the wildcard included,
    applied to a value that is neither an array nor a mapping.  (A token
    sequence is not accepted as the path argument.) *)
Theorem extractValues_string_path_never_throws (data : value) (s : string) :
  (exists values,
     extractValuesChecked data (PathString s) = Ok values
     /\ extractValues data (PathString s) = Ok values)
  /\ extractValuesChecked data PathAbsent = Ok [data]
  /\ extractValues data PathAbsent = Ok [data]
  /\ (forall tokens,
        parsePath (PathString s) = Ok tokens ->
        forallb exactToken tokens = true ->
        (extractValues data (PathString s) = Ok []
         <-> exists before tok after,
               tokens = before ++ tok :: after
               /\ forall v, In v (evalTokens before [data]) -> emit tok v = []))
  /\ (forall key props,
        (key =? "*") = false -> objGet key props = None ->
        emit (TStr key) (VObj props) = [])
  /\ (forall n items,
        (List.length items <= N.to_nat n)%nat -> emit (TNum n) (VArr items) = [])
  /\ (forall n props, exactIndex n = true -> emit (TNum n) (VObj props) = [])
  /\ (forall tok v, isComposite v = false -> emit tok v = [])
  /\ (forall tok v, emitChecked tok v = Ok (emit tok v)).
Proof.
  split.
  { rewrite extractValuesChecked_extractValues.
    unfold extractValues. destruct (parsePath_string_ok s) as [tokens ->].
    cbn. destruct tokens; eauto. }
  split; [reflexivity|].
  split; [reflexivity|].
  split.
  { intros tokens Hpath _. split.
    - intros Hempty.
      destruct (extractValues_empty_split _ _ Hempty) as
        (before & tok & after & Hsplit & Hnone).
      exists before, tok, after. split; [congruence | exact Hnone].
    - intros (before & tok & after & Hsplit & Hnone). subst tokens.
      exact (extractValues_no_match _ _ _ _ _ Hpath Hnone). }
  split; [apply emit_missing_key|].
  split; [apply emit_index_out_of_range|].
  split; [reflexivity|].
  split; [apply emit_scalar | apply emitChecked_emit].
Qed.

Lemma extractValues_string_path_never_throws_witness :
  extractValues (VObj [("id", vint 7); ("tags", VArr [VStr "x"])])
    (PathString "name.first") = Ok []
  /\ extractValues (VObj [("id", vint 7); ("tags", VArr [VStr "x"])])
       (PathString "tags[3]") = Ok [].
Proof.
  split.
  - apply (proj2 (proj1 (proj2 (proj2 (proj2
      (extractValues_string_path_never_throws
         (VObj [("id", vint 7); ("tags", VArr [VStr "x"])]) "name.first"))))
      [TStr "name"; TStr "first"] eq_refl eq_refl)).
    exists [], (TStr "name"), [TStr "first"]. split.
    + reflexivity.
    + intros v [<-|[]].
      apply (proj1 (proj2 (proj2 (proj2 (proj2
        (extractValues_string_path_never_throws VNull ""))))));
      reflexivity.
  - apply (proj2 (proj1 (proj2 (proj2 (proj2
      (extractValues_string_path_never_throws
         (VObj [("id", vint 7); ("tags", VArr [VStr "x"])]) "tags[3]"))))
      [TStr "tags"; TNum 3] eq_refl eq_refl)).
    exists [TStr "tags"], (TNum 3), []. split.
    + reflexivity.
    + intros v [<-|[]].
      apply (proj1 (proj2 (proj2 (proj2 (proj2 (proj2
        (extractValues_string_path_never_throws VNull "")))))));
      cbn; lia.
Defined.

(** ** The flattener (C5, C7) *)

Lemma forEachFrom_fixed_prefix {A St : Type} (g : A -> St -> St)
    (items : list A) (idx : nat) (state : St) :
  forEachFrom (fun inner _ st => g inner st) items idx state
  = fold_left (fun st inner => g inner st) items state.
Proof.
  revert idx state. induction items as [|x rest IH]; intros idx state; cbn.
  - reflexivity.
  - apply IH.
Qed.

Lemma existsb_composite_not_allScalars (items : list value) :
  existsb isComposite items = true -> allScalars items = false.
Proof.
  unfold allScalars. induction items as [|x rest IH]; cbn; [discriminate|].
  destruct (isComposite x); cbn; [reflexivity | exact IH].
Qed.

Lemma existsb_true_length {A : Type} (p : A -> bool) (items : list A) :
  existsb p items = true -> Nat.eqb (List.length items) 0 = false.
Proof. destruct items; [discriminate | reflexivity]. Qed.

(** In any mode other than ignore and expand a non-empty array is
    expanded index by index, as the specification words it. *)
Lemma walk_index_mode_is_per_index (separator arrayMode prefix : string)
    (first : value) (rest : list value) (output : object) :
  (arrayMode =? "ignore") = false ->
  (arrayMode =? "expand") = false ->
  walk separator arrayMode (VArr (first :: rest)) prefix output
  = perIndexExpansion separator arrayMode (first :: rest) prefix output.
Proof.
  intros Hignore Hexpand. unfold perIndexExpansion.
  cbn [walk]. rewrite Hignore, Hexpand. reflexivity.
Qed.

(** C5 (counterexample): under mode expand the array of [{"a":[{"x":1}]}]
    is expanded without an index in the key, unlike per-index expansion
    and unlike mode index. *)
Lemma flatten_expand_is_not_per_index_expansion :
  flattenJson doc_a_rows "." "expand" = [("a.x", vint 1)]
  /\ flattenJson doc_a_rows "." "index" = [("a[0].x", vint 1)]
  /\ walk "." "expand" (VArr [VObj [("x", vint 1)]]) "a" []
     <> perIndexExpansion "." "expand" [VObj [("x", vint 1)]] "a" [].
Proof.
  split; [reflexivity|]. split; [reflexivity|].
  vm_compute. discriminate.
Qed.

(** C5 (amended): with arrayMode "expand", every array that contains at
    least one composite element is expanded element by element, but the
    prefix is not extended by "[i]": each element is walked under the
    accumulated prefix itself, so that [{"a":[{"x":1}]}] flattens to
    [{"a.x":1}]. *)
Theorem flatten_expand_composite_array_keeps_prefix
    (separator prefix : string) (items : list value) (output : object)
    (Hcomposite : existsb isComposite items = true) :
  walk separator "expand" (VArr items) prefix output
  = fold_left (fun out inner => walk separator "expand" inner prefix out)
      items output
  /\ flattenJson doc_a_rows "." "expand" = [("a.x", vint 1)].
Proof.
  split; [| reflexivity].
  cbn [walk].
  replace (String.eqb "expand" "ignore") with false by reflexivity.
  replace (String.eqb "expand" "expand") with true by reflexivity.
  rewrite (existsb_composite_not_allScalars _ Hcomposite).
  rewrite (existsb_true_length _ _ Hcomposite).
  cbn [andb]. unfold forEach.
  apply (forEachFrom_fixed_prefix
           (fun inner out => walk separator "expand" inner prefix out)).
Qed.

Lemma flatten_expand_composite_array_keeps_prefix_witness :
  walk "." "expand" (VArr [vint 7; VObj [("x", vint 1)]]) "a" []
  = fold_left (fun out inner => walk "." "expand" inner "a" out)
      [vint 7; VObj [("x", vint 1)]] [].
Proof.
  apply (flatten_expand_composite_array_keeps_prefix "." "a"
           [vint 7; VObj [("x", vint 1)]] []).
  reflexivity.
Defined.

Lemma assignAll_app (a b : list (string * value)) (output : object) :
  assignAll (a ++ b) output = assignAll b (assignAll a output).
Proof. unfold assignAll. apply fold_left_app. Qed.

Lemma walk_assigns_terminalNodes (separator arrayMode : string) (v : value) :
  forall prefix output,
    walk separator arrayMode v prefix output
    = assignAll (terminalNodes separator arrayMode v prefix) output.
Proof.
  induction v as [| b | n | s | items IH | props IH] using value_nested_ind;
    intros prefix output; try reflexivity.
  - cbn [walk terminalNodes].
    destruct (arrayMode =? "ignore"); [reflexivity|].
    destruct ((arrayMode =? "expand") && allScalars items); [reflexivity|].
    rewrite assignAll_app.
    assert (Hloop : forall idx out,
      forEachFrom
        (fun inner idx0 out0 =>
           walk separator arrayMode inner
             (if arrayMode =? "expand" then prefix else indexPrefix prefix idx0)
             out0) items idx out
      = assignAll
          (flatMapFrom
             (fun inner idx0 =>
                terminalNodes separator arrayMode inner
                  (if arrayMode =? "expand" then prefix
                   else indexPrefix prefix idx0)) items idx) out).
    { induction IH as [|x rest Hx _ IHrest]; intros idx out; cbn.
      - reflexivity.
      - rewrite assignAll_app, <- Hx. apply IHrest. }
    unfold forEach. rewrite Hloop.
    destruct (Nat.eqb (List.length items) 0 && truthy prefix); reflexivity.
  - cbn [walk terminalNodes].
    destruct (Nat.eqb (List.length props) 0 && truthy prefix); [reflexivity|].
    revert output. induction IH as [|entry rest Hentry _ IHrest]; intros output; cbn.
    + reflexivity.
    + rewrite assignAll_app, <- Hentry. apply IHrest.
Qed.

(** C7 (counterexample): the empty mapping at the top level leaves no
    entry, and two terminal nodes that arrive at one key leave one
    entry. *)
Lemma flatten_top_level_empty_mapping_is_dropped :
  flattenJson (VObj []) "." "index" = []
  /\ objGet "" (flattenJson (VObj []) "." "index") = None
  /\ flattenJson (VObj [("a", VArr [VObj [("x", vint 1)]; VObj [("x", vint 2)]])])
       "." "expand"
     = [("a.x", vint 2)].
Proof. repeat split; reflexivity. Qed.

(** C7 (amended): for every value, separator and array mode, [flatten]
    performs exactly one assignment [output[p] = node] per terminal node
    reached, under the prefix [p] the node is reached with, so no node
    contributes to two keys (nodes that arrive at the same key overwrite
    one another).  A scalar yields [p -> value], also at the top level.
    An empty mapping reached under a non-empty prefix yields [p -> {}]
    and an empty array [p -> []]; at the top level (empty prefix) an
    empty mapping yields no entry, and an empty array yields no entry
    unless the mode is ignore or expand. *)
Theorem flatten_one_assignment_per_terminal_node
    (separator arrayMode prefix : string) (output : object) :
  (forall v,
      walk separator arrayMode v prefix output
      = assignAll (terminalNodes separator arrayMode v prefix) output)
  /\ (forall v, isComposite v = false ->
        terminalNodes separator arrayMode v prefix = [(prefix, v)]
        /\ walk separator arrayMode v prefix output = objSet prefix v output
        /\ flattenJson v separator arrayMode = [("", v)])
  /\ walk separator arrayMode (VObj []) prefix output
     = (if truthy prefix then objSet prefix (VObj []) output else output)
  /\ walk separator arrayMode (VArr []) prefix output
     = (if (arrayMode =? "ignore") || (arrayMode =? "expand") || truthy prefix
        then objSet prefix (VArr []) output
        else output)
  /\ flattenJson (VObj []) separator arrayMode = []
  /\ flattenJson (VArr []) separator arrayMode
     = (if (arrayMode =? "ignore") || (arrayMode =? "expand")
        then [("", VArr [])]
        else []).
Proof.
  split; [intros v; apply walk_assigns_terminalNodes|].
  split.
  { intros v Hv. destruct v; try discriminate; repeat split; reflexivity. }
  split; [reflexivity|].
  split.
  { cbn [walk]. destruct (arrayMode =? "ignore"); [reflexivity|].
    destruct (arrayMode =? "expand"); reflexivity. }
  split; [reflexivity|].
  unfold flattenJson. cbn [walk].
  destruct (arrayMode =? "ignore"); [reflexivity|].
  destruct (arrayMode =? "expand"); reflexivity.
Qed.

Lemma flatten_one_assignment_per_terminal_node_witness :
  walk "." "index" (VStr "leaf") "a.b" [] = objSet "a.b" (VStr "leaf") [].
Proof.
  apply (flatten_one_assignment_per_terminal_node "." "index" "a.b" []).
  reflexivity.
Defined.

(** ** The stable key (C8) *)

Lemma ascii_compare_trans_le (a b c : ascii) :
  Ascii.compare a b <> Gt -> Ascii.compare b c <> Gt -> Ascii.compare a c <> Gt.
Proof.
  unfold Ascii.compare. rewrite !N.compare_le_iff. apply N.le_trans.
Qed.

Lemma ascii_compare_eq (a b : ascii) : Ascii.compare a b = Eq -> a = b.
Proof.
  unfold Ascii.compare. rewrite N.compare_eq_iff. intros H.
  rewrite <- (ascii_N_embedding a), <- (ascii_N_embedding b). now rewrite H.
Qed.

Lemma ascii_compare_lt_trans (a b c : ascii) :
  Ascii.compare a b = Lt -> Ascii.compare b c = Lt -> Ascii.compare a c = Lt.
Proof.
  unfold Ascii.compare. rewrite !N.compare_lt_iff. apply N.lt_trans.
Qed.

Lemma string_leb_trans (a b c : string) :
  (a <=? b)%string = true -> (b <=? c)%string = true -> (a <=? c)%string = true.
Proof.
  unfold String.leb.
  revert b c. induction a as [|x a IH]; intros [|y b] [|z c]; cbn;
    try reflexivity; try discriminate.
  destruct (Ascii.compare x y) eqn:Hxy; try discriminate;
    destruct (Ascii.compare y z) eqn:Hyz; try discriminate; intros H1 H2.
  - apply ascii_compare_eq in Hxy, Hyz. subst.
    replace (Ascii.compare z z) with Eq
      by (symmetry; unfold Ascii.compare; apply N.compare_refl).
    now apply (IH b c).
  - apply ascii_compare_eq in Hxy. subst. now rewrite Hyz.
  - apply ascii_compare_eq in Hyz. subst. now rewrite Hxy.
  - now rewrite (ascii_compare_lt_trans _ _ _ Hxy Hyz).
Qed.

Lemma insertKey_swap (a b : string) (l : list string) :
  insertKey a (insertKey b l) = insertKey b (insertKey a l).
Proof.
  induction l as [|h t IH]; cbn.
  - destruct (a <=? b)%string eqn:Hab, (b <=? a)%string eqn:Hba; try reflexivity.
    + now rewrite (String.leb_antisym _ _ Hab Hba).
    + destruct (String.leb_total a b); congruence.
  - destruct (a <=? h)%string eqn:Hah, (b <=? h)%string eqn:Hbh; cbn.
    + destruct (a <=? b)%string eqn:Hab, (b <=? a)%string eqn:Hba;
        rewrite ?Hah, ?Hbh; try reflexivity.
      * now rewrite (String.leb_antisym _ _ Hab Hba).
      * destruct (String.leb_total a b); congruence.
    + rewrite Hah.
      destruct (b <=? a)%string eqn:Hba.
      * rewrite (string_leb_trans _ _ _ Hba Hah) in Hbh. discriminate.
      * now rewrite Hbh.
    + rewrite Hbh.
      destruct (a <=? b)%string eqn:Hab.
      * rewrite (string_leb_trans _ _ _ Hab Hbh) in Hah. discriminate.
      * now rewrite Hah.
    + now rewrite Hah, Hbh, IH.
Qed.

Lemma sortKeys_permutation (l1 l2 : list string) :
  Permutation l1 l2 -> sortKeys l1 = sortKeys l2.
Proof.
  unfold sortKeys.
  induction 1 as [| x l l' _ IH | x y l | l l' l'' _ IH1 _ IH2];
    cbn [fold_right].
  - reflexivity.
  - now rewrite IH.
  - apply insertKey_swap.
  - now rewrite IH1.
Qed.

Lemma insertKey_In (k x : string) (l : list string) :
  In k (insertKey x l) <-> k = x \/ In k l.
Proof.
  induction l as [|h t IH]; cbn.
  - intuition congruence.
  - destruct (x <=? h)%string; cbn; rewrite ?IH; intuition congruence.
Qed.

Lemma sortKeys_In (k : string) (l : list string) :
  In k (sortKeys l) <-> In k l.
Proof.
  unfold sortKeys. induction l as [|h t IH]; cbn [fold_right In]; [tauto|].
  rewrite insertKey_In, IH. intuition congruence.
Qed.

Lemma distinctKeys_NoDup (keys : list string) :
  distinctKeys keys = true -> NoDup keys.
Proof.
  induction keys as [|k rest IH]; cbn; [constructor|].
  rewrite andb_true_iff, negb_true_iff. intros [Hk Hrest].
  constructor; [| now apply IH].
  intros Hin. apply Bool.not_true_iff_false in Hk. apply Hk.
  apply existsb_exists. exists k. split; [assumption | apply String.eqb_refl].
Qed.

Lemma objGet_In (k : string) (o : object) (x : value) :
  objGet k o = Some x -> In (k, x) o.
Proof.
  induction o as [|[k' v] rest IH]; cbn; [discriminate|].
  destruct (String.eqb_spec k k') as [->|Hne].
  - intros [= ->]. now left.
  - intros H. right. now apply IH.
Qed.

Lemma objGet_key_In (k : string) (o : object) (x : value) :
  objGet k o = Some x -> In k (map fst o).
Proof.
  intros H. apply objGet_In in H. now apply (in_map fst) in H.
Qed.

Lemma In_key_objGet (k : string) (o : object) :
  In k (map fst o) -> exists x, objGet k o = Some x.
Proof.
  induction o as [|[k' v] rest IH]; cbn; [tauto|].
  destruct (String.eqb_spec k k') as [->|Hne]; [eauto|].
  intros [Heq | Hin]; [congruence | now apply IH].
Qed.

Lemma objGet_map_values (f : value -> value) (k : string) (o : object) :
  objGet k (map (fun entry => (fst entry, f (snd entry))) o)
  = option_map f (objGet k o).
Proof.
  induction o as [|[k' v] rest IH]; cbn; [reflexivity|].
  destruct (k =? k'); [reflexivity | exact IH].
Qed.

Lemma rebuild_ext (keys : list string) (o1 o2 : object) :
  (forall k, In k keys -> objGet k o1 = objGet k o2) ->
  rebuild keys o1 = rebuild keys o2.
Proof.
  unfold rebuild. generalize (@nil (string * value)) as out.
  induction keys as [|k rest IH]; intros out Hsame; cbn; [reflexivity|].
  rewrite (Hsame k) by now left.
  apply IH. intros k' Hk'. apply Hsame. now right.
Qed.

Lemma number_eqb_eq (a b : number) : number_eqb a b = true -> a = b.
Proof.
  destruct a, b; cbn; try discriminate.
  - intros H. apply Z.eqb_eq in H. now subst.
  - intros H. apply String.eqb_eq in H. now subst.
Qed.

(** Structurally equal mappings with distinct keys have the same keys up
    to order. *)
Lemma structEq_keys_permutation (ps qs : object) :
  NoDup (map fst ps) ->
  Nat.eqb (List.length ps) (List.length qs) = true ->
  (forall k x, objGet k ps = Some x -> exists y, objGet k qs = Some y) ->
  Permutation (map fst ps) (map fst qs).
Proof.
  intros Hnodup Hlen Hsub.
  apply NoDup_Permutation_bis; [assumption | |].
  - rewrite !length_map. apply Nat.eqb_eq in Hlen. lia.
  - intros k Hk. destruct (In_key_objGet _ _ Hk) as [x Hx].
    destruct (Hsub _ _ Hx) as [y Hy]. now apply objGet_key_In in Hy.
Qed.

Lemma stableSortKeys_structEq (a : value) :
  wellFormed a = true ->
  forall b, structEq a b = true -> stableSortKeys a = stableSortKeys b.
Proof.
  induction a as [| x | x | x | xs IH | ps IH] using value_nested_ind;
    intros Hwf b Heq; destruct b as [| y | y | y | ys | qs];
    try discriminate Heq; cbn in Heq.
  - reflexivity.
  - apply Bool.eqb_prop in Heq. now subst.
  - apply number_eqb_eq in Heq. now subst.
  - apply String.eqb_eq in Heq. now subst.
  - cbn [stableSortKeys]. f_equal. cbn in Hwf.
    revert ys Heq Hwf.
    induction IH as [|x rest Hx _ IHrest]; intros [|y ys] Heq Hwf;
      try discriminate Heq; [reflexivity|].
    cbn in Hwf. apply andb_true_iff in Heq, Hwf.
    destruct Heq as [Hxy Hrest], Hwf as [Hwx Hwrest].
    cbn [map]. f_equal; [now apply Hx | now apply IHrest].
  - cbn [stableSortKeys]. f_equal. cbn in Hwf.
    apply andb_true_iff in Heq, Hwf.
    destruct Heq as [Hlen Hall], Hwf as [Hkeys Hwvals].
    rewrite forallb_forall in Hall, Hwvals. rewrite Forall_forall in IH.
    assert (Hrel : forall k x, objGet k ps = Some x ->
              exists y, objGet k qs = Some y
                        /\ stableSortKeys x = stableSortKeys y).
    { intros k x Hx. apply objGet_In in Hx.
      specialize (Hall _ Hx). cbn in Hall.
      destruct (objGet k qs) as [y|]; [| discriminate].
      exists y. split; [reflexivity|].
      apply (IH _ Hx); [apply (Hwvals _ Hx) | exact Hall]. }
    assert (Hperm : Permutation (map fst ps) (map fst qs)).
    { apply structEq_keys_permutation;
        [now apply distinctKeys_NoDup | assumption |].
      intros k x Hx. destruct (Hrel _ _ Hx) as (y & Hy & _). eauto. }
    rewrite <- (sortKeys_permutation _ _ Hperm).
    apply rebuild_ext. intros k Hk.
    apply (proj1 (sortKeys_In _ _)) in Hk.
    destruct (In_key_objGet _ _ Hk) as [x Hx].
    rewrite !objGet_map_values, Hx.
    destruct (Hrel _ _ Hx) as (y & Hy & Hxy). rewrite Hy. cbn. now rewrite Hxy.
Qed.

Lemma structEq_same_kind (a b : value) :
  structEq a b = true -> isComposite a = isComposite b.
Proof.
  destruct a, b; cbn; try reflexivity; discriminate.
Qed.

Lemma number_eqb_refl (n : number) : number_eqb n n = true.
Proof.
  destruct n; cbn; [apply Z.eqb_refl | apply String.eqb_refl].
Qed.

Lemma objGet_distinct_In (k : string) (x : value) (o : object) :
  NoDup (map fst o) -> In (k, x) o -> objGet k o = Some x.
Proof.
  induction o as [|[k' v] rest IH]; cbn; [tauto|].
  intros Hnodup [Hhead | Htail]; inversion Hnodup as [|? ? Hnotin Hrest]; subst.
  - injection Hhead as -> ->. now rewrite String.eqb_refl.
  - destruct (String.eqb_spec k k') as [->|Hne]; [| now apply IH].
    exfalso. apply Hnotin. now apply (in_map fst) in Htail.
Qed.

(** [structEq] relates every well-formed document to itself and to each
    reordering of the properties of a mapping. *)
Lemma structEq_refl (a : value) : wellFormed a = true -> structEq a a = true.
Proof.
  induction a as [| x | x | x | xs IH | ps IH] using value_nested_ind;
    cbn; intros Hwf.
  - reflexivity.
  - apply Bool.eqb_reflx.
  - apply number_eqb_refl.
  - apply String.eqb_refl.
  - induction IH as [|x rest Hx _ IHrest]; [reflexivity|].
    cbn in Hwf. apply andb_true_iff in Hwf. destruct Hwf as [Hwx Hwrest].
    apply andb_true_iff. split; [now apply Hx | now apply IHrest].
  - apply andb_true_iff in Hwf. destruct Hwf as [Hkeys Hwvals].
    rewrite Nat.eqb_refl. cbn [andb].
    apply distinctKeys_NoDup in Hkeys.
    rewrite forallb_forall in *. rewrite Forall_forall in IH.
    intros [k x] Hin. cbn [fst snd].
    rewrite (objGet_distinct_In _ _ _ Hkeys Hin).
    apply (IH _ Hin). apply (Hwvals _ Hin).
Qed.

Lemma structEq_reordered_keys (ps qs : object) :
  wellFormed (VObj ps) = true ->
  Permutation ps qs ->
  structEq (VObj ps) (VObj qs) = true.
Proof.
  cbn. intros Hwf Hperm.
  apply andb_true_iff in Hwf. destruct Hwf as [Hkeys Hwvals].
  apply andb_true_iff. split.
  - apply Nat.eqb_eq. now apply Permutation_length.
  - apply distinctKeys_NoDup in Hkeys.
    assert (Hkeys' : NoDup (map fst qs)).
    { eapply Permutation_NoDup; [| exact Hkeys]. now apply Permutation_map. }
    rewrite forallb_forall in *. intros [k x] Hin. cbn [fst snd].
    rewrite (objGet_distinct_In k x qs Hkeys'
               (Permutation_in _ Hperm Hin)).
    apply structEq_refl. apply (Hwvals _ Hin).
Qed.

(** C8: the stable key does not depend on the order of mapping keys: two
    documents that are structurally equal up to that order have the same
    stable key, for example [{"b":2,"a":1}] and [{"a":1,"b":2}]; the
    order of array elements does matter: [[1,2]] and [[2,1]] have
    different stable keys. *)
Theorem stableKey_ignores_key_order_only (a b : value)
    (Hwf : wellFormed a = true) (Heq : structEq a b = true) :
  stableKey a = stableKey b
  /\ stableKey doc_b_a = stableKey doc_a_b_sorted
  /\ stableKey (VArr [vint 1; vint 2]) <> stableKey (VArr [vint 2; vint 1]).
Proof.
  split; [| split; [reflexivity | vm_compute; discriminate]].
  unfold stableKey.
  rewrite <- (structEq_same_kind _ _ Heq).
  rewrite <- (stableSortKeys_structEq a Hwf b Heq).
  destruct (isComposite a) eqn:Hkind; [reflexivity|].
  destruct a, b; try discriminate; cbn in Heq.
  - reflexivity.
  - apply Bool.eqb_prop in Heq. now subst.
  - apply number_eqb_eq in Heq. now subst.
  - apply String.eqb_eq in Heq. now subst.
Qed.

Lemma stableKey_ignores_key_order_only_witness :
  stableKey doc_b_a = stableKey doc_a_b_sorted.
Proof.
  apply (stableKey_ignores_key_order_only doc_b_a doc_a_b_sorted);
    reflexivity.
Defined.

(** * Further properties of the module *)

(** ** The scan of composed paths *)

Lemma string_app_nil (s : string) : (s ++ "")%string = s.
Proof.
  induction s as [|c s IH]; cbn; [reflexivity | now rewrite IH].
Qed.

Lemma takeWhile_app_stop (p : ascii -> bool) (s t : string) (c : ascii) :
  p c = false -> takeWhile p (s ++ String c t) = takeWhile p s.
Proof.
  intros Hc. induction s as [|x s IH]; cbn.
  - now rewrite Hc.
  - destruct (p x); [now rewrite IH | reflexivity].
Qed.

Lemma dropChars_app (n : nat) (s t : string) :
  (n <= String.length s)%nat ->
  dropChars n (s ++ t) = (dropChars n s ++ t)%string.
Proof.
  revert s. induction n as [|n IH]; intros s Hn; [reflexivity|].
  destruct s as [|x s]; cbn in *; [lia|]. apply IH. lia.
Qed.

Lemma takeWhile_length (p : ascii -> bool) (s : string) :
  (String.length (takeWhile p s) <= String.length s)%nat.
Proof.
  induction s as [|x s IH]; cbn; [lia|]. destruct (p x); cbn; lia.
Qed.

Lemma matchBracket_unfold (s : string) :
  matchBracket s
  = match s with
    | EmptyString => None
    | String c0 rest =>
        if Ascii.eqb c0 "["%char then
          match rest with
          | String c1 (String c2 tail) =>
              if Ascii.eqb c1 "*"%char && Ascii.eqb c2 "]"%char
              then Some {| matched := "[*]"; group1 := None; group3 := Some "*" |}
              else closeBracket rest
          | _ => closeBracket rest
          end
        else None
    end.
Proof.
  assert (Hclose : forall rest,
    (let digits := takeWhile isDigit rest in
     if isEmpty digits then None
     else match dropChars (String.length digits) rest with
          | String "]"%char _ =>
              Some {| matched := "[" ++ digits ++ "]";
                      group1 := None; group3 := Some digits |}
          | _ => None
          end) = closeBracket rest).
  { intros rest. unfold closeBracket. cbn zeta.
    destruct (isEmpty (takeWhile isDigit rest)); [reflexivity|].
    destruct (dropChars _ rest) as [|c tail]; [reflexivity|].
    destruct c as [[] [] [] [] [] [] [] []]; reflexivity. }
  destruct s as [|c0 rest]; [reflexivity|].
  destruct (Ascii.eqb_spec c0 "["%char) as [->|Hc0].
  - unfold matchBracket.
    destruct rest as [|c1 [|c2 tail]]; try apply Hclose.
    + destruct c1 as [[] [] [] [] [] [] [] []]; apply Hclose.
    + destruct (Ascii.eqb_spec c1 "*"%char) as [->|Hc1].
      * destruct (Ascii.eqb_spec c2 "]"%char) as [->|Hc2]; [reflexivity|].
        cbn [andb]. rewrite <- Hclose.
        destruct c2 as [[] [] [] [] [] [] [] []]; try reflexivity; congruence.
      * cbn [andb]. rewrite <- Hclose.
        destruct c1 as [[] [] [] [] [] [] [] []]; try reflexivity; congruence.
  - unfold matchBracket.
    destruct c0 as [[] [] [] [] [] [] [] []]; try reflexivity; congruence.
Qed.

Lemma tokenBoundary_facts (c : ascii) :
  tokenBoundary c = true ->
  keyChar c = false /\ isDigit c = false
  /\ Ascii.eqb c "]"%char = false /\ Ascii.eqb c "*"%char = false.
Proof.
  unfold tokenBoundary. intros H. apply orb_true_iff in H.
  destruct H as [H | H]; apply Ascii.eqb_eq in H; subst; repeat split.
Qed.

Lemma closeBracket_app (rest t : string) (c : ascii) :
  tokenBoundary c = true ->
  closeBracket (rest ++ String c t) = closeBracket rest.
Proof.
  intros Hc. destruct (tokenBoundary_facts c Hc) as (_ & Hdigit & Hclose & _).
  unfold closeBracket. cbn zeta.
  rewrite (takeWhile_app_stop isDigit rest t c Hdigit).
  destruct (isEmpty (takeWhile isDigit rest)); [reflexivity|].
  rewrite dropChars_app by apply takeWhile_length.
  destruct (dropChars _ rest) as [|x tail]; cbn; [now rewrite Hclose | reflexivity].
Qed.

Lemma matchAt_app (x : ascii) (s t : string) (c : ascii) :
  tokenBoundary c = true ->
  matchAt (String x s ++ String c t) = matchAt (String x s).
Proof.
  intros Hc. destruct (tokenBoundary_facts c Hc) as (Hkey & _ & Hclose & Hstar).
  unfold matchAt, matchKey.
  rewrite (takeWhile_app_stop keyChar (String x s) t c Hkey).
  destruct (isEmpty (takeWhile keyChar (String x s))); [| reflexivity].
  rewrite !matchBracket_unfold. cbn [append].
  destruct (Ascii.eqb x "["%char); [| reflexivity].
  destruct s as [|c1 [|c2 tail]]; cbn [append].
  - destruct t as [|c2 tail]; [| rewrite Hstar; cbn [andb]];
      apply (closeBracket_app "" _ c Hc).
  - rewrite Hclose, andb_false_r.
    apply (closeBracket_app (String c1 "") t c Hc).
  - destruct (Ascii.eqb c1 "*"%char && Ascii.eqb c2 "]"%char); [reflexivity|].
    apply (closeBracket_app (String c1 (String c2 tail)) t c Hc).
Qed.

Lemma scanFrom_app (c : ascii) (t : string) :
  tokenBoundary c = true ->
  forall p, scanFrom 0 (p ++ String c t)
            = scanFrom 0 p ++ scanFrom 0 (String c t).
Proof.
  intros Hc p.
  remember (String.length p) as n eqn:Hn. revert p Hn.
  induction n as [n IH] using lt_wf_ind. intros p Hn.
  destruct p as [|x p]; [reflexivity|].
  change (scanFrom 0 (String x p ++ String c t))
    with (match matchAt (String x p ++ String c t) with
          | Some m => m :: scanFrom (String.length (matched m) - 1) (p ++ String c t)
          | None => scanFrom 0 (p ++ String c t)
          end).
  rewrite (matchAt_app x p t c Hc). cbn [scanFrom].
  destruct (matchAt (String x p)) as [m|] eqn:Hm.
  - destruct (matchAt_prefix _ _ Hm) as (x' & run & rest & Hmatched & Hs).
    rewrite Hmatched in Hs. cbn in Hs. injection Hs as <- ->.
    rewrite Hmatched. cbn [String.length Nat.sub]. rewrite Nat.sub_0_r.
    rewrite string_app_assoc, !scanFrom_skip. cbn [app]. f_equal.
    apply (IH (String.length rest)); [| reflexivity].
    subst n. cbn. rewrite string_app_length. lia.
  - apply (IH (String.length p)); [subst n; cbn; lia | reflexivity].
Qed.

(** ** Path tokens *)

Lemma parsePath_pathTokens (s : string) :
  parsePath (PathString s) = Ok (pathTokens s).
Proof.
  unfold parsePath, pathTokens. destruct s; reflexivity.
Qed.

Lemma extractValues_evalTokens (data : value) (s : string) :
  extractValues data (PathString s) = Ok (evalTokens (pathTokens s) [data]).
Proof.
  unfold extractValues. rewrite parsePath_pathTokens. cbn [bind].
  destruct (pathTokens s); reflexivity.
Qed.

Lemma pathTokens_app_boundary (p t : string) (c : ascii) :
  tokenBoundary c = true ->
  pathTokens (p ++ String c t) = pathTokens p ++ pathTokens (String c t).
Proof.
  intros Hc. unfold pathTokens, matchAll.
  now rewrite (scanFrom_app c t Hc), flat_map_app.
Qed.

Lemma pathTokens_dot (t : string) : pathTokens (String "." t) = pathTokens t.
Proof. reflexivity. Qed.

Lemma takeWhile_all (p : ascii -> bool) (s : string) :
  isEmpty (dropChars (String.length (takeWhile p s)) s) = true ->
  takeWhile p s = s.
Proof.
  intros H. rewrite (takeWhile_dropChars p s) at 2.
  destruct (dropChars _ s); [now rewrite string_app_nil | discriminate].
Qed.

Lemma scanFrom_skip_all (s : string) : scanFrom (String.length s) s = [].
Proof.
  rewrite <- (string_app_nil s) at 2. now rewrite scanFrom_skip.
Qed.

Lemma plainKey_run (k : string) :
  plainKey k = true ->
  takeWhile keyChar k = k /\ isEmpty k = false /\ (k =? "*") = false.
Proof.
  unfold plainKey, truthy. rewrite !andb_true_iff, !negb_true_iff.
  intros [[Hne Hall] Hstar]. repeat split; try assumption.
  now apply takeWhile_all.
Qed.

Lemma pathTokens_plainKey (k : string) :
  plainKey k = true -> pathTokens k = [TStr k].
Proof.
  intros Hk. destruct (plainKey_run k Hk) as (Hrun & Hne & _).
  unfold pathTokens, matchAll.
  destruct k as [|c rest]; [discriminate|].
  cbn [scanFrom]. unfold matchAt, matchKey. rewrite Hrun. cbn [isEmpty matched].
  cbn [String.length Nat.sub]. rewrite Nat.sub_0_r, scanFrom_skip_all.
  reflexivity.
Qed.

(** ** Decimal numerals *)

Lemma decimal_of_nat (i : nat) :
  decimal (Z.of_nat i) = NilEmpty.string_of_uint (N.to_uint (N.of_nat i)).
Proof.
  unfold decimal. destruct i as [|i]; [reflexivity|].
  cbn [Z.of_nat N.of_nat Z.to_int N.to_uint NilZero.string_of_int].
  unfold NilZero.string_of_uint.
  pose proof (DecimalPos.Unsigned.to_uint_nonnil (Pos.of_succ_nat i)) as Hnil.
  destruct (Pos.to_uint (Pos.of_succ_nat i)); [contradiction | reflexivity ..].
Qed.

Lemma numeral_digits (d : Decimal.uint) :
  takeWhile isDigit (NilEmpty.string_of_uint d) = NilEmpty.string_of_uint d.
Proof.
  induction d; cbn [NilEmpty.string_of_uint takeWhile];
    [reflexivity | change (isDigit _) with true; cbn iota; now rewrite IHd ..].
Qed.

Lemma parseInt10_numeral (d : Decimal.uint) :
  parseInt10 (NilEmpty.string_of_uint d) = N.of_uint d.
Proof.
  unfold parseInt10, N.of_uint.
  assert (Hacc : forall d p,
    (fix go (s : string) (acc : N) {struct s} : N :=
       match s with
       | EmptyString => acc
       | String c rest => go rest (10 * acc + (N_of_ascii c - 48))%N
       end) (NilEmpty.string_of_uint d) (N.pos p)
    = N.pos (Pos.of_uint_acc d p)).
  { clear d. induction d; intros p; cbn [NilEmpty.string_of_uint Pos.of_uint_acc];
      [reflexivity
      | rewrite <- IHd; apply f_equal;
        match goal with
        | |- context [(N_of_ascii ?c - 48)%N] =>
            let k := eval vm_compute in (N_of_ascii c - 48)%N in
            change (N_of_ascii c - 48)%N with k
        end; lia ..]. }
  induction d; cbn [NilEmpty.string_of_uint Pos.of_uint];
    [reflexivity | exact IHd | apply Hacc ..].
Qed.

Lemma parseInt10_decimal (i : nat) :
  parseInt10 (decimal (Z.of_nat i)) = N.of_nat i.
Proof.
  rewrite decimal_of_nat, parseInt10_numeral.
  apply DecimalN.Unsigned.of_to.
Qed.

Lemma decimal_digits (i : nat) :
  takeWhile isDigit (decimal (Z.of_nat i)) = decimal (Z.of_nat i)
  /\ exists c rest, decimal (Z.of_nat i) = String c rest /\ isDigit c = true.
Proof.
  rewrite decimal_of_nat. split; [apply numeral_digits|].
  assert (Hnil : N.to_uint (N.of_nat i) <> Decimal.Nil).
  { destruct (N.of_nat i); cbn; [discriminate|].
    apply DecimalPos.Unsigned.to_uint_nonnil. }
  destruct (N.to_uint (N.of_nat i)); [contradiction | cbn; eauto ..].
Qed.

Lemma dropChars_length_app (s t : string) :
  dropChars (String.length s) (s ++ t) = t.
Proof.
  induction s as [|c s IH]; [reflexivity | exact IH].
Qed.

Lemma digit_not_star (c : ascii) :
  isDigit c = true -> Ascii.eqb c "*"%char = false.
Proof.
  destruct (Ascii.eqb_spec c "*"%char) as [->|]; [discriminate | reflexivity].
Qed.

Lemma matchAll_index (digits : string) (c : ascii) (rest : string) :
  takeWhile isDigit digits = digits ->
  digits = String c rest -> isDigit c = true ->
  matchAll (String "[" (digits ++ "]"))
  = [{| matched := "[" ++ digits ++ "]"; group1 := None; group3 := Some digits |}].
Proof.
  intros Hall Hshape Hc.
  assert (Hclose : closeBracket (digits ++ "]")
                   = Some {| matched := "[" ++ digits ++ "]";
                             group1 := None; group3 := Some digits |}).
  { unfold closeBracket. cbn zeta.
    rewrite (takeWhile_app_stop isDigit digits "" "]"%char eq_refl), Hall.
    rewrite dropChars_length_app. subst digits. reflexivity. }
  unfold matchAll. cbn [scanFrom].
  replace (matchAt (String "[" (digits ++ "]")))
    with (Some {| matched := "[" ++ digits ++ "]";
                  group1 := None; group3 := Some digits |}).
  - cbn [matched String.length append Nat.sub]. rewrite Nat.sub_0_r.
    now rewrite scanFrom_skip_all.
  - unfold matchAt. cbn [matchKey takeWhile keyChar]. cbn [isEmpty].
    rewrite matchBracket_unfold. cbn [Ascii.eqb].
    replace (Ascii.eqb "[" "[")%char with true by reflexivity.
    rewrite <- Hclose. subst digits. cbn [append].
    rewrite (digit_not_star c Hc). cbn [andb].
    destruct (rest ++ "]")%string; reflexivity.
Qed.

Lemma pathTokens_index (i : nat) :
  pathTokens ("[" ++ decimal (Z.of_nat i) ++ "]") = [TNum (N.of_nat i)].
Proof.
  destruct (decimal_digits i) as (Hall & c & rest & Hshape & Hc).
  unfold pathTokens. cbn [append].
  rewrite (matchAll_index _ c rest Hall Hshape Hc).
  cbn [flat_map tokenOfMatch group1 group3 app].
  replace (decimal (Z.of_nat i) =? "*") with false.
  - now rewrite parseInt10_decimal.
  - rewrite Hshape. cbn. now rewrite (digit_not_star c Hc).
Qed.

(** ** Path resolution on mappings, arrays and composed paths *)

Lemma evalTokens_values_app (tokens : list token) (xs ys : list value) :
  evalTokens tokens (xs ++ ys) = evalTokens tokens xs ++ evalTokens tokens ys.
Proof.
  revert xs ys. induction tokens as [|tok rest IH]; intros xs ys.
  - reflexivity.
  - rewrite !evalTokens_cons, flat_map_app. apply IH.
Qed.

Lemma evalTokens_flat_map (tokens : list token) (values : list value) :
  evalTokens tokens values = flat_map (fun v => evalTokens tokens [v]) values.
Proof.
  induction values as [|v rest IH].
  - apply evalTokens_nil_values.
  - change (v :: rest) with ([v] ++ rest).
    rewrite evalTokens_values_app, IH. reflexivity.
Qed.

Lemma evalTokens_app (t1 t2 : list token) (values : list value) :
  evalTokens (t1 ++ t2) values = evalTokens t2 (evalTokens t1 values).
Proof. unfold evalTokens. apply fold_left_app. Qed.

Lemma emit_index (i : nat) (items : list value) :
  emit (TNum (N.of_nat i)) (VArr items)
  = match nth_error items i with
    | Some x => [x]
    | None => []
    end.
Proof.
  cbn [emit]. rewrite Nnat.Nat2N.id.
  destruct (nth_error items i) as [x|] eqn:Hnth.
  - assert (i < List.length items)%nat
      by (apply nth_error_Some; congruence).
    replace (Z.of_N (N.of_nat i) >=? - Z.of_nat (List.length items))%Z with true
      by (symmetry; apply Z.geb_le; lia).
    replace (Z.of_N (N.of_nat i) <? Z.of_nat (List.length items))%Z with true
      by (symmetry; apply Z.ltb_lt; lia).
    reflexivity.
  - destruct (_ && _); reflexivity.
Qed.

Lemma extractValues_of_plainKey (props : object) (k : string) :
  plainKey k = true ->
  extractValues (VObj props) (PathString k)
  = Ok (match objGet k props with Some v => [v] | None => [] end).
Proof.
  intros Hk. rewrite extractValues_evalTokens, (pathTokens_plainKey k Hk).
  destruct (plainKey_run k Hk) as (_ & _ & Hstar).
  cbn. rewrite Hstar. destruct (objGet k props); reflexivity.
Qed.

(** X1: on a mapping, a path that is one plain key selects the value
    stored under that key and nothing when the key is missing;
    [existsPath] and [firstValue] follow, the latter returning the
    default for a missing key. *)
Theorem extractValues_plain_key (props : object) (k : string) (dflt : value)
    (Hk : plainKey k = true) :
  extractValues (VObj props) (PathString k)
  = Ok (match objGet k props with Some v => [v] | None => [] end)
  /\ existsPath (VObj props) (PathString k)
     = Ok (match objGet k props with Some _ => true | None => false end)
  /\ firstValue (VObj props) (PathString k) dflt
     = Ok (match objGet k props with Some v => v | None => dflt end).
Proof.
  pose proof (extractValues_of_plainKey props k Hk) as Hvalues.
  unfold existsPath, firstValue. rewrite Hvalues. cbn [bind].
  destruct (objGet k props); repeat split; reflexivity.
Qed.

Lemma extractValues_plain_key_witness :
  firstValue (VObj [("id", VNum (NInt 7))]) (PathString "name") VNull = Ok VNull.
Proof.
  apply (extractValues_plain_key [("id", VNum (NInt 7))] "name" VNull).
  reflexivity.
Defined.

(** X2: the tokens of two paths joined by a dot are the tokens of the
    first followed by the tokens of the second. *)
Theorem parsePath_dot_concat (a b : string) :
  exists ta tb,
    parsePath (PathString a) = Ok ta
    /\ parsePath (PathString b) = Ok tb
    /\ parsePath (PathString (a ++ "." ++ b)) = Ok (ta ++ tb).
Proof.
  exists (pathTokens a), (pathTokens b).
  rewrite !parsePath_pathTokens. repeat split.
  cbn [append].
  now rewrite (pathTokens_app_boundary a b "."%char eq_refl), pathTokens_dot.
Qed.

(** X3: resolving [a.b] is resolving [b] on every value that [a]
    selects, in order, and concatenating the results. *)
Theorem extractValues_dot_compose (data : value) (a b : string) :
  exists (va : list value) (selectB : value -> list value),
    extractValues data (PathString a) = Ok va
    /\ (forall v, extractValues v (PathString b) = Ok (selectB v))
    /\ extractValues data (PathString (a ++ "." ++ b)) = Ok (flat_map selectB va).
Proof.
  exists (evalTokens (pathTokens a) [data]),
         (fun v => evalTokens (pathTokens b) [v]).
  split; [apply extractValues_evalTokens|].
  split; [intros v; apply extractValues_evalTokens|].
  rewrite extractValues_evalTokens. f_equal. cbn [append].
  rewrite (pathTokens_app_boundary a b "."%char eq_refl), pathTokens_dot.
  rewrite evalTokens_app. apply evalTokens_flat_map.
Qed.

(** X4: a bracketed decimal index below 2^53 (the numerals that
    [Number.parseInt] reads exactly) parses to that index; on an array it
    selects the element at the index and nothing when the index is out of
    range, and on a mapping it selects nothing. *)
Theorem extractValues_index_path (items : list value) (props : object) (i : nat)
    (Hexact : exactIndex (N.of_nat i) = true) :
  parsePath (PathString ("[" ++ decimal (Z.of_nat i) ++ "]"))
  = Ok [TNum (N.of_nat i)]
  /\ extractValues (VArr items) (PathString ("[" ++ decimal (Z.of_nat i) ++ "]"))
     = Ok (match nth_error items i with Some x => [x] | None => [] end)
  /\ extractValues (VObj props) (PathString ("[" ++ decimal (Z.of_nat i) ++ "]"))
     = Ok [].
Proof.
  rewrite parsePath_pathTokens, !extractValues_evalTokens, pathTokens_index.
  repeat split.
  rewrite evalTokens_cons. cbn [flat_map evalTokens fold_left].
  rewrite emit_index, app_nil_r. reflexivity.
Qed.

Lemma extractValues_index_path_witness :
  parsePath (PathString "[1]") = Ok [TNum 1]
  /\ extractValues doc_10_20_30 (PathString "[1]") = Ok [vint 20]
  /\ extractValues doc_a_b (PathString "[1]") = Ok [].
Proof.
  exact (extractValues_index_path [vint 10; vint 20; vint 30]
           [("a", VObj [("x", vint 1)]); ("b", VObj [("y", vint 2)])] 1 eq_refl).
Defined.

(** ** Flattened keys address their values *)

Lemma In_insertProp (e : string * value) (k : string) (v : value) (o : object) :
  In e (insertProp k v o) -> e = (k, v) \/ In e o.
Proof.
  induction o as [|[k' v'] rest IH]; cbn.
  - intuition.
  - destruct (k =? k'); [cbn; intuition|].
    destruct (arrayIndex k) as [i|], (arrayIndex k') as [i'|];
      try destruct (i <? i')%N; cbn; intuition.
Qed.

Lemma In_objSet (e : string * value) (k : string) (v : value) (o : object) :
  In e (objSet k v o) -> e = (k, v) \/ In e o.
Proof.
  unfold objSet. destruct (k =? "__proto__"); [now right | apply In_insertProp].
Qed.

Lemma In_assignAll (e : string * value) (entries : list (string * value))
    (output : object) :
  In e (assignAll entries output) -> In e entries \/ In e output.
Proof.
  unfold assignAll. revert output.
  induction entries as [|[k v] rest IH]; intros output; cbn; [now right|].
  intros H. destruct (IH _ H) as [Hrest | Hnew]; [now left; right|].
  destruct (In_objSet _ _ _ _ Hnew) as [-> | Hout]; [now left; left | now right].
Qed.

Lemma In_flatMapFrom {A B : Type} (f : A -> nat -> list B) (items : list A)
    (start : nat) (y : B) :
  In y (flatMapFrom f items start) ->
  exists i x, nth_error items i = Some x /\ In y (f x (start + i)%nat).
Proof.
  revert start. induction items as [|x rest IH]; intros start; cbn; [tauto|].
  rewrite in_app_iff. intros [Hhere | Hlater].
  - exists 0%nat, x. rewrite Nat.add_0_r. now split.
  - destruct (IH _ Hlater) as (i & x' & Hnth & Hin).
    exists (S i), x'. split; [exact Hnth|].
    now replace (start + S i)%nat with (S start + i)%nat by lia.
Qed.

Lemma pathTokens_keyPrefix (prefix key : string) :
  plainKey key = true ->
  pathTokens (keyPrefix "." prefix key) = pathTokens prefix ++ [TStr key].
Proof.
  intros Hkey. unfold keyPrefix, truthy.
  destruct prefix as [|c prefix]; cbn [isEmpty negb].
  - now rewrite (pathTokens_plainKey key Hkey).
  - change (String c prefix ++ "." ++ key)%string
      with (String c prefix ++ String "." key)%string.
    rewrite (pathTokens_app_boundary _ key "."%char eq_refl), pathTokens_dot.
    now rewrite (pathTokens_plainKey key Hkey).
Qed.

Lemma pathTokens_indexPrefix (prefix : string) (i : nat) :
  pathTokens (indexPrefix prefix i) = pathTokens prefix ++ [TNum (N.of_nat i)].
Proof.
  unfold indexPrefix, truthy.
  destruct prefix as [|c prefix]; cbn [isEmpty negb].
  - apply pathTokens_index.
  - change (String c prefix ++ "[" ++ decimal (Z.of_nat i) ++ "]")%string
      with (String c prefix ++ String "[" (decimal (Z.of_nat i) ++ "]"))%string.
    rewrite (pathTokens_app_boundary _ _ "["%char eq_refl).
    f_equal. apply pathTokens_index.
Qed.

Lemma terminalNodes_addressed (arrayMode : string) (v : value) :
  (arrayMode =? "expand") = false ->
  addressable v = true ->
  forall prefix k x,
    In (k, x) (terminalNodes "." arrayMode v prefix) ->
    exists tokens,
      pathTokens k = pathTokens prefix ++ tokens
      /\ evalTokens tokens [v] = [x].
Proof.
  intros Hmode.
  assert (Hhere : forall (w : value) prefix k x,
            In (k, x) [(prefix, w)] ->
            exists tokens, pathTokens k = pathTokens prefix ++ tokens
                           /\ evalTokens tokens [w] = [x]).
  { intros w prefix k x [[= <- <-] | []]. exists []. now rewrite app_nil_r. }
  induction v as [| b | n | s | items IH | props IH] using value_nested_ind;
    intros Hwf prefix k x Hin; try (apply (Hhere _ _ _ _ Hin)).
  - cbn [terminalNodes] in Hin. rewrite Hmode in Hin. cbn [andb] in Hin.
    destruct (arrayMode =? "ignore"); [apply (Hhere _ _ _ _ Hin)|].
    apply in_app_iff in Hin. destruct Hin as [Hin | Hin].
    + apply In_flatMapFrom in Hin. destruct Hin as (i & inner & Hnth & Hin).
      cbn [Nat.add] in Hin.
      cbn [addressable] in Hwf. rewrite forallb_forall in Hwf.
      rewrite Forall_forall in IH.
      pose proof (nth_error_In _ _ Hnth) as Hmem.
      destruct (IH _ Hmem (Hwf _ Hmem) _ _ _ Hin) as (tokens & Hpath & Heval).
      exists (TNum (N.of_nat i) :: tokens). split.
      * rewrite Hpath, pathTokens_indexPrefix, <- app_assoc. reflexivity.
      * rewrite evalTokens_cons. cbn [flat_map].
        rewrite emit_index, Hnth. exact Heval.
    + destruct (Nat.eqb (List.length items) 0 && truthy prefix) eqn:Hempty;
        [| destruct Hin].
      apply andb_true_iff in Hempty. destruct Hempty as [Hlen _].
      destruct items; [| discriminate]. apply (Hhere _ _ _ _ Hin).
  - cbn [terminalNodes] in Hin.
    destruct (Nat.eqb (List.length props) 0 && truthy prefix) eqn:Hempty.
    + apply andb_true_iff in Hempty. destruct Hempty as [Hlen _].
      destruct props; [| discriminate]. apply (Hhere _ _ _ _ Hin).
    + apply in_flat_map in Hin. destruct Hin as ([key inner] & Hmem & Hin).
      cbn [fst snd] in Hin.
      cbn [addressable] in Hwf. apply andb_true_iff in Hwf.
      destruct Hwf as [Hkeys Hall]. rewrite forallb_forall in Hall.
      rewrite Forall_forall in IH.
      pose proof (Hall _ Hmem) as Hentry. cbn [fst snd] in Hentry.
      apply andb_true_iff in Hentry. destruct Hentry as [Hkey Hinner].
      destruct (IH _ Hmem Hinner _ _ _ Hin) as (tokens & Hpath & Heval).
      exists (TStr key :: tokens). split.
      * rewrite Hpath, (pathTokens_keyPrefix _ _ Hkey), <- app_assoc. reflexivity.
      * rewrite evalTokens_cons. cbn [flat_map emit].
        destruct (plainKey_run key Hkey) as (_ & _ & ->).
        rewrite (objGet_distinct_In key inner props
                   (distinctKeys_NoDup _ Hkeys) Hmem).
        exact Heval.
Qed.

(** X5: with the separator "." and an array mode other than expand,
    every key of a flattened document is a path that resolves, on the
    document itself, to exactly the value recorded under the key,
    provided the keys of the document's mappings are plain (no dots or
    brackets, not empty, not the wildcard). *)
Theorem flattenJson_keys_resolve (data : value) (arrayMode k : string) (x : value)
    (Hmode : (arrayMode =? "expand") = false)
    (Hkeys : addressable data = true)
    (Hentry : In (k, x) (flattenJson data "." arrayMode)) :
  extractValues data (PathString k) = Ok [x].
Proof.
  unfold flattenJson in Hentry. rewrite walk_assigns_terminalNodes in Hentry.
  apply In_assignAll in Hentry. destruct Hentry as [Hentry | []].
  destruct (terminalNodes_addressed arrayMode data Hmode Hkeys _ _ _ Hentry)
    as (tokens & Hpath & Heval).
  rewrite extractValues_evalTokens, Hpath. cbn [pathTokens app].
  now rewrite <- Heval.
Qed.

Lemma flattenJson_keys_resolve_witness :
  extractValues
    (VObj [("a", VObj [("b", vint 1)]); ("c", VArr [vint 1; vint 2])])
    (PathString "c[1]")
  = Ok [vint 2].
Proof.
  apply (flattenJson_keys_resolve _ "index" "c[1]" (vint 2)).
  - reflexivity.
  - reflexivity.
  - vm_compute. right. right. left. reflexivity.
Defined.

(** ** Objects built by assignment keep the enumeration order *)

Lemma digits_numeral (s : string) :
  takeWhile isDigit s = s -> exists d, s = NilEmpty.string_of_uint d.
Proof.
  induction s as [|c s IH]; [now exists Decimal.Nil|].
  cbn [takeWhile]. destruct (isDigit c) eqn:Hc; [| discriminate].
  intros [= Hs]. destruct (IH Hs) as [d ->].
  destruct c as [[] [] [] [] [] [] [] []]; try discriminate Hc;
    first [ now exists (Decimal.D0 d) | now exists (Decimal.D1 d)
          | now exists (Decimal.D2 d) | now exists (Decimal.D3 d)
          | now exists (Decimal.D4 d) | now exists (Decimal.D5 d)
          | now exists (Decimal.D6 d) | now exists (Decimal.D7 d)
          | now exists (Decimal.D8 d) | now exists (Decimal.D9 d) ].
Qed.

Lemma arrayIndex_numeral (k : string) (n : N) :
  arrayIndex k = Some n -> k = NilEmpty.string_of_uint (N.to_uint n).
Proof.
  unfold arrayIndex. destruct k as [|c rest]; [discriminate|].
  destruct (allDigits (String c rest)) eqn:Hdigits; [| discriminate].
  cbn [andb].
  destruct (isEmpty rest || negb (Ascii.eqb c "0"%char)) eqn:Hcanon;
    [| discriminate].
  destruct (parseInt10 (String c rest) <? 4294967295)%N; [| discriminate].
  intros [= <-].
  destruct (digits_numeral _ (takeWhile_all _ _ Hdigits)) as [d Hd].
  rewrite Hd, parseInt10_numeral, DecimalN.Unsigned.to_of. f_equal.
  destruct d; try reflexivity; [discriminate Hd|].
  cbn in Hd. injection Hd as -> ->. cbn in Hcanon.
  rewrite orb_false_r in Hcanon.
  destruct d; [reflexivity | discriminate Hcanon ..].
Qed.

Lemma arrayIndex_inj (k k' : string) (n : N) :
  arrayIndex k = Some n -> arrayIndex k' = Some n -> k = k'.
Proof.
  intros H H'. apply arrayIndex_numeral in H, H'. congruence.
Qed.

Lemma keyBefore_same_key (k : string) (entries : object) :
  forallb (fun entry => keyBefore k (fst entry)) entries = true ->
  forall entry, In entry entries -> keyBefore k (fst entry) = true.
Proof. intros H. now apply forallb_forall. Qed.

Lemma insertProp_enumerationOrder (k : string) (v : value) (o : object) :
  enumerationOrder o = true -> enumerationOrder (insertProp k v o) = true.
Proof.
  induction o as [|[k' v'] rest IH]; [reflexivity|].
  cbn [enumerationOrder insertProp]. rewrite andb_true_iff.
  intros [Hhead Hrest].
  destruct (String.eqb_spec k k') as [->|Hne].
  { cbn [enumerationOrder]. now rewrite Hhead, Hrest. }
  pose proof (keyBefore_same_key _ _ Hhead) as Hafter.
  assert (Hinsert : forall entry,
            In entry (insertProp k v rest) ->
            keyBefore k' k = true -> keyBefore k' (fst entry) = true).
  { intros entry Hin Hk. destruct (In_insertProp _ _ _ _ Hin) as [-> | Hold];
      [exact Hk | now apply Hafter]. }
  assert (Hkk' : (k =? k') = false) by now apply String.eqb_neq.
  assert (Hk'k : (k' =? k) = false) by (apply String.eqb_neq; congruence).
  destruct (arrayIndex k) as [i|] eqn:Hi, (arrayIndex k') as [i'|] eqn:Hi'.
  - destruct (i <? i')%N eqn:Hlt.
    + cbn [enumerationOrder forallb fst]. rewrite Hhead, Hrest, !andb_true_r.
      apply andb_true_iff. split.
      * unfold keyBefore. now rewrite Hkk', Hi, Hi', Hlt.
      * apply forallb_forall. intros entry Hin.
        specialize (Hafter _ Hin). unfold keyBefore in *. rewrite Hi, Hi' in *.
        apply andb_true_iff in Hafter. destruct Hafter as [_ Hafter].
        destruct (arrayIndex (fst entry)) as [j|] eqn:Hj.
        -- apply N.ltb_lt in Hlt, Hafter.
           replace (i <? j)%N with true by (symmetry; apply N.ltb_lt; lia).
           rewrite andb_true_r. apply negb_true_iff, String.eqb_neq.
           intros ->. rewrite Hi in Hj. injection Hj as ->. lia.
        -- rewrite andb_true_r. apply negb_true_iff, String.eqb_neq.
           intros ->. congruence.
    + cbn [enumerationOrder]. rewrite (IH Hrest), andb_true_r.
      apply forallb_forall. intros entry Hin. apply (Hinsert _ Hin).
      unfold keyBefore. rewrite Hk'k, Hi, Hi'. cbn [negb andb].
      apply N.ltb_lt. apply N.ltb_ge in Hlt.
      assert (i <> i') by (intros ->; apply Hne; eapply arrayIndex_inj; eauto).
      lia.
  - cbn [enumerationOrder forallb fst]. rewrite Hhead, Hrest, !andb_true_r.
    apply andb_true_iff. split.
    + unfold keyBefore. now rewrite Hkk', Hi, Hi'.
    + apply forallb_forall. intros entry Hin.
      specialize (Hafter _ Hin). unfold keyBefore in *. rewrite Hi, Hi' in *.
      apply andb_true_iff in Hafter. destruct Hafter as [_ Hafter].
      destruct (arrayIndex (fst entry)) as [j|] eqn:Hj; [discriminate|].
      rewrite andb_true_r. apply negb_true_iff, String.eqb_neq.
      intros ->. congruence.
  - cbn [enumerationOrder]. rewrite (IH Hrest), andb_true_r.
    apply forallb_forall. intros entry Hin. apply (Hinsert _ Hin).
    unfold keyBefore. now rewrite Hk'k, Hi, Hi'.
  - cbn [enumerationOrder]. rewrite (IH Hrest), andb_true_r.
    apply forallb_forall. intros entry Hin. apply (Hinsert _ Hin).
    unfold keyBefore. now rewrite Hk'k, Hi, Hi'.
Qed.

Lemma objSet_enumerationOrder (k : string) (v : value) (o : object) :
  enumerationOrder o = true -> enumerationOrder (objSet k v o) = true.
Proof.
  unfold objSet. destruct (k =? "__proto__"); [trivial|].
  apply insertProp_enumerationOrder.
Qed.

Lemma objSet_noProtoKey (k : string) (v : value) (o : object) :
  noProtoKey o = true -> noProtoKey (objSet k v o) = true.
Proof.
  unfold objSet, noProtoKey. destruct (k =? "__proto__") eqn:Hk; [trivial|].
  rewrite !forallb_forall. intros Hold entry Hin.
  destruct (In_insertProp _ _ _ _ Hin) as [-> | Hin']; [| now apply Hold].
  cbn. now rewrite Hk.
Qed.

Lemma assignAll_invariant (entries : list (string * value)) (output : object) :
  enumerationOrder output = true -> noProtoKey output = true ->
  enumerationOrder (assignAll entries output) = true
  /\ noProtoKey (assignAll entries output) = true.
Proof.
  unfold assignAll. revert output.
  induction entries as [|[k v] rest IH]; intros output Hord Hproto; cbn.
  - now split.
  - apply IH; [now apply objSet_enumerationOrder | now apply objSet_noProtoKey].
Qed.


Lemma enumerationOrder_app_l (a b : object) :
  enumerationOrder (a ++ b) = true -> enumerationOrder a = true.
Proof.
  induction a as [|[k v] rest IH]; [reflexivity|].
  cbn [app enumerationOrder]. rewrite forallb_app, !andb_true_iff.
  intros [[Hhead _] Hrest]. split; [assumption | now apply IH].
Qed.

Lemma insertProp_append (k : string) (v : value) (o : object) :
  enumerationOrder (o ++ [(k, v)]) = true ->
  insertProp k v o = o ++ [(k, v)].
Proof.
  induction o as [|[k' v'] rest IH]; [reflexivity|].
  cbn [app enumerationOrder insertProp].
  rewrite forallb_app, !andb_true_iff. cbn [forallb fst].
  rewrite andb_true_r. intros [[_ Hbefore] Hrest].
  unfold keyBefore in Hbefore. apply andb_true_iff in Hbefore.
  destruct Hbefore as [Hne Hrank]. apply negb_true_iff in Hne.
  rewrite String.eqb_sym, Hne.
  destruct (arrayIndex k) as [i|], (arrayIndex k') as [i'|];
    try discriminate Hrank; try (now rewrite (IH Hrest)).
  apply N.ltb_lt in Hrank.
  replace (i <? i')%N with false by (symmetry; apply N.ltb_ge; lia).
  now rewrite (IH Hrest).
Qed.

Lemma assignAll_append (entries output : object) :
  enumerationOrder (output ++ entries) = true ->
  noProtoKey entries = true ->
  assignAll entries output = output ++ entries.
Proof.
  unfold assignAll. revert output.
  induction entries as [|[k v] rest IH]; intros output Hord Hproto; cbn.
  - now rewrite app_nil_r.
  - cbn in Hproto. apply andb_true_iff in Hproto.
    destruct Hproto as [Hk Hrest]. apply negb_true_iff in Hk.
    unfold objSet. rewrite Hk.
    change (output ++ (k, v) :: rest) with (output ++ [(k, v)] ++ rest) in *.
    rewrite app_assoc in *.
    rewrite (insertProp_append k v output (enumerationOrder_app_l _ _ Hord)).
    now apply IH.
Qed.

(** ** What a flattened record holds *)

Lemma terminalNodes_leafEntry (separator arrayMode : string) (v : value) :
  forall prefix entry,
    In entry (terminalNodes separator arrayMode v prefix) ->
    leafEntry arrayMode entry = true.
Proof.
  induction v as [| b | n | s | items IH | props IH] using value_nested_ind;
    intros prefix entry Hin;
    try (destruct Hin as [<- | []]; reflexivity).
  - cbn [terminalNodes] in Hin.
    destruct (arrayMode =? "ignore") eqn:Hignore.
    { destruct Hin as [<- | []]. unfold leafEntry. cbn [fst snd].
      now rewrite Hignore. }
    destruct ((arrayMode =? "expand") && allScalars items) eqn:Hexpand.
    { destruct Hin as [<- | []]. unfold leafEntry. cbn [fst snd].
      now rewrite Hexpand, orb_true_r. }
    apply in_app_iff in Hin. destruct Hin as [Hin | Hin].
    + apply In_flatMapFrom in Hin. destruct Hin as (i & inner & Hnth & Hin).
      rewrite Forall_forall in IH.
      apply (IH _ (nth_error_In _ _ Hnth) _ _ Hin).
    + destruct (Nat.eqb (List.length items) 0 && truthy prefix) eqn:Hempty;
        [| destruct Hin].
      destruct Hin as [<- | []]. unfold leafEntry. cbn [snd fst].
      apply andb_true_iff in Hempty. destruct Hempty as [Hlen Hprefix].
      destruct items; [| discriminate]. cbn. now rewrite Hprefix, !orb_true_r.
  - cbn [terminalNodes] in Hin.
    destruct (Nat.eqb (List.length props) 0 && truthy prefix) eqn:Hempty.
    + destruct Hin as [<- | []]. unfold leafEntry. cbn [snd fst].
      apply andb_true_iff in Hempty. destruct Hempty as [Hlen Hprefix].
      destruct props; [| discriminate]. cbn. now rewrite Hprefix.
    + apply in_flat_map in Hin. destruct Hin as (e & Hmem & Hin).
      rewrite Forall_forall in IH. apply (IH _ Hmem _ _ Hin).
Qed.

Lemma terminalNodes_of_leaves (separator arrayMode : string) (entries : object) :
  forallb (leafEntry arrayMode) entries = true ->
  terminalNodes separator arrayMode (VObj entries) "" = entries.
Proof.
  cbn [terminalNodes]. replace (truthy "") with false by reflexivity.
  rewrite andb_false_r.
  induction entries as [|[k x] rest IH]; [reflexivity|].
  cbn [forallb flat_map fst snd]. rewrite andb_true_iff. intros [Hleaf Hrest].
  rewrite (IH Hrest).
  replace (keyPrefix separator "" k) with k by reflexivity.
  unfold leafEntry in Hleaf. cbn [fst snd] in Hleaf.
  destruct x as [| b | n | s | items | props]; try reflexivity.
  - cbn [terminalNodes].
    destruct (arrayMode =? "ignore"); [reflexivity|].
    destruct ((arrayMode =? "expand") && allScalars items); [reflexivity|].
    cbn [orb] in Hleaf. rewrite Hleaf.
    apply andb_true_iff in Hleaf. destruct Hleaf as [Hlen _].
    destruct items; [reflexivity | discriminate].
  - cbn [terminalNodes]. rewrite Hleaf.
    apply andb_true_iff in Hleaf. destruct Hleaf as [Hlen _].
    destruct props; [reflexivity | discriminate].
Qed.

Lemma flattenJson_invariant (data : value) (separator arrayMode : string) :
  enumerationOrder (flattenJson data separator arrayMode) = true
  /\ noProtoKey (flattenJson data separator arrayMode) = true
  /\ forallb (leafEntry arrayMode) (flattenJson data separator arrayMode) = true.
Proof.
  unfold flattenJson. rewrite walk_assigns_terminalNodes.
  destruct (assignAll_invariant
              (terminalNodes separator arrayMode data "") [] eq_refl eq_refl)
    as [Hord Hproto].
  repeat split; try assumption.
  apply forallb_forall. intros entry Hin.
  apply In_assignAll in Hin. destruct Hin as [Hin | []].
  apply (terminalNodes_leafEntry _ _ _ _ _ Hin).
Qed.

(** X6: a flat mapping is left unchanged: a mapping whose values are all
    scalars, and that is a JavaScript object (own keys in enumeration
    order, none of them "__proto__"), flattens to itself, whatever the
    separator and the array mode. *)
Theorem flattenJson_flat_mapping_unchanged
    (props : object) (separator arrayMode : string)
    (Hscalars : forallb (fun entry => negb (isComposite (snd entry))) props = true)
    (Horder : enumerationOrder props = true)
    (Hproto : noProtoKey props = true) :
  flattenJson (VObj props) separator arrayMode = props.
Proof.
  unfold flattenJson. rewrite walk_assigns_terminalNodes.
  rewrite terminalNodes_of_leaves.
  - now apply (assignAll_append props []).
  - rewrite forallb_forall in *. intros [k x] Hin.
    specialize (Hscalars _ Hin). cbn in Hscalars.
    destruct x; try reflexivity; discriminate.
Qed.

Lemma flattenJson_flat_mapping_unchanged_witness :
  flattenJson (VObj [("0", VNull); ("b", vint 2); ("a", VStr "x")]) "." "index"
  = [("0", VNull); ("b", vint 2); ("a", VStr "x")].
Proof.
  apply flattenJson_flat_mapping_unchanged; reflexivity.
Defined.

(** X7: a flattened record never holds a non-empty mapping, and holds an
    empty mapping only under a non-empty key; an array it holds is empty
    unless the array mode is ignore, or is expand and the array has only
    scalar elements. *)
Theorem flattenJson_values_are_leaves
    (data : value) (separator arrayMode k : string) (x : value)
    (Hentry : In (k, x) (flattenJson data separator arrayMode)) :
  match x with
  | VObj props => props = [] /\ k <> ""
  | VArr items =>
      (arrayMode =? "ignore") = true
      \/ items = []
      \/ ((arrayMode =? "expand") = true /\ allScalars items = true)
  | _ => True
  end.
Proof.
  destruct (flattenJson_invariant data separator arrayMode) as (_ & _ & Hleaves).
  rewrite forallb_forall in Hleaves. specialize (Hleaves _ Hentry).
  unfold leafEntry in Hleaves. cbn [fst snd] in Hleaves.
  destruct x as [| b | n | s | items | props]; try exact I.
  - destruct (arrayMode =? "ignore"); [now left | right].
    cbn [orb] in Hleaves.
    apply orb_true_iff in Hleaves. destruct Hleaves as [Hexpand | Hempty].
    + right. now apply andb_true_iff in Hexpand.
    + left. apply andb_true_iff in Hempty. destruct Hempty as [Hlen _].
      destruct items; [reflexivity | discriminate].
  - apply andb_true_iff in Hleaves. destruct Hleaves as [Hlen Hkey].
    split; [destruct props; [reflexivity | discriminate]|].
    intros ->. discriminate Hkey.
Qed.

Lemma flattenJson_values_are_leaves_witness :
  @nil (string * value) = [] /\ "a" <> "".
Proof.
  apply (flattenJson_values_are_leaves
           (VObj [("a", VObj [])]) "." "index" "a" (VObj [])).
  vm_compute. left. reflexivity.
Defined.

(** X8: flattening is idempotent on a document none of whose terminal
    nodes is recorded under the key "__proto__" (an assignment to that
    key creates no property and can replace the prototype of the record):
    flattening the flattened record again, with the same separator and
    array mode, returns it unchanged. *)
Theorem flattenJson_idempotent (data : value) (separator arrayMode : string)
    (Hkeys : noProtoKey (terminalNodes separator arrayMode data "") = true) :
  flattenJson (VObj (flattenJson data separator arrayMode)) separator arrayMode
  = flattenJson data separator arrayMode.
Proof.
  destruct (flattenJson_invariant data separator arrayMode)
    as (Hord & Hproto & Hleaves).
  set (record := flattenJson data separator arrayMode) in *.
  unfold flattenJson at 1. rewrite walk_assigns_terminalNodes.
  rewrite (terminalNodes_of_leaves _ _ _ Hleaves).
  now apply (assignAll_append record []).
Qed.

Lemma flattenJson_idempotent_witness :
  flattenJson doc_a_rows "." "index" = [("a[0].x", vint 1)]
  /\ flattenJson (VObj (flattenJson doc_a_rows "." "index")) "." "index"
     = flattenJson doc_a_rows "." "index".
Proof.
  split; [reflexivity|].
  exact (flattenJson_idempotent doc_a_rows "." "index" eq_refl).
Defined.

(** ** stableSortKeys keeps the content *)

Lemma objGet_insertProp (k k' : string) (v : value) (o : object) :
  objGet k (insertProp k' v o) = if k =? k' then Some v else objGet k o.
Proof.
  induction o as [|[k0 v0] rest IH]; cbn [insertProp objGet].
  - reflexivity.
  - destruct (String.eqb_spec k' k0) as [->|Hne0].
    + cbn [objGet]. destruct (k =? k0); reflexivity.
    + assert (Hstep : objGet k ((k0, v0) :: insertProp k' v rest)
                      = (if k =? k' then Some v
                         else if k =? k0 then Some v0 else objGet k rest)).
      { cbn [objGet]. rewrite IH.
        destruct (String.eqb_spec k k0) as [->|]; [| reflexivity].
        destruct (String.eqb_spec k0 k'); [congruence | reflexivity]. }
      destruct (arrayIndex k'), (arrayIndex k0);
        try destruct (_ <? _)%N; try exact Hstep; reflexivity.
Qed.

Lemma objGet_objSet (k k' : string) (v : value) (o : object) :
  objGet k (objSet k' v o)
  = if (k =? k') && negb (k' =? "__proto__") then Some v else objGet k o.
Proof.
  unfold objSet. destruct (k' =? "__proto__").
  - now rewrite andb_false_r.
  - rewrite andb_true_r. apply objGet_insertProp.
Qed.

Lemma objGet_rebuild_from (k : string) (keys : list string) (sorted out : object) :
  objGet k
    (fold_left
       (fun out key =>
          match objGet key sorted with
          | Some x => objSet key x out
          | None => out
          end) keys out)
  = if existsb (String.eqb k) keys && negb (k =? "__proto__")
    then match objGet k sorted with
         | Some x => Some x
         | None => objGet k out
         end
    else objGet k out.
Proof.
  revert out. induction keys as [|key rest IH]; intros out; [reflexivity|].
  cbn [fold_left existsb]. rewrite IH.
  destruct (String.eqb_spec k key) as [<-|Hne]; cbn [orb].
  - destruct (objGet k sorted) as [x|] eqn:Hx.
    + rewrite objGet_objSet, String.eqb_refl. cbn [andb].
      destruct (k =? "__proto__"); cbn [negb];
        rewrite ?andb_false_r, ?andb_true_r;
        destruct (existsb (String.eqb k) rest); reflexivity.
    + destruct (existsb (String.eqb k) rest && negb (k =? "__proto__"));
        destruct (negb (k =? "__proto__")); reflexivity.
  - assert (Hkeep : objGet k
              match objGet key sorted with
              | Some x => objSet key x out
              | None => out
              end = objGet k out).
    { destruct (objGet key sorted); [| reflexivity].
      rewrite objGet_objSet.
      destruct (String.eqb_spec k key); [congruence | reflexivity]. }
    rewrite Hkeep. reflexivity.
Qed.

Lemma existsb_eqb_In (k : string) (keys : list string) :
  existsb (String.eqb k) keys = true <-> In k keys.
Proof.
  rewrite existsb_exists. split.
  - intros (x & Hin & Heq). apply String.eqb_eq in Heq. now subst.
  - intros Hin. exists k. split; [assumption | apply String.eqb_refl].
Qed.

Lemma objGet_stableSortKeys (props : object) (k : string) :
  objGet k (propsOf (stableSortKeys (VObj props)))
  = (if k =? "__proto__" then None
     else option_map stableSortKeys (objGet k props)).
Proof.
  cbn [stableSortKeys propsOf]. unfold rebuild.
  rewrite objGet_rebuild_from, objGet_map_values. cbn [objGet].
  destruct (k =? "__proto__"); [now rewrite andb_false_r|].
  rewrite andb_true_r.
  destruct (objGet k props) as [x|] eqn:Hx; cbn [option_map].
  - destruct (existsb _ _) eqn:Hex; [reflexivity|].
    apply objGet_key_In in Hx.
    apply (proj2 (sortKeys_In _ _)), existsb_eqb_In in Hx. congruence.
  - destruct (existsb _ _); reflexivity.
Qed.

(** X9: sorting the keys keeps the content of a mapping: the result is a
    mapping in which every key other than "__proto__" holds the
    normalised value it held before, and absent keys stay absent; a key
    "__proto__" is lost, because it is re-created by assignment. *)
Theorem stableSortKeys_keeps_properties (props : object) (k : string) :
  stableSortKeys (VObj props) = VObj (propsOf (stableSortKeys (VObj props)))
  /\ objGet k (propsOf (stableSortKeys (VObj props)))
     = (if k =? "__proto__" then None
        else option_map stableSortKeys (objGet k props)).
Proof.
  split; [reflexivity | apply objGet_stableSortKeys].
Qed.


Lemma insertKey_permutation (k : string) (l : list string) :
  Permutation (insertKey k l) (k :: l).
Proof.
  induction l as [|h t IH]; cbn; [reflexivity|].
  destruct (k <=? h)%string; [reflexivity|].
  rewrite IH. apply perm_swap.
Qed.

Lemma sortKeys_is_permutation (l : list string) : Permutation (sortKeys l) l.
Proof.
  unfold sortKeys. induction l as [|h t IH]; cbn [fold_right]; [reflexivity|].
  rewrite insertKey_permutation. now constructor.
Qed.

Lemma insertKey_sorted (k : string) (l : list string) :
  StronglySorted (fun a b => (a <=? b)%string = true) l ->
  StronglySorted (fun a b => (a <=? b)%string = true) (insertKey k l).
Proof.
  induction 1 as [|h t Hsorted IH Hall]; cbn.
  - repeat constructor.
  - destruct (k <=? h)%string eqn:Hkh.
    + constructor; [now constructor|].
      constructor; [assumption|].
      rewrite Forall_forall in *. intros x Hx.
      apply (string_leb_trans _ _ _ Hkh (Hall _ Hx)).
    + constructor; [assumption|].
      rewrite Forall_forall in *. intros x Hx.
      apply (Permutation_in _ (insertKey_permutation k t)) in Hx.
      destruct Hx as [<- | Hx]; [| now apply Hall].
      destruct (String.leb_total h k); congruence.
Qed.

Lemma sortKeys_sorted (l : list string) :
  StronglySorted (fun a b => (a <=? b)%string = true) (sortKeys l).
Proof.
  unfold sortKeys. induction l as [|h t IH]; cbn [fold_right];
    [constructor | now apply insertKey_sorted].
Qed.

Lemma insertProp_length_absent (k : string) (v : value) (o : object) :
  objGet k o = None ->
  List.length (insertProp k v o) = S (List.length o).
Proof.
  induction o as [|[k' v'] rest IH]; cbn [objGet insertProp]; [reflexivity|].
  destruct (k =? k'); [discriminate|]. intros Habsent.
  destruct (arrayIndex k), (arrayIndex k'); try destruct (_ <? _)%N;
    cbn [List.length]; rewrite ?(IH Habsent); reflexivity.
Qed.

Lemma insertProp_append_plain (k : string) (v : value) (o : object) :
  arrayIndex k = None -> objGet k o = None ->
  insertProp k v o = o ++ [(k, v)].
Proof.
  intros Hplain. induction o as [|[k' v'] rest IH]; cbn [objGet insertProp];
    [reflexivity|].
  destruct (k =? k'); [discriminate|]. intros Habsent.
  rewrite Hplain, (IH Habsent). reflexivity.
Qed.

(** The loop of [stableSortKeys] over keys that are distinct, present in
    the mapping and different from "__proto__". *)
Lemma rebuild_from_shape (keys : list string) (sorted out : object) :
  NoDup keys ->
  (forall k, In k keys ->
     (k =? "__proto__") = false /\ objGet k out = None
     /\ exists x, objGet k sorted = Some x) ->
  let result :=
    fold_left
      (fun out key =>
         match objGet key sorted with
         | Some x => objSet key x out
         | None => out
         end) keys out in
  List.length result = (List.length out + List.length keys)%nat
  /\ ((forall k, In k keys -> arrayIndex k = None) ->
      map fst result = map fst out ++ keys).
Proof.
  revert out. induction keys as [|key rest IH]; intros out Hnodup Hkeys; cbn zeta.
  - cbn. split; [lia | intros _; now rewrite app_nil_r].
  - inversion Hnodup as [|? ? Hfresh Hnodup']; subst.
    destruct (Hkeys key (or_introl eq_refl)) as (Hproto & Habsent & x & Hx).
    cbn [fold_left]. rewrite Hx.
    replace (objSet key x out) with (insertProp key x out)
      by (unfold objSet; now rewrite Hproto).
    specialize (IH (insertProp key x out) Hnodup').
    assert (Hrest : forall k, In k rest ->
              (k =? "__proto__") = false
              /\ objGet k (insertProp key x out) = None
              /\ exists y, objGet k sorted = Some y).
    { intros k Hk. destruct (Hkeys k (or_intror Hk)) as (Hp & Ha & Hy).
      repeat split; try assumption.
      rewrite objGet_insertProp.
      destruct (String.eqb_spec k key) as [->|]; [contradiction | assumption]. }
    destruct (IH Hrest) as [Hlen Hshape]. cbn zeta in Hlen, Hshape. split.
    + rewrite Hlen, (insertProp_length_absent _ _ _ Habsent). cbn. lia.
    + intros Hplain. rewrite Hshape by (intros k Hk; apply Hplain; now right).
      rewrite (insertProp_append_plain key x out
                 (Hplain key (or_introl eq_refl)) Habsent).
      rewrite map_app, <- app_assoc. reflexivity.
Qed.

Lemma rebuild_shape (props : object) (f : value -> value) :
  distinctKeys (map fst props) = true ->
  noProtoKey props = true ->
  let result :=
    rebuild (sortKeys (map fst props))
      (map (fun entry => (fst entry, f (snd entry))) props) in
  List.length result = List.length props
  /\ ((forall k, In k (map fst props) -> arrayIndex k = None) ->
      map fst result = sortKeys (map fst props)).
Proof.
  intros Hdistinct Hproto. cbn zeta. unfold rebuild.
  pose proof (sortKeys_is_permutation (map fst props)) as Hperm.
  destruct (rebuild_from_shape (sortKeys (map fst props))
              (map (fun entry => (fst entry, f (snd entry))) props) [])
    as [Hlen Hshape].
  - apply (Permutation_NoDup (Permutation_sym Hperm)).
    now apply distinctKeys_NoDup.
  - intros k Hk. apply (proj1 (sortKeys_In _ _)) in Hk.
    repeat split.
    + unfold noProtoKey in Hproto. rewrite forallb_forall in Hproto.
      apply in_map_iff in Hk. destruct Hk as (entry & <- & Hentry).
      now apply negb_true_iff, Hproto.
    + destruct (In_key_objGet _ _ Hk) as [x Hx].
      exists (f x). now rewrite objGet_map_values, Hx.
  - cbn zeta in Hlen, Hshape. split.
    + rewrite Hlen. cbn. rewrite (Permutation_length Hperm). apply length_map.
    + intros Hplain. apply Hshape. intros k Hk. apply Hplain.
      now apply (proj1 (sortKeys_In _ _)).
Qed.

(** X10: in a mapping with distinct keys, none of them an array index or
    "__proto__", [stableSortKeys] leaves the keys in ascending order of
    their code units. *)
Theorem stableSortKeys_orders_plain_keys (props : object)
    (Hdistinct : distinctKeys (map fst props) = true)
    (Hproto : noProtoKey props = true)
    (Hplain : forallb (fun entry =>
                         match arrayIndex (fst entry) with
                         | Some _ => false
                         | None => true
                         end) props = true) :
  map fst (propsOf (stableSortKeys (VObj props))) = sortKeys (map fst props)
  /\ StronglySorted (fun a b => (a <=? b)%string = true)
       (map fst (propsOf (stableSortKeys (VObj props)))).
Proof.
  assert (Hkeys : map fst (propsOf (stableSortKeys (VObj props)))
                  = sortKeys (map fst props)).
  { cbn [stableSortKeys propsOf].
    apply (rebuild_shape props stableSortKeys Hdistinct Hproto).
    intros k Hk. apply in_map_iff in Hk. destruct Hk as (entry & <- & Hentry).
    rewrite forallb_forall in Hplain. specialize (Hplain _ Hentry).
    destruct (arrayIndex (fst entry)); [discriminate | reflexivity]. }
  split; [exact Hkeys|]. rewrite Hkeys. apply sortKeys_sorted.
Qed.

Lemma stableSortKeys_orders_plain_keys_witness :
  map fst (propsOf (stableSortKeys doc_b_a)) = sortKeys ["b"; "a"].
Proof.
  apply (stableSortKeys_orders_plain_keys [("b", vint 2); ("a", vint 1)]);
    reflexivity.
Defined.

Lemma structEq_stableSortKeys (v : value) :
  wellFormed v = true -> noProtoDeep v = true ->
  structEq v (stableSortKeys v) = true.
Proof.
  induction v as [| b | n | s | items IH | props IH] using value_nested_ind;
    intros Hwf Hproto.
  - reflexivity.
  - apply Bool.eqb_reflx.
  - apply number_eqb_refl.
  - apply String.eqb_refl.
  - cbn [stableSortKeys structEq]. cbn in Hwf, Hproto.
    induction IH as [|x rest Hx _ IHrest]; [reflexivity|].
    cbn in Hwf, Hproto. apply andb_true_iff in Hwf, Hproto.
    destruct Hwf as [Hwx Hwrest], Hproto as [Hpx Hprest].
    cbn [map]. apply andb_true_iff. split; [now apply Hx | now apply IHrest].
  - cbn [stableSortKeys structEq]. cbn in Hwf, Hproto.
    apply andb_true_iff in Hwf, Hproto.
    destruct Hwf as [Hdistinct Hwvals], Hproto as [Hnoproto Hpvals].
    destruct (rebuild_shape props stableSortKeys Hdistinct Hnoproto)
      as [Hlen _]. cbn zeta in Hlen. rewrite Hlen, Nat.eqb_refl. cbn [andb].
    unfold noProtoKey in Hnoproto.
    rewrite forallb_forall in *. rewrite Forall_forall in IH.
    intros [k x] Hin. cbn [fst snd].
    pose proof (objGet_stableSortKeys props k) as Hget.
    cbn [stableSortKeys propsOf] in Hget. rewrite Hget.
    pose proof (Hnoproto _ Hin) as Hk. cbn in Hk.
    apply negb_true_iff in Hk. rewrite Hk.
    rewrite (objGet_distinct_In k x props (distinctKeys_NoDup _ Hdistinct) Hin).
    cbn [option_map]. apply (IH _ Hin); [apply (Hwvals _ Hin) | apply (Hpvals _ Hin)].
Qed.

(** X11: [stableSortKeys] changes only the order of keys and is
    idempotent, on documents whose mappings have distinct keys, none of
    them "__proto__": the result is structurally equal to the document,
    and normalising it again changes nothing. *)
Theorem stableSortKeys_idempotent (v : value)
    (Hwf : wellFormed v = true) (Hproto : noProtoDeep v = true) :
  structEq v (stableSortKeys v) = true
  /\ stableSortKeys (stableSortKeys v) = stableSortKeys v.
Proof.
  pose proof (structEq_stableSortKeys v Hwf Hproto) as Heq.
  split; [exact Heq|].
  symmetry. now apply stableSortKeys_structEq.
Qed.

Lemma stableSortKeys_idempotent_witness :
  stableSortKeys (stableSortKeys doc_b_a) = stableSortKeys doc_b_a.
Proof.
  apply (stableSortKeys_idempotent doc_b_a); reflexivity.
Defined.

(** ** uniqueTypes and frequency *)

Lemma setOf_from_spec (xs seen : list string) :
  NoDup seen ->
  let result :=
    fold_left
      (fun seen x => if existsb (String.eqb x) seen then seen else seen ++ [x])
      xs seen in
  NoDup result /\ (forall t, In t result <-> In t seen \/ In t xs).
Proof.
  revert seen. induction xs as [|x rest IH]; intros seen Hnodup; cbn zeta.
  - cbn. split; [assumption | tauto].
  - cbn [fold_left]. destruct (existsb (String.eqb x) seen) eqn:Hseen.
    + destruct (IH seen Hnodup) as [Hnd Hin]. split; [exact Hnd|].
      intros t. rewrite (Hin t). apply existsb_eqb_In in Hseen.
      cbn. intuition congruence.
    + assert (Hfresh : ~ In x seen).
      { intros Hin. apply existsb_eqb_In in Hin. congruence. }
      destruct (IH (seen ++ [x])) as [Hnd Hin].
      { apply NoDup_app; [assumption | repeat constructor; intros [] |].
        intros y Hy [<- | []]. contradiction. }
      split; [exact Hnd|]. intros t. rewrite (Hin t), in_app_iff. cbn. tauto.
Qed.

Lemma setOf_spec (xs : list string) :
  NoDup (setOf xs) /\ (forall t, In t (setOf xs) <-> In t xs).
Proof.
  destruct (setOf_from_spec xs [] (NoDup_nil _)) as [Hnd Hin].
  split; [exact Hnd|]. intros t. rewrite (Hin t). cbn. tauto.
Qed.

(** X12: [uniqueTypes] returns exactly the type names that occur among
    the values, each once, in ascending order. *)
Theorem uniqueTypes_sorted_distinct (values : list value) :
  (forall t, In t (uniqueTypes values)
             <-> exists v, In v values /\ typeName v = t)
  /\ NoDup (uniqueTypes values)
  /\ StronglySorted (fun a b => (a <=? b)%string = true) (uniqueTypes values).
Proof.
  unfold uniqueTypes.
  destruct (setOf_spec (map typeName values)) as [Hnd Hin].
  split; [| split].
  - intros t. rewrite sortKeys_In, Hin, in_map_iff.
    split; intros (v & H1 & H2); exists v; tauto.
  - apply (Permutation_NoDup (Permutation_sym (sortKeys_is_permutation _)) Hnd).
  - apply sortKeys_sorted.
Qed.

(** X13: [uniqueTypes] depends only on which type names occur, not on
    the order of the values or on how often a type occurs. *)
Theorem uniqueTypes_depends_on_tags_only (values values' : list value)
    (Hsame : forall t, In t (map typeName values) <-> In t (map typeName values')) :
  uniqueTypes values = uniqueTypes values'.
Proof.
  unfold uniqueTypes. apply sortKeys_permutation.
  destruct (setOf_spec (map typeName values)) as [Hnd Hin].
  destruct (setOf_spec (map typeName values')) as [Hnd' Hin'].
  apply NoDup_Permutation; try assumption.
  intros t. now rewrite Hin, Hin', Hsame.
Qed.

Lemma uniqueTypes_depends_on_tags_only_witness :
  uniqueTypes [VStr "a"; vint 1; VStr "b"] = uniqueTypes [vint 2; VStr "c"].
Proof.
  apply uniqueTypes_depends_on_tags_only.
  intros t. cbn. tauto.
Defined.

Lemma mapGet_mapSet (k k' : string) (n : nat) (m : counter) :
  mapGet k (mapSet k' n m) = if k =? k' then Some n else mapGet k m.
Proof.
  induction m as [|[k0 n0] rest IH]; cbn [mapSet mapGet]; [reflexivity|].
  destruct (String.eqb_spec k' k0) as [->|Hne]; cbn [mapGet].
  - destruct (k =? k0); reflexivity.
  - rewrite IH. destruct (String.eqb_spec k k0) as [->|]; [| reflexivity].
    destruct (String.eqb_spec k0 k'); [congruence | reflexivity].
Qed.

Lemma mapSet_keys (k : string) (n : nat) (m : counter) :
  map fst (mapSet k n m)
  = if existsb (String.eqb k) (map fst m) then map fst m else map fst m ++ [k].
Proof.
  induction m as [|[k0 n0] rest IH]; cbn [mapSet map fst existsb]; [reflexivity|].
  destruct (String.eqb_spec k k0) as [->|Hne]; [reflexivity|].
  cbn [map fst orb]. rewrite IH. destruct (existsb _ _); reflexivity.
Qed.

Lemma mapSet_increment_sum (k : string) (m : counter) :
  list_sum (map snd (mapSet k (match mapGet k m with
                               | Some n => n
                               | None => 0
                               end + 1) m))
  = (list_sum (map snd m) + 1)%nat.
Proof.
  induction m as [|[k0 n0] rest IH]; cbn [mapSet mapGet]; [reflexivity|].
  destruct (k =? k0); cbn [map snd].
  - change (list_sum (?x :: ?l)) with (x + list_sum l)%nat. lia.
  - change (list_sum (?x :: ?l)) with (x + list_sum l)%nat.
    rewrite IH. lia.
Qed.

Lemma frequency_from_spec (values : list value) (counts : counter) (k : string) :
  let result := fold_left frequencyStep values counts in
  let occurrences := count_occ string_dec (map stableKey values) k in
  mapGet k result
  = (if Nat.eqb occurrences 0 then mapGet k counts
     else Some (match mapGet k counts with
                | Some n => n
                | None => 0
                end + occurrences)%nat)
  /\ list_sum (map snd result)
     = (list_sum (map snd counts) + List.length values)%nat
  /\ (NoDup (map fst counts) -> NoDup (map fst result)).
Proof.
  revert counts. induction values as [|v rest IH]; intros counts; cbn zeta.
  - split; [reflexivity | split; [cbn [fold_left List.length]; lia | trivial]].
  - cbn [fold_left map count_occ List.length].
    destruct (IH (frequencyStep counts v)) as (Hget & Hsum & Hnodup).
    cbn zeta in Hget, Hsum, Hnodup. split; [| split].
    + rewrite Hget. unfold frequencyStep at 1 2. cbn zeta.
      rewrite mapGet_mapSet.
      destruct (string_dec (stableKey v) k) as [->|Hne].
      * rewrite String.eqb_refl. cbn [Nat.eqb].
        destruct (count_occ string_dec (map stableKey rest) k); cbn [Nat.eqb];
          f_equal; lia.
      * replace (k =? stableKey v) with false
          by (symmetry; apply String.eqb_neq; congruence).
        reflexivity.
    + rewrite Hsum. unfold frequencyStep. cbn zeta.
      rewrite mapSet_increment_sum. lia.
    + intros Hnd. apply Hnodup. unfold frequencyStep. cbn zeta.
      rewrite mapSet_keys. destruct (existsb _ _) eqn:Hseen; [assumption|].
      apply NoDup_app; [assumption | repeat constructor; intros [] |].
      intros y Hy [<- | []]. apply existsb_eqb_In in Hy. congruence.
Qed.

(** X14: [frequency] counts occurrences per stable key: the count under
    a key is the number of values with that stable key, a key that no
    value has is absent, every key occurs once, and the counts add up to
    the number of values. *)
Theorem frequency_counts_occurrences (values : list value) (k : string) :
  mapGet k (frequency values)
  = (let occurrences := count_occ string_dec (map stableKey values) k in
     if Nat.eqb occurrences 0 then None else Some occurrences)
  /\ NoDup (map fst (frequency values))
  /\ list_sum (map snd (frequency values)) = List.length values.
Proof.
  destruct (frequency_from_spec values [] k) as (Hget & Hsum & Hnodup).
  cbn zeta in *. repeat split.
  - exact Hget.
  - apply Hnodup. constructor.
  - exact Hsum.
Qed.

(** ** Record selection in the commands *)

Lemma resolveArray_string_ok (data : value) (s : string) :
  exists rows, resolveArray data (PathString s) = Ok rows.
Proof.
  unfold resolveArray. destruct (pathTruthy (PathString s)).
  - rewrite extractValues_evalTokens. cbn [bind].
    destruct (firstArray _); [eauto|]. destruct (firstObject _); eauto.
  - destruct data; eauto.
Qed.

Lemma resolveArray_absent_ok (data : value) :
  exists rows, resolveArray data PathAbsent = Ok rows.
Proof. destruct data; cbn; eauto. Qed.

(** X15: with the fallback of the commands there is always at least one
    record to work on, unless the document is the empty array: for a
    path given as a string the record list is empty only when the
    document is [[]]. *)
Theorem recordsOrDocument_nonempty (data : value) (s : string) :
  exists rows,
    recordsOrDocument data (PathString s) = Ok rows
    /\ (rows = [] -> data = VArr []).
Proof.
  unfold recordsOrDocument.
  destruct (resolveArray_string_ok data s) as [rows ->]. cbn [bind].
  eexists. split; [reflexivity|].
  destruct rows as [|r rows]; cbn [List.length Nat.eqb].
  - destruct data; try discriminate. now intros ->.
  - discriminate.
Qed.

Lemma slice_segment (start : Z) (stop : option Z) (rows : list value) :
  exists before after, rows = before ++ slice start stop rows ++ after.
Proof.
  unfold slice. cbn zeta.
  set (from := sliceBound (List.length rows) start).
  set (to := match stop with
             | Some e => sliceBound (List.length rows) e
             | None => List.length rows
             end).
  exists (firstn from rows), (skipn (to - from) (skipn from rows)).
  now rewrite firstn_skipn, firstn_skipn.
Qed.

(** X16: [selectRows] returns a run of consecutive records of the
    resolved array, in their order: the resolved array is the result
    with some records before it and some after it. *)
Theorem selectRows_is_a_segment (data : value) (s : string)
    (first last : count_arg) :
  exists rows result before after,
    resolveArray data (PathString s) = Ok rows
    /\ selectRows data (PathString s) first last = Ok result
    /\ rows = before ++ result ++ after.
Proof.
  unfold selectRows.
  destruct (resolveArray_string_ok data s) as [rows ->]. cbn [bind].
  assert (Hfirst : exists b a,
            rows = b ++ match first with
                        | CountNull => rows
                        | CountNaN => slice 0 (Some 0%Z) rows
                        | CountInt n => slice 0 (Some (maxZero n)) rows
                        end ++ a).
  { destruct first; [exists [], []; now rewrite app_nil_r
                    | apply slice_segment ..]. }
  destruct Hfirst as (b1 & a1 & H1).
  set (kept := match first with
               | CountNull => rows
               | CountNaN => slice 0 (Some 0%Z) rows
               | CountInt n => slice 0 (Some (maxZero n)) rows
               end) in *.
  assert (Hlast : exists b a,
            kept = b ++ match last with
                        | CountNull => kept
                        | CountNaN => slice 0 None kept
                        | CountInt n => slice (- maxZero n) None kept
                        end ++ a).
  { destruct last; [exists [], []; now rewrite app_nil_r
                   | apply slice_segment ..]. }
  destruct Hlast as (b2 & a2 & H2).
  eexists rows, _, (b1 ++ b2), (a2 ++ a1).
  split; [reflexivity|]. split; [reflexivity|].
  rewrite H1 at 1. rewrite H2 at 1. now rewrite <- !app_assoc.
Qed.

Lemma slice_first_length (n : Z) (rows : list value) :
  List.length (slice 0 (Some (maxZero n)) rows)
  = Nat.min (Z.to_nat n) (List.length rows).
Proof.
  unfold slice, sliceBound, maxZero. cbn zeta.
  replace (0 <? 0)%Z with false by reflexivity.
  replace (Z.max n 0 <? 0)%Z with false by (symmetry; apply Z.ltb_ge; lia).
  cbn [Z.to_nat Nat.min skipn]. rewrite Nat.sub_0_r, length_firstn.
  lia.
Qed.

Lemma slice_last_length (n : Z) (rows : list value) :
  List.length (slice (- maxZero n) None rows)
  = if (n <=? 0)%Z then List.length rows
    else Nat.min (Z.to_nat n) (List.length rows).
Proof.
  unfold slice, sliceBound, maxZero. cbn zeta.
  destruct (n <=? 0)%Z eqn:Hn.
  - apply Z.leb_le in Hn. replace (Z.max n 0) with 0%Z by lia.
    cbn. rewrite Nat.sub_0_r. now rewrite firstn_all.
  - apply Z.leb_gt in Hn.
    replace (- Z.max n 0 <? 0)%Z with true by (symmetry; apply Z.ltb_lt; lia).
    rewrite length_firstn, length_skipn. lia.
Qed.

Lemma firstn_min_length {A : Type} (k : nat) (l : list A) :
  firstn (Nat.min k (List.length l)) l = firstn k l.
Proof.
  destruct (Nat.le_gt_cases k (List.length l)) as [Hle | Hgt].
  - now rewrite Nat.min_l.
  - rewrite Nat.min_r by lia. rewrite firstn_all.
    symmetry. apply firstn_all2. lia.
Qed.

Lemma slice_first (n : Z) (rows : list value) :
  slice 0 (Some (maxZero n)) rows = firstn (Z.to_nat n) rows.
Proof.
  unfold slice, sliceBound, maxZero. cbn zeta.
  replace (0 <? 0)%Z with false by reflexivity.
  replace (Z.max n 0 <? 0)%Z with false by (symmetry; apply Z.ltb_ge; lia).
  cbn [Z.to_nat Nat.min skipn]. rewrite Nat.sub_0_r.
  replace (Z.to_nat (Z.max n 0)) with (Z.to_nat n) by lia.
  apply firstn_min_length.
Qed.

Lemma slice_last (n : Z) (rows : list value) :
  slice (- maxZero n) None rows
  = if (n <=? 0)%Z then rows
    else skipn (List.length rows - Z.to_nat n) rows.
Proof.
  unfold slice, sliceBound, maxZero. cbn zeta.
  destruct (n <=? 0)%Z eqn:Hn.
  - apply Z.leb_le in Hn. replace (Z.max n 0) with 0%Z by lia.
    cbn. rewrite Nat.sub_0_r. apply firstn_all.
  - apply Z.leb_gt in Hn.
    replace (- Z.max n 0 <? 0)%Z with true by (symmetry; apply Z.ltb_lt; lia).
    replace (Z.to_nat (Z.max (Z.of_nat (List.length rows) + - Z.max n 0) 0))
      with (List.length rows - Z.to_nat n)%nat by lia.
    apply firstn_all2. rewrite length_skipn. lia.
Qed.

(** X17: the records [selectRows] returns: [first = n] alone keeps the
    first [n] records of the resolved array (all of them when it has
    fewer, none for [n <= 0]), while [last = n] alone keeps the last [n]
    records for positive [n] (all of them when it has fewer) but all
    records for [n <= 0]; the numbers of records kept follow. *)
Theorem selectRows_counts (data : value) (s : string) (n : Z) :
  exists rows kept_first kept_last,
    resolveArray data (PathString s) = Ok rows
    /\ selectRows data (PathString s) (CountInt n) CountNull = Ok kept_first
    /\ selectRows data (PathString s) CountNull (CountInt n) = Ok kept_last
    /\ kept_first = firstn (Z.to_nat n) rows
    /\ kept_last
       = (if (n <=? 0)%Z then rows
          else skipn (List.length rows - Z.to_nat n) rows)
    /\ List.length kept_first = Nat.min (Z.to_nat n) (List.length rows)
    /\ List.length kept_last
       = (if (n <=? 0)%Z then List.length rows
          else Nat.min (Z.to_nat n) (List.length rows)).
Proof.
  unfold selectRows.
  destruct (resolveArray_string_ok data s) as [rows ->]. cbn [bind].
  eexists rows, _, _. split; [reflexivity|]. split; [reflexivity|].
  split; [reflexivity|].
  split; [apply slice_first|]. split; [apply slice_last|].
  split; [apply slice_first_length | apply slice_last_length].
Qed.

(** ** Merging documents *)

Lemma objGet_objAssign (k k' : string) (v : value) (o : object) :
  objGet k (objAssign k' v o)
  = if (k' =? "__proto__")
       && match objGet k' o with Some _ => false | None => true end
    then objGet k o
    else if k =? k' then Some v else objGet k o.
Proof.
  unfold objAssign. destruct (_ && _); [reflexivity | apply objGet_insertProp].
Qed.

Lemma objGet_objAssign_other (k k' : string) (v : value) (o : object) :
  (k =? "__proto__") = false ->
  objGet k (objAssign k' v o) = if k =? k' then Some v else objGet k o.
Proof.
  intros Hk. rewrite objGet_objAssign.
  destruct (String.eqb_spec k' "__proto__") as [->|]; [| reflexivity].
  rewrite Hk. destruct (objGet "__proto__" o); reflexivity.
Qed.

Lemma objGet_distinct_head (k : string) (v : value) (rest : object) :
  NoDup (map fst ((k, v) :: rest)) -> objGet k rest = None.
Proof.
  intros Hnodup. inversion Hnodup as [|? ? Hfresh _]; subst.
  destruct (objGet k rest) as [x|] eqn:Hx; [| reflexivity].
  exfalso. apply Hfresh. now apply objGet_key_In in Hx.
Qed.

Lemma objGet_objectAssign (k : string) (out obj : object) :
  (k =? "__proto__") = false ->
  NoDup (map fst obj) ->
  objGet k (objectAssign out obj)
  = match objGet k obj with
    | Some v => Some v
    | None => objGet k out
    end.
Proof.
  intros Hk. unfold objectAssign. revert out.
  induction obj as [|[k1 v1] rest IH]; intros out Hnodup; [reflexivity|].
  cbn [fold_left fst snd objGet].
  rewrite IH by (now inversion Hnodup).
  rewrite (objGet_objAssign_other _ _ _ _ Hk).
  destruct (String.eqb_spec k k1) as [->|Hne]; [| reflexivity].
  now rewrite (objGet_distinct_head _ _ _ Hnodup).
Qed.

(** X18: in a shallow merge the last document that has a key decides its
    value: for a key other than "__proto__", merging nothing gives a
    record without the key, and after merging one more object the key
    holds that object's value if the object has the key and what it held
    before otherwise. *)
Theorem shallowMerge_last_wins (objects : list object) (obj : object) (k : string)
    (Hk : (k =? "__proto__") = false)
    (Hdistinct : distinctKeys (map fst obj) = true) :
  objGet k (shallowMerge []) = None
  /\ objGet k (shallowMerge (objects ++ [obj]))
     = match objGet k obj with
       | Some v => Some v
       | None => objGet k (shallowMerge objects)
       end.
Proof.
  split; [reflexivity|].
  unfold shallowMerge. rewrite fold_left_app. cbn [fold_left].
  apply objGet_objectAssign; [assumption | now apply distinctKeys_NoDup].
Qed.

Lemma shallowMerge_last_wins_witness :
  objGet "a" (shallowMerge ([[("a", vint 1); ("b", vint 2)]] ++ [[("a", vint 3)]]))
  = Some (vint 3)
  /\ objGet "b" (shallowMerge ([[("a", vint 1); ("b", vint 2)]] ++ [[("a", vint 3)]]))
     = Some (vint 2).
Proof.
  split.
  - apply (shallowMerge_last_wins [[("a", vint 1); ("b", vint 2)]]
             [("a", vint 3)] "a"); reflexivity.
  - apply (shallowMerge_last_wins [[("a", vint 1); ("b", vint 2)]]
             [("a", vint 3)] "b"); reflexivity.
Defined.

Lemma deepMerge_fold_lookup (k : string) (rightProps : object) :
  NoDup (map fst rightProps) ->
  forall merged,
    objGet k
      (fold_left
         (fun merged entry =>
            match objGet (fst entry) merged with
            | Some current =>
                objAssign (fst entry) (deepMergeValues current (snd entry)) merged
            | None => objAssign (fst entry) (deepClone (snd entry)) merged
            end) rightProps merged)
    = match objGet k merged, objGet k rightProps with
      | Some x, Some y => Some (deepMergeValues x y)
      | None, Some y => if k =? "__proto__" then None else Some y
      | found, None => found
      end.
Proof.
  induction rightProps as [|[k1 y1] rest IH]; intros Hnodup merged.
  - cbn. destruct (objGet k merged); reflexivity.
  - cbn [fold_left fst snd]. rewrite IH by (now inversion Hnodup).
    cbn [objGet].
    destruct (String.eqb_spec k k1) as [->|Hne].
    + rewrite (objGet_distinct_head _ _ _ Hnodup).
      destruct (objGet k1 merged) as [x|] eqn:Hx;
        rewrite objGet_objAssign; rewrite ?Hx; rewrite String.eqb_refl;
        unfold deepClone.
      * now rewrite andb_false_r.
      * rewrite andb_true_r. destruct (k1 =? "__proto__"); reflexivity.
    + assert (Hkeep : forall v, objGet k (objAssign k1 v merged) = objGet k merged).
      { intros v. rewrite objGet_objAssign.
        destruct (_ && _); [reflexivity|].
        destruct (String.eqb_spec k k1); [congruence | reflexivity]. }
      destruct (objGet k1 merged); rewrite Hkeep; reflexivity.
Qed.

(** X19: the deep merge of two mappings, key by key: a key of both holds
    the deep merge of the two values, a key of the right mapping alone
    holds the right value (a "__proto__" key of the right mapping alone
    is lost), and a key of the left mapping alone keeps its value; two
    arrays are concatenated. *)
Theorem deepMergeValues_by_key (leftProps rightProps : object) (k : string)
    (Hdistinct : distinctKeys (map fst rightProps) = true) :
  objGet k (propsOf (deepMergeValues (VObj leftProps) (VObj rightProps)))
  = match objGet k leftProps, objGet k rightProps with
    | Some x, Some y => Some (deepMergeValues x y)
    | None, Some y => if k =? "__proto__" then None else Some y
    | found, None => found
    end
  /\ (forall xs ys, deepMergeValues (VArr xs) (VArr ys) = VArr (xs ++ ys)).
Proof.
  split; [| reflexivity].
  cbn [deepMergeValues propsOf].
  apply deepMerge_fold_lookup. now apply distinctKeys_NoDup.
Qed.

Lemma deepMergeValues_by_key_witness :
  objGet "a"
    (propsOf (deepMergeValues (VObj [("a", VArr [vint 1])])
                              (VObj [("a", VArr [vint 2])])))
  = Some (VArr [vint 1; vint 2]).
Proof.
  apply (deepMergeValues_by_key [("a", VArr [vint 1])] [("a", VArr [vint 2])] "a").
  reflexivity.
Defined.

Lemma enumerationOrder_last_fresh (k : string) (v : value) (o : object) :
  enumerationOrder (o ++ [(k, v)]) = true -> objGet k o = None.
Proof.
  induction o as [|[k' v'] rest IH]; [reflexivity|].
  cbn [app enumerationOrder objGet]. rewrite forallb_app, !andb_true_iff.
  cbn [forallb fst]. rewrite andb_true_r. intros [[_ Hbefore] Hrest].
  unfold keyBefore in Hbefore. apply andb_true_iff in Hbefore.
  destruct Hbefore as [Hne _]. apply negb_true_iff in Hne.
  rewrite String.eqb_sym, Hne. now apply IH.
Qed.

(** X20: deep merging a mapping into the empty mapping, which is how the
    command starts, returns the mapping itself, for a mapping that is a
    JavaScript object without a "__proto__" key; merging the empty
    mapping into a mapping changes nothing. *)
Theorem deepMergeValues_empty (props : object)
    (Horder : enumerationOrder props = true)
    (Hproto : noProtoKey props = true) :
  deepMergeValues (VObj []) (VObj props) = VObj props
  /\ deepMergeValues (VObj props) (VObj []) = VObj props.
Proof.
  split; [| reflexivity].
  cbn [deepMergeValues]. f_equal.
  change props with ([] ++ props) at 2.
  change props with ([] ++ props) in Horder.
  generalize dependent (@nil (string * value)).
  induction props as [|[k v] rest IH]; intros merged Horder; cbn [fold_left].
  - now rewrite app_nil_r.
  - cbn in Hproto. apply andb_true_iff in Hproto.
    destruct Hproto as [Hk Hrest]. apply negb_true_iff in Hk.
    change (merged ++ (k, v) :: rest) with (merged ++ [(k, v)] ++ rest) in *.
    rewrite app_assoc in *.
    pose proof (enumerationOrder_app_l _ _ Horder) as Hprefix.
    cbn [fst snd]. rewrite (enumerationOrder_last_fresh _ _ _ Hprefix).
    unfold objAssign, deepClone. rewrite Hk. cbn [andb].
    rewrite (insertProp_append _ _ _ Hprefix).
    now apply IH.
Qed.

Lemma deepMergeValues_empty_witness :
  deepMergeValues (VObj []) doc_a_b = doc_a_b.
Proof.
  apply (deepMergeValues_empty
           [("a", VObj [("x", vint 1)]); ("b", VObj [("y", vint 2)])]);
    reflexivity.
Defined.


Lemma firstValue_string_ok (item : value) (s : string) (dflt : value) :
  exists key, firstValue item (PathString s) dflt = Ok key.
Proof.
  unfold firstValue. rewrite extractValues_evalTokens. cbn [bind]. eauto.
Qed.

Lemma dedupeStep_spec (uniqueBy : string) (seen : list string)
    (kept : list value) (item : value) :
  dedupeStep uniqueBy (Ok (seen, kept)) item
  = if existsb (String.eqb (itemToken uniqueBy item)) seen
    then Ok (seen, kept)
    else Ok (seen ++ [itemToken uniqueBy item], kept ++ [item]).
Proof.
  unfold dedupeStep, itemToken. cbn [bind].
  destruct (firstValue_string_ok item uniqueBy VNull) as [key ->].
  reflexivity.
Qed.

Lemma dedupe_fold_spec (uniqueBy : string) (items kept : list value) :
  NoDup (map (itemToken uniqueBy) kept) ->
  exists added,
    fold_left (dedupeStep uniqueBy) items
      (Ok (map (itemToken uniqueBy) kept, kept))
    = Ok (map (itemToken uniqueBy) (kept ++ added), kept ++ added)
    /\ NoDup (map (itemToken uniqueBy) (kept ++ added))
    /\ subsequence added items
    /\ (forall x, In x items ->
          In (itemToken uniqueBy x) (map (itemToken uniqueBy) (kept ++ added))).
Proof.
  revert kept. induction items as [|item rest IH]; intros kept Hnodup.
  - exists []. rewrite app_nil_r. repeat split; try assumption.
    + constructor.
    + intros x [].
  - cbn [fold_left]. rewrite dedupeStep_spec.
    destruct (existsb _ _) eqn:Hseen.
    + destruct (IH kept Hnodup) as (added & Hfold & Hnd & Hsub & Hcover).
      exists added. repeat split; try assumption.
      * now constructor.
      * intros x [<- | Hx]; [| now apply Hcover].
        apply existsb_eqb_In in Hseen.
        rewrite map_app, in_app_iff. now left.
    + assert (Hfresh : ~ In (itemToken uniqueBy item) (map (itemToken uniqueBy) kept)).
      { intros Hin. apply existsb_eqb_In in Hin. congruence. }
      destruct (IH (kept ++ [item])) as (added & Hfold & Hnd & Hsub & Hcover).
      { rewrite map_app. apply NoDup_app; [assumption | repeat constructor; intros [] |].
        intros y Hy [<- | []]. contradiction. }
      exists (item :: added).
      change (kept ++ item :: added) with (kept ++ [item] ++ added).
      rewrite app_assoc.
      rewrite map_app in Hfold at 1. cbn [map] in Hfold.
      repeat split; try assumption.
      * now constructor.
      * intros x [<- | Hx]; [| now apply Hcover].
        rewrite !map_app, !in_app_iff. left. right. now left.
Qed.

(** X21: [mergeArrays] concatenates the arrays; with a non-empty
    [uniqueBy] path it then keeps, in order, a selection of the items in
    which no two items have the same token of their key value, and every
    item of the concatenation has an item with its token in the result. *)
Theorem mergeArrays_deduplicates (arrays : list (list value))
    (c : ascii) (path : string) :
  mergeArrays arrays None = Ok (List.concat arrays)
  /\ mergeArrays arrays (Some EmptyString) = Ok (List.concat arrays)
  /\ exists result,
       mergeArrays arrays (Some (String c path)) = Ok result
       /\ subsequence result (List.concat arrays)
       /\ NoDup (map (itemToken (String c path)) result)
       /\ (forall x, In x (List.concat arrays) ->
             In (itemToken (String c path) x)
                (map (itemToken (String c path)) result)).
Proof.
  split; [reflexivity|]. split; [reflexivity|].
  unfold mergeArrays. cbn [isEmpty].
  destruct (dedupe_fold_spec (String c path) (List.concat arrays) [])
    as (added & Hfold & Hnd & Hsub & Hcover); [constructor|].
  cbn [map app] in *. rewrite Hfold. cbn [bind snd].
  exists added. repeat split; assumption.
Qed.

(** ** The diff of two documents *)

Lemma fold_left_unchanged {A B : Type} (step : A -> B -> A) (keys : list B) (a : A) :
  (forall k, In k keys -> forall a', step a' k = a') ->
  fold_left step keys a = a.
Proof.
  revert a. induction keys as [|k rest IH]; intros a Hstep; [reflexivity|].
  cbn [fold_left]. rewrite (Hstep k (or_introl eq_refl)).
  apply IH. intros k' Hk'. apply Hstep. now right.
Qed.

Lemma filter_none {A : Type} (p : A -> bool) (l : list A) :
  (forall x, In x l -> p x = false) -> filter p l = [].
Proof.
  induction l as [|x rest IH]; intros Hall; [reflexivity|].
  cbn [filter]. rewrite (Hall x (or_introl eq_refl)).
  apply IH. intros y Hy. apply Hall. now right.
Qed.

Lemma assocGet_map
    (f : value -> value -> string -> list change -> list change)
    (k : string) (props : object) :
  assocGet k (map (fun entry => (fst entry, f (snd entry))) props)
  = option_map f (objGet k props).
Proof.
  induction props as [|[k' v] rest IH]; cbn [map assocGet objGet fst snd];
    [reflexivity|].
  destruct (k =? k'); [reflexivity | exact IH].
Qed.

Lemma setOf_In (xs : list string) (t : string) : In t (setOf xs) <-> In t xs.
Proof. apply setOf_spec. Qed.

Lemma setHas_setOf (keys : list string) (k : string) :
  setHas (setOf keys) k = true <-> In k keys.
Proof.
  unfold setHas. rewrite existsb_eqb_In. apply setOf_spec.
Qed.

Lemma structEq_kind (l r : value) :
  structEq l r = true -> kindDiffers l r = false.
Proof.
  destruct l, r; cbn; try reflexivity; discriminate.
Qed.

Lemma structEq_strictEqual (l r : value) :
  isComposite l = false -> structEq l r = true -> strictEqual l r = true.
Proof.
  destruct l, r; cbn; try discriminate; trivial.
Qed.

Lemma structEq_obj_lookup (ps qs : object) (k : string) (x : value) :
  structEq (VObj ps) (VObj qs) = true ->
  In (k, x) ps ->
  exists y, objGet k qs = Some y /\ structEq x y = true.
Proof.
  cbn [structEq]. rewrite andb_true_iff, forallb_forall.
  intros [_ Hall] Hin. specialize (Hall _ Hin). cbn [fst snd] in Hall.
  destruct (objGet k qs) as [y|]; [eauto | discriminate].
Qed.

Lemma structEq_obj_keys (ps qs : object) :
  wellFormed (VObj ps) = true ->
  structEq (VObj ps) (VObj qs) = true ->
  forall k, In k (map fst qs) <-> In k (map fst ps).
Proof.
  intros Hwf Heq.
  assert (Hperm : Permutation (map fst ps) (map fst qs)).
  { cbn in Hwf. apply andb_true_iff in Hwf. destruct Hwf as [Hkeys _].
    pose proof Heq as Heq'. cbn [structEq] in Heq'.
    apply andb_true_iff in Heq'. destruct Heq' as [Hlen _].
    apply structEq_keys_permutation;
      [now apply distinctKeys_NoDup | assumption |].
    intros k x Hx. apply objGet_In in Hx.
    destruct (structEq_obj_lookup _ _ _ _ Heq Hx) as (y & Hy & _). eauto. }
  intros k. split; intros Hk.
  - apply (Permutation_in _ (Permutation_sym Hperm) Hk).
  - apply (Permutation_in _ Hperm Hk).
Qed.

Section DiffProperties.
Variable normalizedText : value -> string.
Variable ignoreOrder : bool.

Lemma diffValues_equal_documents (l : value) :
  wellFormed l = true ->
  forall r path changes,
    structEq l r = true ->
    ignoreOrder = false \/ r = l ->
    diffValues normalizedText ignoreOrder l r path changes = changes.
Proof.
  induction l as [| b | n | s | items IH | props IH] using value_nested_ind;
    intros Hwf r path changes Heq Hmode;
    try (cbn [diffValues]; rewrite (structEq_kind _ _ Heq);
         rewrite structEq_strictEqual; [reflexivity | reflexivity | exact Heq]).
  - destruct r as [| | | | ys |]; try discriminate Heq.
    cbn [diffValues]. replace (kindDiffers _ _) with false by reflexivity.
    cbn [itemsOf]. destruct ignoreOrder.
    + destruct Hmode as [Hmode | Hmode]; [discriminate|].
      injection Hmode as ->. cbn zeta. rewrite Nat.eqb_refl. cbn [negb orb].
      replace (forallb _ _) with true; [reflexivity|].
      symmetry. apply forallb_forall. intros x Hx.
      unfold setHas. now apply existsb_eqb_In.
    + cbn zeta. cbn [structEq] in Heq. cbn [wellFormed] in Hwf.
      assert (Hpairs : forall idx cs,
        (fix pairs (ls rs : list value) (idx : nat) (changes : list change)
             {struct ls} : list change :=
           match ls, rs with
           | l :: ls', r :: rs' =>
               pairs ls' rs' (S idx)
                 (diffValues normalizedText false l r (indexPrefix path idx) changes)
           | _, _ => changes
           end) items ys idx cs = cs
        /\ List.length items = List.length ys).
      { clear Hmode changes. revert ys Heq Hwf.
        induction IH as [|x rest Hx _ IHrest]; intros [|y ys] Heq Hwf idx cs;
          try discriminate Heq; [now split|].
        cbn in Hwf. apply andb_true_iff in Heq, Hwf.
        destruct Heq as [Hxy Hrest], Hwf as [Hwx Hwrest].
        rewrite (Hx Hwx y _ _ Hxy (or_introl eq_refl)).
        destruct (IHrest ys Hrest Hwrest (S idx) cs) as [Hloop Hlen].
        split; [exact Hloop | cbn; now rewrite Hlen]. }
      destruct (Hpairs 0%nat changes) as [-> Hlen]. rewrite Hlen.
      now rewrite Nat.ltb_irrefl.
  - destruct r as [| | | | | qs]; try discriminate Heq.
    cbn [diffValues]. replace (kindDiffers _ _) with false by reflexivity.
    cbn [propsOf]. cbn zeta.
    pose proof (structEq_obj_keys _ _ Hwf Heq) as Hkeys.
    rewrite (filter_none (fun k => negb (setHas (setOf (map fst qs)) k))).
    2:{ intros k Hk. apply (proj1 (setOf_In _ _)) in Hk. apply negb_false_iff.
        apply setHas_setOf. apply (proj2 (Hkeys k) Hk). }
    rewrite (filter_none (fun k => negb (setHas (setOf (map fst props)) k))).
    2:{ intros k Hk. apply (proj1 (setOf_In _ _)) in Hk. apply negb_false_iff.
        apply setHas_setOf. apply (proj1 (Hkeys k) Hk). }
    cbn [sortKeys fold_right fold_left].
    apply fold_left_unchanged. intros k Hk cs.
    apply (proj1 (sortKeys_In _ _)), filter_In in Hk. destruct Hk as [Hk _].
    apply (proj1 (setOf_In _ _)) in Hk. destruct (In_key_objGet _ _ Hk) as [x Hx].
    rewrite assocGet_map, Hx. cbn [option_map].
    pose proof (objGet_In _ _ _ Hx) as Hin.
    destruct (structEq_obj_lookup _ _ _ _ Heq Hin) as (y & Hy & Hxy).
    rewrite Hy. rewrite Forall_forall in IH.
    cbn [wellFormed] in Hwf. apply andb_true_iff in Hwf.
    destruct Hwf as [_ Hwvals]. rewrite forallb_forall in Hwvals.
    apply (IH _ Hin (Hwvals _ Hin)); [exact Hxy|].
    destruct Hmode as [Hmode | Hmode]; [now left | right].
    injection Hmode as ->. cbn [snd]. congruence.
Qed.
End DiffProperties.

(** X22: two documents that are structurally equal up to the order of
    mapping keys have no differences (order-sensitive comparison of
    arrays), and a document has no differences with itself in either
    mode; the [changes] array is returned as it was. *)
Theorem diffValues_no_change_when_equal
    (normalizedText : value -> string) (ignoreOrder : bool)
    (l r : value) (path : string) (changes : list change)
    (Hwf : wellFormed l = true) (Heq : structEq l r = true) :
  diffValues normalizedText false l r path changes = changes
  /\ diffValues normalizedText ignoreOrder l l path changes = changes.
Proof.
  split.
  - apply diffValues_equal_documents; auto.
  - apply diffValues_equal_documents; auto. now apply structEq_refl.
Qed.

Lemma diffValues_no_change_when_equal_witness :
  diffValues (fun _ => EmptyString) false doc_b_a doc_a_b_sorted "" [] = [].
Proof.
  apply (diffValues_no_change_when_equal (fun _ => EmptyString) false
           doc_b_a doc_a_b_sorted "" []); reflexivity.
Defined.


Lemma appending_push (x : change) : appending (fun changes => changes ++ [x]).
Proof. intros changes. reflexivity. Qed.

Lemma appending_fold {B : Type} (step : list change -> B -> list change)
    (keys : list B) :
  (forall k, In k keys -> appending (fun changes => step changes k)) ->
  appending (fold_left step keys).
Proof.
  induction keys as [|k rest IH]; intros Hstep changes; cbn [fold_left].
  - now rewrite app_nil_r.
  - assert (Hrest : appending (fold_left step rest))
      by (apply IH; intros k' Hk'; apply Hstep; now right).
    rewrite (Hrest (step changes k)), (Hrest (step [] k)).
    rewrite (Hstep k (or_introl eq_refl) changes). now rewrite app_assoc.
Qed.

Lemma appending_forEachFrom {A : Type}
    (body : A -> nat -> list change -> list change) (items : list A) :
  (forall x i, appending (body x i)) ->
  forall idx, appending (forEachFrom body items idx).
Proof.
  intros Hbody. induction items as [|x rest IH]; intros idx changes;
    cbn [forEachFrom].
  - now rewrite app_nil_r.
  - rewrite (IH (S idx) (body x idx changes)), (IH (S idx) (body x idx [])).
    rewrite (Hbody x idx changes). now rewrite app_assoc.
Qed.

Lemma fold_nil_steps {B : Type} (step : list change -> B -> list change)
    (keys : list B) :
  (forall k, In k keys -> appending (fun changes => step changes k)) ->
  fold_left step keys [] = [] ->
  forall k, In k keys -> step [] k = [].
Proof.
  induction keys as [|k0 rest IH]; intros Hstep Hnil k Hk; [destruct Hk|].
  cbn [fold_left] in Hnil.
  assert (Hrest : appending (fold_left step rest))
    by (apply appending_fold; intros k' Hk'; apply Hstep; now right).
  rewrite (Hrest (step [] k0)) in Hnil.
  apply app_eq_nil in Hnil. destruct Hnil as [Hhead Htail].
  destruct Hk as [<- | Hk]; [exact Hhead|].
  apply IH; try assumption. intros k' Hk'. apply Hstep. now right.
Qed.

Lemma forEachFrom_push_length {A : Type} (entry : A -> nat -> change)
    (items : list A) (idx : nat) (changes : list change) :
  List.length
    (forEachFrom (fun item i changes => changes ++ [entry item i]) items idx changes)
  = (List.length changes + List.length items)%nat.
Proof.
  revert idx changes. induction items as [|x rest IH]; intros idx changes;
    cbn [forEachFrom List.length]; [lia|].
  rewrite IH, length_app. cbn. lia.
Qed.

Lemma kindDiffers_same_shape (l r : value) :
  kindDiffers l r = false ->
  match l with
  | VNull => r = VNull
  | VBool _ => exists b, r = VBool b
  | VNum _ => exists n, r = VNum n
  | VStr _ => exists s, r = VStr s
  | VArr _ => exists ys, r = VArr ys
  | VObj _ => exists qs, r = VObj qs
  end.
Proof.
  destruct l, r; cbn; try discriminate; eauto.
Qed.

Section DiffComplete.
Variable normalizedText : value -> string.
Variable ignoreOrder : bool.

Lemma diffValues_appending (l : value) :
  forall r path, appending (diffValues normalizedText ignoreOrder l r path).
Proof.
  induction l as [| b | n | s | items IH | props IH] using value_nested_ind;
    intros r path changes; cbn [diffValues];
    (destruct (kindDiffers _ r); [reflexivity|]);
    try (destruct (negb (strictEqual _ r)); [reflexivity | now rewrite app_nil_r]).
  - destruct ignoreOrder.
    + cbn zeta. destruct (_ || _); [reflexivity | now rewrite app_nil_r].
    + cbn zeta.
      assert (Hpairs : forall rs idx,
        appending
          ((fix pairs (ls rs : list value) (idx : nat) (changes : list change)
                {struct ls} : list change :=
              match ls, rs with
              | l :: ls', r :: rs' =>
                  pairs ls' rs' (S idx)
                    (diffValues normalizedText false l r (indexPrefix path idx) changes)
              | _, _ => changes
              end) items rs idx)).
      { induction IH as [|x rest Hx _ IHrest]; intros rs idx cs.
        - now rewrite app_nil_r.
        - destruct rs as [|y rs]; [now rewrite app_nil_r|].
          rewrite (IHrest rs (S idx) (diffValues _ _ x y _ cs)).
          rewrite (IHrest rs (S idx) (diffValues _ _ x y _ [])).
          rewrite (Hx y _ cs). now rewrite app_assoc. }
      rewrite (Hpairs (itemsOf r) 0%nat changes).
      destruct (_ <? _)%nat.
      * rewrite appending_forEachFrom by (intros; apply appending_push).
        rewrite <- app_assoc. f_equal. symmetry.
        apply appending_forEachFrom. intros; apply appending_push.
      * destruct (_ <? _)%nat; [| reflexivity].
        rewrite appending_forEachFrom by (intros; apply appending_push).
        rewrite <- app_assoc. f_equal. symmetry.
        apply appending_forEachFrom. intros; apply appending_push.
  - cbn zeta.
    match goal with
    | |- fold_left ?s3 ?k3 (fold_left ?s2 ?k2 (fold_left ?s1 ?k1 changes)) = _ =>
        assert (H1 : appending (fold_left s1 k1));
        [| assert (H2 : appending (fold_left s2 k2));
           [| assert (H3 : appending (fold_left s3 k3)) ] ]
    end.
    + apply appending_fold. intros k _ cs.
      destruct (objGet k props); [reflexivity | now rewrite app_nil_r].
    + apply appending_fold. intros k _ cs.
      destruct (objGet k (propsOf r)); [reflexivity | now rewrite app_nil_r].
    + apply appending_fold. intros k _ cs.
      rewrite assocGet_map.
      destruct (objGet k props) as [x|] eqn:Hx; cbn [option_map];
        [| now rewrite app_nil_r].
      destruct (objGet k (propsOf r)) as [y|]; [| now rewrite app_nil_r].
      rewrite Forall_forall in IH.
      apply (IH _ (objGet_In _ _ _ Hx)).
    + rewrite (H3 (fold_left _ _ (fold_left _ _ changes))).
      rewrite (H2 (fold_left _ _ changes)), (H1 changes).
      rewrite (H3 (fold_left _ _ (fold_left _ _ []))), (H2 (fold_left _ _ [])).
      now rewrite !app_assoc.
Qed.
End DiffComplete.


Lemma sortKeys_nil_inv (l : list string) : sortKeys l = [] -> l = [].
Proof.
  intros H. pose proof (sortKeys_is_permutation l) as Hperm.
  rewrite H in Hperm. now apply Permutation_nil in Hperm.
Qed.

Lemma strictEqual_structEq (l r : value) :
  strictEqual l r = true -> structEq l r = true.
Proof.
  destruct l, r; cbn; try discriminate; trivial.
Qed.

Lemma wellFormed_obj_value (props : object) (k : string) (x : value) :
  wellFormed (VObj props) = true -> In (k, x) props -> wellFormed x = true.
Proof.
  cbn [wellFormed]. rewrite andb_true_iff, forallb_forall.
  intros [_ Hvals] Hin. apply (Hvals _ Hin).
Qed.

Lemma diffValues_nil_structEq (normalizedText : value -> string) (l : value) :
  wellFormed l = true ->
  forall r path,
    wellFormed r = true ->
    diffValues normalizedText false l r path [] = [] ->
    structEq l r = true.
Proof.
  induction l as [| b | n | s | items IH | props IH] using value_nested_ind;
    intros Hwf r path Hwr Hdiff; cbn [diffValues] in Hdiff;
    (destruct (kindDiffers _ r) eqn:Hkind; [discriminate Hdiff|]);
    try (apply strictEqual_structEq;
         destruct (strictEqual _ r); [reflexivity | discriminate Hdiff]).
  - destruct (kindDiffers_same_shape _ _ Hkind) as [ys ->].
    cbn [itemsOf] in Hdiff. cbn zeta in Hdiff.
    set (pairs :=
      fix pairs (ls rs : list value) (idx : nat) (changes : list change)
          {struct ls} : list change :=
        match ls, rs with
        | l :: ls', r :: rs' =>
            pairs ls' rs' (S idx)
              (diffValues normalizedText false l r (indexPrefix path idx) changes)
        | _, _ => changes
        end) in Hdiff.
    assert (Happ : forall ls rs idx, appending (pairs ls rs idx)).
    { induction ls as [|x ls IHls]; intros rs idx cs; cbn [pairs].
      - now rewrite app_nil_r.
      - destruct rs as [|y rs]; [now rewrite app_nil_r|].
        rewrite (IHls rs (S idx) (diffValues _ _ x y _ cs)).
        rewrite (IHls rs (S idx) (diffValues _ _ x y _ [])).
        rewrite (diffValues_appending normalizedText false x y _ cs).
        now rewrite app_assoc. }
    assert (Hlen : List.length items = List.length ys).
    { destruct (List.length ys <? List.length items)%nat eqn:Hshort.
      - apply (f_equal (@List.length change)) in Hdiff.
        rewrite forEachFrom_push_length, length_skipn in Hdiff.
        apply Nat.ltb_lt in Hshort. cbn in Hdiff. lia.
      - destruct (List.length items <? List.length ys)%nat eqn:Hlong.
        + apply (f_equal (@List.length change)) in Hdiff.
          rewrite forEachFrom_push_length, length_skipn in Hdiff.
          apply Nat.ltb_lt in Hlong. cbn in Hdiff. lia.
        + apply Nat.ltb_ge in Hshort, Hlong. lia. }
    rewrite Hlen, Nat.ltb_irrefl in Hdiff.
    cbn [structEq]. cbn [wellFormed] in Hwf, Hwr.
    clear Hkind. revert ys Hwr Hlen Hdiff. generalize 0%nat.
    induction IH as [|x rest Hx _ IHrest]; intros idx [|y ys] Hwr Hlen Hdiff;
      try discriminate Hlen; [reflexivity|].
    cbn [pairs] in Hdiff. rewrite (Happ rest ys (S idx)) in Hdiff.
    apply app_eq_nil in Hdiff. destruct Hdiff as [Hhead Htail].
    cbn in Hwf, Hwr. apply andb_true_iff in Hwf, Hwr.
    destruct Hwf as [Hwx Hwrest], Hwr as [Hwy Hwys].
    rewrite (Hx Hwx y _ Hwy Hhead). cbn [andb].
    apply (IHrest Hwrest (S idx) ys Hwys); [now injection Hlen | exact Htail].
  - destruct (kindDiffers_same_shape _ _ Hkind) as [qs ->].
    cbn [propsOf] in Hdiff. cbn zeta in Hdiff.
    match type of Hdiff with
    | fold_left ?s3 ?k3 (fold_left ?s2 ?k2 (fold_left ?s1 ?k1 [])) = [] =>
        assert (H1 : forall k, appending (fun cs => s1 cs k));
        [| assert (H2 : forall k, appending (fun cs => s2 cs k));
           [| assert (H3 : forall k, appending (fun cs => s3 cs k));
              [| pose proof (appending_fold s2 k2 (fun k _ => H2 k)) as F2;
                 pose proof (appending_fold s3 k3 (fun k _ => H3 k)) as F3;
                 rewrite (F3 (fold_left s2 k2 (fold_left s1 k1 []))) in Hdiff;
                 rewrite (F2 (fold_left s1 k1 [])) in Hdiff;
                 apply app_eq_nil in Hdiff; destruct Hdiff as [Hdiff Hcommon];
                 apply app_eq_nil in Hdiff; destruct Hdiff as [Hremoved Hadded];
                 pose proof (fold_nil_steps s1 k1 (fun k _ => H1 k) Hremoved) as N1;
                 pose proof (fold_nil_steps s2 k2 (fun k _ => H2 k) Hadded) as N2;
                 pose proof (fold_nil_steps s3 k3 (fun k _ => H3 k) Hcommon) as N3;
                 cbv beta in N1, N2, N3 ] ] ]
    end.
    + intros k cs. destruct (objGet k props); [reflexivity | now rewrite app_nil_r].
    + intros k cs. destruct (objGet k qs); [reflexivity | now rewrite app_nil_r].
    + intros k cs. rewrite assocGet_map.
      destruct (objGet k props) as [x|]; cbn [option_map]; [| now rewrite app_nil_r].
      destruct (objGet k qs) as [y|]; [| now rewrite app_nil_r].
      apply diffValues_appending.
    + clear H1 H2 H3 F2 F3 Hremoved Hadded Hcommon.
      assert (Hleft : forall k, In k (map fst props) -> In k (map fst qs)).
      { intros k Hk.
        destruct (setHas (setOf (map fst qs)) k) eqn:Hhas;
          [now apply setHas_setOf in Hhas|].
        exfalso. destruct (In_key_objGet _ _ Hk) as [x Hx].
        specialize (N1 k). rewrite Hx in N1. cbn in N1.
        assert (Hin : In k (sortKeys (filter (fun k0 => negb (setHas (setOf (map fst qs)) k0))
                                       (setOf (map fst props))))).
        { apply sortKeys_In, filter_In. split; [now apply setOf_In|].
          now rewrite Hhas. }
        specialize (N1 Hin). discriminate N1. }
      assert (Hright : forall k, In k (map fst qs) -> In k (map fst props)).
      { intros k Hk.
        destruct (setHas (setOf (map fst props)) k) eqn:Hhas;
          [now apply setHas_setOf in Hhas|].
        exfalso. destruct (In_key_objGet _ _ Hk) as [y Hy].
        specialize (N2 k). rewrite Hy in N2. cbn in N2.
        assert (Hin : In k (sortKeys (filter (fun k0 => negb (setHas (setOf (map fst props)) k0))
                                       (setOf (map fst qs))))).
        { apply sortKeys_In, filter_In. split; [now apply setOf_In|].
          now rewrite Hhas. }
        specialize (N2 Hin). discriminate N2. }
      pose proof Hwf as Hwf'. pose proof Hwr as Hwr'.
      cbn [wellFormed] in Hwf', Hwr'. apply andb_true_iff in Hwf', Hwr'.
      destruct Hwf' as [Hdl _], Hwr' as [Hdr _].
      apply distinctKeys_NoDup in Hdl, Hdr.
      cbn [structEq]. apply andb_true_iff. split.
      * apply Nat.eqb_eq.
        assert (Hperm : Permutation (map fst props) (map fst qs)).
        { apply NoDup_Permutation; try assumption.
          intros k. split; [apply Hleft | apply Hright]. }
        apply Permutation_length in Hperm. now rewrite !length_map in Hperm.
      * apply forallb_forall. intros [k x] Hin. cbn [fst snd].
        assert (Hk : In k (map fst props)) by (apply in_map_iff; now exists (k, x)).
        destruct (In_key_objGet _ _ (Hleft _ Hk)) as [y Hy]. rewrite Hy.
        specialize (N3 k). rewrite assocGet_map in N3.
        rewrite (objGet_distinct_In k x props Hdl Hin), Hy in N3.
        cbn [option_map] in N3.
        rewrite Forall_forall in IH.
        apply (IH _ Hin (wellFormed_obj_value _ _ _ Hwf Hin) y
                 (keyPrefix "." path k)
                 (wellFormed_obj_value _ _ _ Hwr (objGet_In _ _ _ Hy))).
        apply N3. apply sortKeys_In, filter_In. split.
        -- now apply setOf_In.
        -- apply setHas_setOf. now apply Hleft.
Qed.

(** X23: when the order-sensitive diff of two documents reports no
    difference, the documents are structurally equal up to the order of
    mapping keys.  Together with X22, the diff is empty exactly for
    documents that differ only in key order. *)
Theorem diffValues_empty_iff_equal
    (normalizedText : value -> string) (l r : value) (path : string)
    (Hwl : wellFormed l = true) (Hwr : wellFormed r = true) :
  diffValues normalizedText false l r path [] = [] <-> structEq l r = true.
Proof.
  split.
  - now apply diffValues_nil_structEq.
  - intros Heq. apply diffValues_equal_documents; auto.
Qed.

Lemma diffValues_empty_iff_equal_witness :
  diffValues (fun _ => EmptyString) false doc_b_a doc_a_b_sorted "" [] = []
  <-> structEq doc_b_a doc_a_b_sorted = true.
Proof.
  apply (diffValues_empty_iff_equal (fun _ => EmptyString)
           doc_b_a doc_a_b_sorted ""); reflexivity.
Defined.

(** ** The written text, bracket suffixes and field extraction *)

(** X24: the text [writeJsonStable] writes does not depend on the order
    of mapping keys: structurally equal documents are written
    identically, compact or indented. *)
Theorem writeJsonStable_ignores_key_order (a b : value) (compact : bool)
    (Hwf : wellFormed a = true) (Heq : structEq a b = true) :
  writeJsonStable a compact = writeJsonStable b compact
  /\ writeJson a compact = writeJson b compact.
Proof.
  unfold writeJson, writeJsonStable. cbn zeta.
  now rewrite (stableSortKeys_structEq a Hwf b Heq).
Qed.

Lemma writeJsonStable_ignores_key_order_witness :
  writeJsonStable doc_b_a false = writeJsonStable doc_a_b_sorted false.
Proof.
  apply (writeJsonStable_ignores_key_order doc_b_a doc_a_b_sorted false);
    reflexivity.
Defined.

Lemma pathTokens_wildcard : pathTokens "[*]" = [TStr "*"].
Proof. reflexivity. Qed.

(** X25: a bracket after a path applies to every value the path selects:
    [a[*]] yields the elements of each selected array and the values of
    each selected mapping, [a[i]], for an index [i] below 2^53 (the
    numerals that [Number.parseInt] reads exactly), the element at index
    [i] of each selected array that has one; other selected values
    contribute nothing. *)
Theorem extractValues_bracket_suffix (data : value) (a : string) (i : nat)
    (Hexact : exactIndex (N.of_nat i) = true) :
  exists va,
    extractValues data (PathString a) = Ok va
    /\ extractValues data (PathString (a ++ "[*]"))
       = Ok (flat_map (fun v => match v with
                                | VArr items => items
                                | VObj props => map snd props
                                | _ => []
                                end) va)
    /\ extractValues data (PathString (a ++ "[" ++ decimal (Z.of_nat i) ++ "]"))
       = Ok (flat_map (fun v => match v with
                                | VArr items =>
                                    match nth_error items i with
                                    | Some x => [x]
                                    | None => []
                                    end
                                | _ => []
                                end) va).
Proof.
  exists (evalTokens (pathTokens a) [data]).
  rewrite !extractValues_evalTokens. split; [reflexivity|].
  change (a ++ "[*]")%string with (a ++ String "[" "*]")%string.
  change (a ++ "[" ++ decimal (Z.of_nat i) ++ "]")%string
    with (a ++ String "[" (decimal (Z.of_nat i) ++ "]"))%string.
  rewrite !(pathTokens_app_boundary a _ "["%char eq_refl), !evalTokens_app.
  change (pathTokens (String "[" "*]")) with [TStr "*"].
  change (String "[" (decimal (Z.of_nat i) ++ "]"))
    with ("[" ++ decimal (Z.of_nat i) ++ "]")%string.
  rewrite pathTokens_index. cbn [evalTokens fold_left]. split.
  - reflexivity.
  - f_equal. apply flat_map_ext. intros v.
    destruct v; try reflexivity. apply emit_index.
Qed.

Lemma extractValues_bracket_suffix_witness :
  exists va,
    extractValues doc_a_rows (PathString "a") = Ok va
    /\ extractValues doc_a_rows (PathString "a[*]")
       = Ok (flat_map (fun v => match v with
                                | VArr items => items
                                | VObj props => map snd props
                                | _ => []
                                end) va)
    /\ extractValues doc_a_rows (PathString "a[0]")
       = Ok (flat_map (fun v => match v with
                                | VArr items =>
                                    match nth_error items 0 with
                                    | Some x => [x]
                                    | None => []
                                    end
                                | _ => []
                                end) va).
Proof.
  exact (extractValues_bracket_suffix doc_a_rows "a" 0 eq_refl).
Defined.

Lemma extractFieldStep_ok (row : value) (includeMissing : bool)
    (item : object) (field : string) :
  exists values,
    extractValues row (PathString field) = Ok values
    /\ extractFieldStep row includeMissing (Ok item) field
       = Ok (match values with
             | [] => if includeMissing then objSet field VNull item else item
             | [v] => objSet field v item
             | _ => objSet field (VArr values) item
             end).
Proof.
  unfold extractFieldStep. rewrite extractValues_evalTokens. cbn [bind].
  eexists. split; [reflexivity|].
  destruct (evalTokens _ _) as [|v [|w rest]];
    try destruct includeMissing; reflexivity.
Qed.

Lemma extractFields_fold_lookup (row : value) (includeMissing : bool)
    (fields : list string) (k : string) :
  (k =? "__proto__") = false ->
  forall item,
  exists result,
    fold_left (extractFieldStep row includeMissing) fields (Ok item) = Ok result
    /\ forall values,
         extractValues row (PathString k) = Ok values ->
         objGet k result
         = if existsb (String.eqb k) fields
           then match fieldValue includeMissing values with
                | Some v => Some v
                | None => objGet k item
                end
           else objGet k item.
Proof.
  intros Hk. induction fields as [|field rest IH]; intros item.
  - exists item. split; [reflexivity | intros; reflexivity].
  - cbn [fold_left existsb].
    destruct (extractFieldStep_ok row includeMissing item field)
      as (found & Hfound & ->).
    destruct (IH (match found with
                  | [] => if includeMissing then objSet field VNull item else item
                  | [v] => objSet field v item
                  | _ => objSet field (VArr found) item
                  end)) as (result & Hfold & Hget).
    exists result. split; [exact Hfold|].
    intros values Hvalues. rewrite (Hget values Hvalues).
    destruct (String.eqb_spec k field) as [<-|Hne]; cbn [orb].
    + rewrite Hvalues in Hfound. injection Hfound as <-.
      assert (Hnow : objGet k
                (match values with
                 | [] => if includeMissing then objSet k VNull item else item
                 | [v] => objSet k v item
                 | _ => objSet k (VArr values) item
                 end)
              = match fieldValue includeMissing values with
                | Some v => Some v
                | None => objGet k item
                end).
      { unfold fieldValue.
        destruct values as [|v [|w more]]; try destruct includeMissing;
          rewrite ?objGet_objSet, ?String.eqb_refl, ?Hk; reflexivity. }
      rewrite Hnow.
      destruct (existsb (String.eqb k) rest);
        destruct (fieldValue includeMissing values); reflexivity.
    + assert (Hkeep : objGet k
                (match found with
                 | [] => if includeMissing then objSet field VNull item else item
                 | [v] => objSet field v item
                 | _ => objSet field (VArr found) item
                 end) = objGet k item).
      { assert (Hset : forall v, objGet k (objSet field v item) = objGet k item).
        { intros v. rewrite objGet_objSet.
          destruct (String.eqb_spec k field); [congruence | reflexivity]. }
        destruct found as [|v [|w more]]; try destruct includeMissing;
          rewrite ?Hset; reflexivity. }
      now rewrite Hkeep.
Qed.

Lemma extractFieldsRow_ok (fields : list string) (includeMissing : bool)
    (row : value) :
  exists item, extractFieldsRow fields includeMissing row = Ok (VObj item).
Proof.
  destruct row; cbn [extractFieldsRow]; eauto.
  destruct (extractFields_fold_lookup (VObj props) includeMissing fields ""
              eq_refl []) as (result & Hfold & _).
  exists result. now rewrite Hfold.
Qed.

Lemma extractFields_fold_rows (fields : list string) (includeMissing : bool)
    (rows output : list value) :
  exists records,
    fold_left
      (fun state row =>
         output <- state ;;
         item <- extractFieldsRow fields includeMissing row ;;
         Ok (output ++ [item]))
      rows (Ok output) = Ok (output ++ records)
    /\ Forall2 (fun row record =>
                 extractFieldsRow fields includeMissing row = Ok record)
         rows records.
Proof.
  revert output. induction rows as [|row rest IH]; intros output.
  - exists []. split; [now rewrite app_nil_r | constructor].
  - cbn [fold_left bind].
    destruct (extractFieldsRow_ok fields includeMissing row) as [item Hitem].
    rewrite Hitem. cbn [bind].
    destruct (IH (output ++ [VObj item])) as (records & -> & Hall).
    exists (VObj item :: records). split.
    + now rewrite <- app_assoc.
    + now constructor.
Qed.

(** X26: [extractFields] returns the records of the rows, one per row
    and in the order of the rows.  The record of a row that is not a
    mapping is [{_value: row}].  In the record of a mapping row, a
    requested field other than "__proto__" holds the single value its
    path selects in the row, the array of the values when there are
    several, and [null] for no value when missing fields are included;
    otherwise the field is absent, as is every field that was not
    requested. *)
Theorem extractFields_records (rows : list value) (fields : list string)
    (includeMissing : bool) (props : object) (k : string)
    (Hk : (k =? "__proto__") = false) :
  (exists output,
     extractFields rows fields includeMissing = Ok output
     /\ Forall2 (fun row record =>
                  extractFieldsRow fields includeMissing row = Ok record)
          rows output
     /\ List.length output = List.length rows)
  /\ (forall row, match row with VObj _ => False | _ => True end ->
        extractFieldsRow fields includeMissing row = Ok (VObj [("_value", row)]))
  /\ exists item values,
       extractFieldsRow fields includeMissing (VObj props) = Ok (VObj item)
       /\ extractValues (VObj props) (PathString k) = Ok values
       /\ objGet k item
          = if existsb (String.eqb k) fields
            then fieldValue includeMissing values
            else None.
Proof.
  split; [| split].
  - unfold extractFields.
    destruct (extractFields_fold_rows fields includeMissing rows [])
      as (records & Hfold & Hall).
    exists records. split; [exact Hfold|]. split; [exact Hall|].
    symmetry. exact (Forall2_length Hall).
  - intros row Hrow. destruct row; try reflexivity. destruct Hrow.
  - cbn [extractFieldsRow].
    destruct (extractFields_fold_lookup (VObj props) includeMissing fields k Hk [])
      as (result & -> & Hget).
    cbn [bind]. exists result, (evalTokens (pathTokens k) [VObj props]).
    split; [reflexivity|]. split; [apply extractValues_evalTokens|].
    rewrite (Hget _ (extractValues_evalTokens _ _)). cbn [objGet].
    destruct (existsb _ _); [| reflexivity].
    destruct (fieldValue _ _); reflexivity.
Qed.

Lemma extractFields_records_witness :
  extractFields [VObj [("id", vint 7); ("tag", VStr "x")]; vint 3] ["name"; "id"] true
  = Ok [VObj [("name", VNull); ("id", vint 7)]; VObj [("_value", vint 3)]]
  /\ (exists output,
        extractFields [VObj [("id", vint 7); ("tag", VStr "x")]; vint 3]
          ["name"; "id"] true = Ok output
        /\ Forall2 (fun row record =>
                     extractFieldsRow ["name"; "id"] true row = Ok record)
             [VObj [("id", vint 7); ("tag", VStr "x")]; vint 3] output
        /\ List.length output = 2%nat)
  /\ exists item values,
       extractFieldsRow ["name"; "id"] true (VObj [("id", vint 7); ("tag", VStr "x")])
       = Ok (VObj item)
       /\ extractValues (VObj [("id", vint 7); ("tag", VStr "x")]) (PathString "id")
          = Ok values
       /\ objGet "id" item
          = if existsb (String.eqb "id") ["name"; "id"]
            then fieldValue true values
            else None.
Proof.
  split; [reflexivity|].
  destruct (extractFields_records
              [VObj [("id", vint 7); ("tag", VStr "x")]; vint 3] ["name"; "id"]
              true [("id", vint 7); ("tag", VStr "x")] "id" eq_refl)
    as (Hrows & _ & Hrecord).
  split; [exact Hrows | exact Hrecord].
Defined.

(** X27: on a mapping, [resolveArray] with a path that is one plain key
    returns the array stored under the key, the values of the mapping
    stored under the key (the object fallback), and the empty sequence
    when the key holds a scalar or is missing. *)
Theorem resolveArray_plain_key (props : object) (k : string)
    (Hk : plainKey k = true) :
  resolveArray (VObj props) (PathString k)
  = Ok (match objGet k props with
        | Some (VArr items) => items
        | Some (VObj inner) => map snd inner
        | _ => []
        end).
Proof.
  pose proof (extractValues_of_plainKey props k Hk) as Hvalues.
  destruct (plainKey_run k Hk) as (_ & Hne & _).
  unfold resolveArray, pathTruthy, truthy. rewrite Hne. cbn [negb].
  rewrite Hvalues. cbn [bind].
  destruct (objGet k props) as [[| | | | items | inner]|]; reflexivity.
Qed.

Lemma resolveArray_plain_key_witness :
  resolveArray (VObj [("users", VArr [vint 1; vint 2])]) (PathString "users")
  = Ok [vint 1; vint 2].
Proof.
  apply (resolveArray_plain_key [("users", VArr [vint 1; vint 2])] "users").
  reflexivity.
Defined.
